(** * METHStaking: a confidential staking ledger

    Shallow embedding of [contracts/METHStaking.sol] and of the collaborators
    it talks to, followed by the properties of the ledger.

    The contract keeps one encrypted balance per staker and one encrypted
    running total.  Every arithmetic step goes through the encrypted-integer
    primitive ([FHE]) and the safe-arithmetic helpers ([FHESafeMath]); custody
    of the staked units is delegated to a confidential token reached through
    the [IERC7984] interface. *)

From Stdlib Require Import ZArith Lia.
From stdpp Require Import base option gmap sets list.

#[local] Open Scope Z_scope.
#[local] Set Warnings "-clear-no-such-hyp".

(** Solidity [address] and the [bytes32] handle behind an encrypted value.
    The zero handle is the never-assigned value. *)
Definition address := N.
Definition handle := N.

Definition MAX_UINT64 : Z := 2 ^ 64 - 1.

(** ** The encrypted-integer primitive *)

Module FHE.

(** Modelled from the spec: the encrypted 64-bit primitive (the
    [@fhevm/solidity] library, which is a dependency and not part of the
    sources).  Spec sections 2, 3 and 4.3: an encrypted value is an opaque
    payload with an "initialized" flag and an access-control relation
    (value, principal); operations derive a new value and never mutate one;
    a derived value starts without grants; grants are only ever added.
    The payload is kept next to the handle as a cleartext stand-in; the
    ledger below never inspects it, only [decrypt] (used in statements)
    does. *)
Record euint64 := Cipher { handleOf : handle; payload : Z }.

Record ebool := Flag { flagHandle : handle; flagPayload : bool }.

(** Modelled from the spec: the never-assigned value of section 3, which is
    distinguishable from an encrypted zero. *)
Definition uninitialized : euint64 := Cipher 0%N 0.

Definition isInitialized (v : euint64) : bool := negb (handleOf v =? 0)%N.

(** Modelled from the spec: what an authorized principal reads off-chain,
    a 64-bit unsigned value, zero for the never-assigned handle ("default =
    uninitialized/zero", section 3). *)
Definition decrypt (v : euint64) : Z :=
  if isInitialized v then payload v mod 2 ^ 64 else 0.

(** Modelled from the spec: the operations issued to the primitive, by
    handle.  This is the "encrypted trace" of section 4.1, what an on-chain
    observer sees: handles and public constants, never payloads. *)
Inductive Op :=
| OpTrivialEncrypt (value : Z) (result : handle)
| OpVerify (result : handle)
| OpAdd (lhs rhs result : handle)
| OpSub (lhs rhs result : handle)
| OpGe (lhs rhs result : handle)
| OpSelect (control ifTrue ifFalse result : handle)
| OpAllow (h : handle) (account : address)
| OpAllowTransient (h : handle) (account : address).

(** Modelled from the spec: the access-control relation of section 4.3
    (permanent and call-scoped grants), with a handle allocator and the
    operation log (most recent operation first). *)
Record State := MkState {
  persistent : gset (handle * address);
  transient : gset (handle * address);
  counter : handle;
  trace : list Op
}.

Definition initial : State := MkState ∅ ∅ 0%N [].

Definition fresh (s : State) : handle := N.succ (counter s).

(** Modelled from the spec: every operation derives a new value.  Allocate
    the fresh handle and log the operation that produced it. *)
Definition produce (op : handle → Op) (s : State) : State :=
  MkState (persistent s) (transient s) (fresh s) (op (fresh s) :: trace s).

(** Modelled from the spec: the homomorphic operations of section 2 (a
    public constant as an encrypted value, add and subtract wrapping at 64
    bits, comparison, conditional select).  The result has no grants. *)
Definition asEuint64 (value : Z) (s : State) : euint64 * State :=
  (Cipher (fresh s) (value mod 2 ^ 64), produce (OpTrivialEncrypt value) s).

Definition add (a b : euint64) (s : State) : euint64 * State :=
  (Cipher (fresh s) ((decrypt a + decrypt b) mod 2 ^ 64),
   produce (OpAdd (handleOf a) (handleOf b)) s).

Definition sub (a b : euint64) (s : State) : euint64 * State :=
  (Cipher (fresh s) ((decrypt a - decrypt b) mod 2 ^ 64),
   produce (OpSub (handleOf a) (handleOf b)) s).

Definition ge (a b : euint64) (s : State) : ebool * State :=
  (Flag (fresh s) (decrypt b <=? decrypt a),
   produce (OpGe (handleOf a) (handleOf b)) s).

Definition select (control : ebool) (a b : euint64) (s : State) : euint64 * State :=
  (Cipher (fresh s) (if flagPayload control then decrypt a else decrypt b),
   produce (OpSelect (flagHandle control) (handleOf a) (handleOf b)) s).

(** Modelled from the spec: [isAuthorized], [authorize] and the
    call-scoped authorization of sections 4.3 and 4.4.  Grants are added,
    never removed. *)
Definition isAllowed (v : euint64) (account : address) (s : State) : bool :=
  bool_decide ((handleOf v, account) ∈ persistent s)
  || bool_decide ((handleOf v, account) ∈ transient s).

Definition allow (v : euint64) (account : address) (s : State) : unit * State :=
  (tt, MkState ({[ (handleOf v, account) ]} ∪ persistent s) (transient s)
         (counter s) (OpAllow (handleOf v) account :: trace s)).

Definition allowTransient (v : euint64) (account : address) (s : State) : unit * State :=
  (tt, MkState (persistent s) ({[ (handleOf v, account) ]} ∪ transient s)
         (counter s) (OpAllowTransient (handleOf v) account :: trace s)).

(** Modelled from the spec: call-scoped grants end with the call. *)
Definition endTransaction (s : State) : State :=
  MkState (persistent s) ∅ (counter s) (trace s).

(** Modelled from the spec: an external ciphertext and its validity proof,
    as produced off-chain (section 6, inbound amount submission). *)
Record externalEuint64 := External { sealed : Z }.
Record inputProof := Proof { accepted : bool }.

(** Modelled from the spec: the input verifier materializes an accepted
    ciphertext as an encrypted value and rejects the others. *)
Definition fromExternal (encryptedAmount : externalEuint64) (proof : inputProof)
    (s : State) : option (euint64 * State) :=
  if accepted proof then
    Some (Cipher (fresh s) (sealed encryptedAmount mod 2 ^ 64), produce OpVerify s)
  else None.

End FHE.

Export FHE (euint64, ebool, Cipher, Flag, handleOf, payload, decrypt).

(** ** Safe arithmetic *)

Module FHESafeMath.

(** Modelled from the spec: the safe-arithmetic helpers (OpenZeppelin's
    [FHESafeMath], a dependency that is not part of the sources).  Spec
    section 4.1: [tryIncrease] computes [current + delta], its flag says
    that no unsigned 64-bit overflow occurred, and the result is the sum
    when the flag holds and [current] otherwise; [tryDecrease] computes
    [current - delta], its flag says [delta <= current], and the result is
    the difference when it holds and [current] otherwise.  Both candidates
    are computed and the result is picked by a homomorphic select. *)
Definition tryIncrease (oldValue delta : euint64) (s : FHE.State)
    : (ebool * euint64) * FHE.State :=
  let '(newValue, s1) := FHE.add oldValue delta s in
  let '(success, s2) := FHE.ge newValue oldValue s1 in
  let '(updated, s3) := FHE.select success newValue oldValue s2 in
  ((success, updated), s3).

(** Modelled from the spec: [trySafeDecrease] of section 4.1, as above. *)
Definition tryDecrease (oldValue delta : euint64) (s : FHE.State)
    : (ebool * euint64) * FHE.State :=
  let '(success, s1) := FHE.ge oldValue delta s in
  let '(difference, s2) := FHE.sub oldValue delta s1 in
  let '(updated, s3) := FHE.select success difference oldValue s2 in
  ((success, updated), s3).

End FHESafeMath.

(** ** The custody collaborator *)

(** What the ledger sees of the confidential token behind [IERC7984]: a
    state of its own and the two transfer entry points, which may issue
    encrypted operations and grants of their own but have no way back into
    the ledger's storage.  The first address is [msg.sender] of the call
    (the ledger).  [None] is a revert. *)
Record Custody := MkCustody {
  cstate : Type;
  confidentialTransferFrom :
    address → address → address → euint64 → cstate → FHE.State →
    option (euint64 * cstate * FHE.State);
  confidentialTransfer :
    address → address → euint64 → cstate → FHE.State →
    option (euint64 * cstate * FHE.State)
}.

(** ** The staking contract *)

Inductive Event :=
| Staked (staker : address) (amount balanceAfter : euint64)
| Unstaked (staker : address) (amount balanceAfter : euint64).

Inductive Error :=
| InvalidTokenAddress
| UnauthorizedEncryptedAmount (caller : address)
| InputRejected
| CustodyReverted.

Section METHStaking.

Context (C : Custody).
(** [address(this)] *)
Variable this : address.

(** Contract storage, the emitted events (most recent first), and the two
    environments the contract acts on. *)
Record World := MkWorld {
  methToken : address;
  _stakedBalances : gmap address euint64;
  _totalStaked : euint64;
  emitted : list Event;
  fhe : FHE.State;
  custody : cstate C
}.

Definition setBalance (staker : address) (v : euint64) (w : World) : World :=
  MkWorld (methToken w) (<[staker := v]> (_stakedBalances w)) (_totalStaked w)
    (emitted w) (fhe w) (custody w).

Definition setTotal (v : euint64) (w : World) : World :=
  MkWorld (methToken w) (_stakedBalances w) v (emitted w) (fhe w) (custody w).

Definition addEvent (e : Event) (w : World) : World :=
  MkWorld (methToken w) (_stakedBalances w) (_totalStaked w)
    (e :: emitted w) (fhe w) (custody w).

Definition setFhe (s : FHE.State) (w : World) : World :=
  MkWorld (methToken w) (_stakedBalances w) (_totalStaked w) (emitted w) s (custody w).

Definition setCustody (c : cstate C) (w : World) : World :=
  MkWorld (methToken w) (_stakedBalances w) (_totalStaked w) (emitted w) (fhe w) c.

(** A call either returns, or reverts with the state reached when it
    gave up (what the host then throws away). *)
Inductive Result (A : Type) :=
| Ok (a : A) (w : World)
| Revert (e : Error) (w : World).
Arguments Ok {A} a w.
Arguments Revert {A} e w.

Definition M (A : Type) : Type := World → Result A.

#[export] Instance M_ret : MRet M := λ A a w, Ok a w.
#[export] Instance M_bind : MBind M := λ A B k m w,
  match m w with
  | Ok a w' => k a w'
  | Revert e w' => Revert e w'
  end.

Definition revert {A} (e : Error) : M A := λ w, Revert e w.
Definition read {A} (f : World → A) : M A := λ w, Ok (f w) w.
Definition write (f : World → World) : M unit := λ w, Ok tt (f w).
Definition emit (e : Event) : M unit := write (addEvent e).

(** A call into the primitive. *)
Definition prim {A} (op : FHE.State → A * FHE.State) : M A := λ w,
  let '(a, s) := op (fhe w) in Ok a (setFhe s w).

(** A call into the token. *)
Definition external (f : cstate C → FHE.State → option (euint64 * cstate C * FHE.State))
    : M euint64 := λ w,
  match f (custody w) (fhe w) with
  | Some (v, c, s) => Ok v (setCustody c (setFhe s w))
  | None => Revert CustodyReverted w
  end.

(** [constructor(address tokenAddress)], deployed into the given
    environments. *)
Definition constructor (tokenAddress : address) (s : FHE.State) (c : cstate C)
    : Error + World :=
  if (tokenAddress =? 0)%N then inl InvalidTokenAddress
  else inr (MkWorld tokenAddress ∅ FHE.uninitialized [] s c).

Definition token (w : World) : address := methToken w.

Definition stakedBalanceOf (w : World) (account : address) : euint64 :=
  default FHE.uninitialized (_stakedBalances w !! account).

Definition confidentialTotalStaked (w : World) : euint64 := _totalStaked w.

Definition _increaseTotal (amount : euint64) (actor : address) : M unit :=
  total ← read _totalStaked;
  '(_, updatedTotal) ← prim (FHESafeMath.tryIncrease total amount);
  prim (FHE.allow updatedTotal this);;
  (if negb (actor =? 0)%N then prim (FHE.allow updatedTotal actor) else mret tt);;
  write (setTotal updatedTotal).

Definition _decreaseTotal (amount : euint64) (actor : address) : M unit :=
  total ← read _totalStaked;
  '(_, updatedTotal) ← prim (FHESafeMath.tryDecrease total amount);
  prim (FHE.allow updatedTotal this);;
  (if negb (actor =? 0)%N then prim (FHE.allow updatedTotal actor) else mret tt);;
  write (setTotal updatedTotal).

Definition _applyIncrease (staker : address) (amount : euint64) : M euint64 :=
  if negb (FHE.isInitialized amount) then mret amount
  else
    currentStake ← read (λ w, stakedBalanceOf w staker);
    '(_, updatedStake) ← prim (FHESafeMath.tryIncrease currentStake amount);
    prim (FHE.allow updatedStake this);;
    prim (FHE.allow updatedStake staker);;
    write (setBalance staker updatedStake);;
    _increaseTotal amount staker;;
    emit (Staked staker amount updatedStake);;
    mret amount.

Definition _stake (staker : address) (amount : euint64) : M euint64 :=
  tokenAddress ← read methToken;
  (if FHE.isInitialized amount then prim (FHE.allowTransient amount tokenAddress)
   else mret tt);;
  transferred ← external (confidentialTransferFrom C this staker this amount);
  _applyIncrease staker transferred.

Definition _unstake (staker : address) (amount : euint64) : M euint64 :=
  currentStake ← read (λ w, stakedBalanceOf w staker);
  '(canDecrease, updatedStake) ← prim (FHESafeMath.tryDecrease currentStake amount);
  zero ← prim (FHE.asEuint64 0);
  appliedAmount ← prim (FHE.select canDecrease amount zero);
  prim (FHE.allow updatedStake this);;
  prim (FHE.allow updatedStake staker);;
  write (setBalance staker updatedStake);;
  _decreaseTotal appliedAmount staker;;
  tokenAddress ← read methToken;
  (if FHE.isInitialized appliedAmount
   then prim (FHE.allowTransient appliedAmount tokenAddress)
   else mret tt);;
  transferred ← external (confidentialTransfer C this staker appliedAmount);
  emit (Unstaked staker transferred updatedStake);;
  mret transferred.

(** [FHE.fromExternal], which reverts on a rejected proof. *)
Definition fromExternal (encryptedAmount : FHE.externalEuint64)
    (proof : FHE.inputProof) : M euint64 := λ w,
  match FHE.fromExternal encryptedAmount proof (fhe w) with
  | Some (v, s) => Ok v (setFhe s w)
  | None => Revert InputRejected w
  end.

(** The four external entry points; [sender] is [msg.sender]. *)
Definition stake_external (sender : address)
    (encryptedAmount : FHE.externalEuint64) (proof : FHE.inputProof) : M euint64 :=
  amount ← fromExternal encryptedAmount proof;
  _stake sender amount.

Definition stake (sender : address) (amount : euint64) : M euint64 :=
  allowed ← read (λ w, FHE.isAllowed amount sender (fhe w));
  if negb allowed then revert (UnauthorizedEncryptedAmount sender)
  else _stake sender amount.

Definition unstake_external (sender : address)
    (encryptedAmount : FHE.externalEuint64) (proof : FHE.inputProof) : M euint64 :=
  amount ← fromExternal encryptedAmount proof;
  _unstake sender amount.

Definition unstake (sender : address) (amount : euint64) : M euint64 :=
  allowed ← read (λ w, FHE.isAllowed amount sender (fhe w));
  if negb allowed then revert (UnauthorizedEncryptedAmount sender)
  else _unstake sender amount.

(** *** Transactions *)

Inductive Call :=
| StakeExternal (sender : address) (encryptedAmount : FHE.externalEuint64)
    (proof : FHE.inputProof)
| Stake (sender : address) (amount : euint64)
| UnstakeExternal (sender : address) (encryptedAmount : FHE.externalEuint64)
    (proof : FHE.inputProof)
| Unstake (sender : address) (amount : euint64).

Definition dispatch (c : Call) : M euint64 :=
  match c with
  | StakeExternal sender encryptedAmount proof => stake_external sender encryptedAmount proof
  | Stake sender amount => stake sender amount
  | UnstakeExternal sender encryptedAmount proof =>
      unstake_external sender encryptedAmount proof
  | Unstake sender amount => unstake sender amount
  end.

(** The host commits a call that returns and rolls back one that
    reverts. *)
Definition transact (w : World) (c : Call) : World :=
  match dispatch c w with
  | Ok _ w' => setFhe (FHE.endTransaction (fhe w')) w'
  | Revert _ _ => w
  end.

Definition execute (calls : list Call) (w : World) : World :=
  fold_left transact calls w.

End METHStaking.

Arguments Ok {C A} a w.
Arguments Revert {C A} e w.

Arguments methToken {C} w.
Arguments _stakedBalances {C} w.
Arguments _totalStaked {C} w.
Arguments emitted {C} w.
Arguments fhe {C} w.
Arguments custody {C} w.

(** ** Stand-ins for the token *)

(** A scripted custodian for unit scenarios: each transfer request is
    answered by the next entry of the script ([None], or an exhausted
    script, is a revert).  It performs no encrypted operation of its own. *)
Definition scripted : Custody :=
  MkCustody (list (option euint64))
    (λ _ _ _ _ script s,
       match script with
       | Some v :: rest => Some (v, rest, s)
       | _ => None
       end)
    (λ _ _ _ script s,
       match script with
       | Some v :: rest => Some (v, rest, s)
       | _ => None
       end).

Module ERC7984.

(** Modelled from the spec: the custody collaborator of section 4.4, for
    which the sources only have [ERC7984ETH.mintFree] (its base contract is
    a dependency): a confidential token ledger that enforces sender balance
    sufficiency (a transfer of more than the sender holds moves zero) and
    its own access control (operators), with encrypted balances moved by the
    same safe arithmetic. *)
Record State := MkToken {
  _balances : gmap address euint64;
  _totalSupply : euint64;
  _operators : gset (address * address)
}.

Definition initial : State := MkToken ∅ FHE.uninitialized ∅.

Definition confidentialBalanceOf (t : State) (account : address) : euint64 :=
  default FHE.uninitialized (_balances t !! account).

Definition setOperator (holder operator : address) (t : State) : State :=
  MkToken (_balances t) (_totalSupply t) ({[ (holder, operator) ]} ∪ _operators t).

Definition isOperator (holder spender : address) (t : State) : bool :=
  (holder =? spender)%N || bool_decide ((holder, spender) ∈ _operators t).

Section Token.
(** [address(this)] of the token *)
Variable self : address.

Definition credit (to : address) (transferred : euint64) (t : State) (s : FHE.State)
    : State * FHE.State :=
  let '(ptr, s1) := FHE.add (confidentialBalanceOf t to) transferred s in
  let '(_, s2) := FHE.allow ptr self s1 in
  let '(_, s3) := FHE.allow ptr to s2 in
  (MkToken (<[to := ptr]> (_balances t)) (_totalSupply t) (_operators t), s3).

Definition _mint (to : address) (amount : euint64) (t : State) (s : FHE.State)
    : euint64 * State * FHE.State :=
  let '((success, ptr), s1) := FHESafeMath.tryIncrease (_totalSupply t) amount s in
  let '(_, s2) := FHE.allow ptr self s1 in
  let t1 := MkToken (_balances t) ptr (_operators t) in
  let '(zero, s3) := FHE.asEuint64 0 s2 in
  let '(transferred, s4) := FHE.select success amount zero s3 in
  let '(t2, s5) := credit to transferred t1 s4 in
  let '(_, s6) := FHE.allow transferred to s5 in
  let '(_, s7) := FHE.allow transferred self s6 in
  (transferred, t2, s7).

Definition _transfer (from to : address) (amount : euint64) (t : State) (s : FHE.State)
    : option (euint64 * State * FHE.State) :=
  let fromBalance := confidentialBalanceOf t from in
  if negb (FHE.isInitialized fromBalance) then None
  else
    let '((success, ptr), s1) := FHESafeMath.tryDecrease fromBalance amount s in
    let '(_, s2) := FHE.allow ptr self s1 in
    let '(_, s3) := FHE.allow ptr from s2 in
    let t1 := MkToken (<[from := ptr]> (_balances t)) (_totalSupply t) (_operators t) in
    let '(zero, s4) := FHE.asEuint64 0 s3 in
    let '(transferred, s5) := FHE.select success amount zero s4 in
    let '(t2, s6) := credit to transferred t1 s5 in
    let '(_, s7) := FHE.allow transferred from s6 in
    let '(_, s8) := FHE.allow transferred to s7 in
    let '(_, s9) := FHE.allow transferred self s8 in
    Some (transferred, t2, s9).

Definition transfer (sender to : address) (amount : euint64) (t : State) (s : FHE.State)
    : option (euint64 * State * FHE.State) :=
  _transfer sender to amount t s.

Definition transferFrom (sender from to : address) (amount : euint64)
    (t : State) (s : FHE.State) : option (euint64 * State * FHE.State) :=
  if negb (isOperator from sender t) then None
  else
    match _transfer from to amount t s with
    | Some (transferred, t', s') =>
        Some (transferred, t', snd (FHE.allowTransient transferred sender s'))
    | None => None
    end.

(** [ERC7984ETH.mintFree] *)
Definition mintFree (sender : address) (t : State) (s : FHE.State)
    : State * FHE.State :=
  let '(encryptedAmount, s1) := FHE.asEuint64 (1 * 1000000) s in
  let '(_, t', s') := _mint sender encryptedAmount t s1 in
  (t', s').

Definition asCustody : Custody := MkCustody State transferFrom transfer.

End Token.
End ERC7984.

(** ** Vocabulary of the statements *)

Definition sender (c : Call) : address :=
  match c with
  | StakeExternal a _ _ | Stake a _ | UnstakeExternal a _ _ | Unstake a _ => a
  end.

Definition isStake (c : Call) : bool :=
  match c with
  | StakeExternal _ _ _ | Stake _ _ => true
  | UnstakeExternal _ _ _ | Unstake _ _ => false
  end.

(** The accounts that called [stake] in a sequence of calls. *)
Definition stakers (calls : list Call) : gset address :=
  list_to_set (sender <$> filter (λ c, isStake c = true) calls).

Definition sumList (f : address → Z) (l : list address) : Z :=
  foldr (λ a acc, f a + acc) 0 l.

Definition sumOver (f : address → Z) (accounts : gset address) : Z :=
  sumList f (elements accounts).

(** The arithmetic the ledger is meant to perform, on cleartexts: a credit
    that would leave the 64-bit range and a debit that would go below zero
    leave the value as it was. *)
Definition credited (balance delta : Z) : Z :=
  if balance + delta <=? MAX_UINT64 then balance + delta else balance.

Definition debited (balance delta : Z) : Z :=
  if delta <=? balance then balance - delta else balance.

Definition appliable (balance amount : Z) : Z :=
  if amount <=? balance then amount else 0.

Inductive EventShape :=
| StakedShape (staker : address) (amount balanceAfter : handle)
| UnstakedShape (staker : address) (amount balanceAfter : handle).

(** An event as it appears on chain: ciphertext handles only. *)
Definition shapeOf (e : Event) : EventShape :=
  match e with
  | Staked staker amount balanceAfter =>
      StakedShape staker (handleOf amount) (handleOf balanceAfter)
  | Unstaked staker amount balanceAfter =>
      UnstakedShape staker (handleOf amount) (handleOf balanceAfter)
  end.

Definition sameHandle (v1 v2 : euint64) : Prop := handleOf v1 = handleOf v2.

(** Two calls that look alike on chain: same entry point, same caller, and
    either the same handle or external ciphertexts that are both accepted
    or both rejected. *)
Definition sameCall (c1 c2 : Call) : Prop :=
  match c1, c2 with
  | StakeExternal a1 _ p1, StakeExternal a2 _ p2 => a1 = a2 ∧ p1 = p2
  | Stake a1 v1, Stake a2 v2 => a1 = a2 ∧ sameHandle v1 v2
  | UnstakeExternal a1 _ p1, UnstakeExternal a2 _ p2 => a1 = a2 ∧ p1 = p2
  | Unstake a1 v1, Unstake a2 v2 => a1 = a2 ∧ sameHandle v1 v2
  | _, _ => False
  end.

(** Two states of the stand-in token that look alike on chain. *)
Definition sameToken (t1 t2 : ERC7984.State) : Prop :=
  handleOf <$> ERC7984._balances t1 = handleOf <$> ERC7984._balances t2 ∧
  handleOf (ERC7984._totalSupply t1) = handleOf (ERC7984._totalSupply t2) ∧
  ERC7984._operators t1 = ERC7984._operators t2.

Definition amountOf (e : Event) : euint64 :=
  match e with Staked _ amount _ | Unstaked _ amount _ => amount end.

Section Vocabulary.

Context (C : Custody).
Variable this : address.

(** The FHE state in which the token is asked to pull [amount]. *)
Definition requested (amount : euint64) (w : World C) : FHE.State :=
  if FHE.isInitialized amount
  then snd (FHE.allowTransient amount (methToken w) (fhe w))
  else fhe w.

(** Decrypted views of the two queries. *)
Definition staked (w : World C) (account : address) : Z :=
  decrypt (stakedBalanceOf C w account).

Definition totalStaked (w : World C) : Z :=
  decrypt (confidentialTotalStaked C w).

(** The ledger after the first [n] calls of a sequence. *)
Definition after (calls : list Call) (n : nat) (w : World C) : World C :=
  execute C this (take n calls) w.

(** The aggregate equals the sum of the balances of the given accounts. *)
Definition conserved (w : World C) (accounts : gset address) : Prop :=
  totalStaked w = sumOver (staked w) accounts.

(** A permanent grant on a value. *)
Definition granted (w : World C) (v : euint64) (account : address) : Prop :=
  (handleOf v, account) ∈ FHE.persistent (fhe w).

(** The grants on what a call by [actor] stored: the ledger and the actor
    on the actor's balance and on the total. *)
Definition grantedToBoth (w : World C) (actor : address) : Prop :=
  granted w (stakedBalanceOf C w actor) this ∧
  granted w (stakedBalanceOf C w actor) actor ∧
  granted w (_totalStaked w) this ∧
  granted w (_totalStaked w) actor.

(** Two ledgers that an observer without decryption rights cannot tell
    apart: same handles everywhere, same operation log, same grants. *)
Definition sameShape (R : cstate C → cstate C → Prop) (w1 w2 : World C) : Prop :=
  methToken w1 = methToken w2 ∧
  handleOf <$> _stakedBalances w1 = handleOf <$> _stakedBalances w2 ∧
  handleOf (_totalStaked w1) = handleOf (_totalStaked w2) ∧
  shapeOf <$> emitted w1 = shapeOf <$> emitted w2 ∧
  fhe w1 = fhe w2 ∧
  R (custody w1) (custody w2).

(** Two outcomes that look alike: both return or both revert with the
    same error, in ledgers of the same shape, the returned values being
    related by [RA]. *)
Definition alike {A : Type} (R : cstate C → cstate C → Prop) (RA : A → A → Prop)
    (r1 r2 : Result C A) : Prop :=
  match r1, r2 with
  | Ok v1 w1, Ok v2 w2 => RA v1 v2 ∧ sameShape R w1 w2
  | Revert e1 w1, Revert e2 w2 => e1 = e2 ∧ sameShape R w1 w2
  | _, _ => False
  end.

Definition sameOutcome (R : cstate C → cstate C → Prop)
    (r1 r2 : Result C euint64) : Prop :=
  alike R sameHandle r1 r2.

(** The operations a call issued to the coprocessor, whether it returned
    or reverted. *)
Definition issued {A : Type} (r : Result C A) : list FHE.Op :=
  match r with
  | Ok _ w | Revert _ w => FHE.trace (fhe w)
  end.

(** Two computations that cannot be told apart from ledgers of the same
    shape. *)
Definition indistinguishable {A : Type} (R : cstate C → cstate C → Prop)
    (RA : A → A → Prop) (m1 m2 : M C A) : Prop :=
  ∀ w1 w2, sameShape R w1 w2 → alike R RA (m1 w1) (m2 w2).

Definition sameAnswer (R : cstate C → cstate C → Prop)
    (a1 a2 : option (euint64 * cstate C * FHE.State)) : Prop :=
  match a1, a2 with
  | Some (v1, c1, s1), Some (v2, c2, s2) => sameHandle v1 v2 ∧ R c1 c2 ∧ s1 = s2
  | None, None => True
  | _, _ => False
  end.

(** Assumptions a statement may make on the token. *)

(** The token does not branch on payloads either. *)
Definition oblivious (R : cstate C → cstate C → Prop) : Prop :=
  ∀ caller from to v1 v2 c1 c2 s,
    sameHandle v1 v2 → R c1 c2 →
    sameAnswer R (confidentialTransferFrom C caller from to v1 c1 s)
                 (confidentialTransferFrom C caller from to v2 c2 s) ∧
    sameAnswer R (confidentialTransfer C caller to v1 c1 s)
                 (confidentialTransfer C caller to v2 c2 s).

(** The token never revokes a grant. *)
Definition additive : Prop :=
  ∀ caller from to amount c s v c' s',
    (confidentialTransferFrom C caller from to amount c s = Some (v, c', s') →
     FHE.persistent s ⊆ FHE.persistent s') ∧
    (confidentialTransfer C caller to amount c s = Some (v, c', s') →
     FHE.persistent s ⊆ FHE.persistent s').

(** Asked to hand over an encrypted zero, the token moves nothing. *)
Definition idleOnZero (balanceOf : cstate C → address → Z) : Prop :=
  ∀ caller to amount c s v c' s',
    decrypt amount = 0 →
    confidentialTransfer C caller to amount c s = Some (v, c', s') →
    decrypt v = 0 ∧ ∀ a, balanceOf c' a = balanceOf c a.

End Vocabulary.

Arguments requested {C} amount w.
Arguments staked {C} w account.
Arguments totalStaked {C} w.
Arguments conserved {C} w accounts.
Arguments granted {C} w v account.
Arguments issued {C A} r.
Arguments grantedToBoth {C} this w actor.

(** ** Scenarios *)

Module Scenario.

Definition token : address := 100%N.
Definition ledger : address := 200%N.
Definition alice : address := 1%N.
Definition bob : address := 2%N.

(** A ledger deployed against a scripted custodian. *)
Definition deployed (script : list (option euint64)) : World scripted :=
  MkWorld scripted token ∅ FHE.uninitialized [] FHE.initial script.

(** A call with an accepted external ciphertext of [value]. *)
Definition stakes (who : address) (value : Z) : Call :=
  StakeExternal who (FHE.External value) (FHE.Proof true).

Definition unstakes (who : address) (value : Z) : Call :=
  UnstakeExternal who (FHE.External value) (FHE.Proof true).

(** What the custodian reports as moved.  The handle is arbitrary but
    initialized. *)
Definition moved (value : Z) : option euint64 := Some (Cipher 1000%N value).

(** Amounts at the edge of the 64-bit range: alice and bob each stake
    [2 ^ 63], bob unstakes it again, and alice stakes [2 ^ 63] once more. *)
Definition half : Z := 2 ^ 63.

Definition edgeCalls : list Call :=
  [stakes alice half; stakes bob half; unstakes bob half; stakes alice half].

Definition edgeLedger : World scripted :=
  deployed [moved half; moved half; moved half; moved half].

(** The deployed token after alice minted once and made the ledger her
    operator, and the ledger deployed against it (the set-up of the test
    suite). *)
Definition funded : ERC7984.State * FHE.State :=
  let '(t, s) := ERC7984.mintFree token alice ERC7984.initial FHE.initial in
  (ERC7984.setOperator alice ledger t, s).

Definition live : World (ERC7984.asCustody token) :=
  MkWorld (ERC7984.asCustody token) token ∅ FHE.uninitialized [] (snd funded) (fst funded).

(** The same with bob funded as well. *)
Definition fundedBoth : ERC7984.State * FHE.State :=
  let '(t, s) := funded in
  let '(t', s') := ERC7984.mintFree token bob t s in
  (ERC7984.setOperator bob ledger t', s').

Definition liveBoth : World (ERC7984.asCustody token) :=
  MkWorld (ERC7984.asCustody token) token ∅ FHE.uninitialized []
    (snd fundedBoth) (fst fundedBoth).

Definition custodyOf (w : World (ERC7984.asCustody token)) (account : address) : Z :=
  decrypt (ERC7984.confidentialBalanceOf (custody w) account).

End Scenario.

From Stdlib Require Strings.String Strings.Ascii.

(** ** Further vocabulary of the statements *)

(** The permanent grants a call by [staker] issues itself: the ledger and
    the staker on the new balance, the ledger on the new total, and the
    staker on the new total unless the staker is the zero address. *)
Definition ownGrants (this staker : address) (balance total : euint64)
    : gset (handle * address) :=
  {[ (handleOf balance, this); (handleOf balance, staker); (handleOf total, this) ]}
  ∪ (if (staker =? 0)%N then ∅ else {[ (handleOf total, staker) ]}).

Definition stakerOf (e : Event) : address :=
  match e with Staked staker _ _ | Unstaked staker _ _ => staker end.

Definition balanceAfterOf (e : Event) : euint64 :=
  match e with Staked _ _ balanceAfter | Unstaked _ _ balanceAfter => balanceAfter end.

Definition isStaked (e : Event) : bool :=
  match e with Staked _ _ _ => true | Unstaked _ _ _ => false end.

(** Further scenarios, on the deployed token. *)
Module Cases.

Definition mETH : Custody := ERC7984.asCustody Scenario.token.

(** Alice staked 750000 of her 1000000. *)
Definition aliceStaked : World mETH :=
  after mETH Scenario.ledger [Scenario.stakes Scenario.alice 750000] 1 Scenario.live.

(** Bob staked 350000 of his 1000000, alice nothing yet. *)
Definition bobStaked : World mETH :=
  after mETH Scenario.ledger [Scenario.stakes Scenario.bob 350000] 1 Scenario.liveBoth.

(** The state a call ended in, whether it returned or reverted. *)
Definition outcome {C : Custody} {A : Type} (r : Result C A) : World C :=
  match r with Ok _ w | Revert _ w => w end.

(** A fresh ledger whose scripted custodian will move 10 in and 10 out,
    and the ledger after alice staked 10. *)
Definition empty : World scripted :=
  Scenario.deployed [Scenario.moved 10; Scenario.moved 10].

Definition aliceStakedTen : World scripted :=
  outcome (_stake scripted Scenario.ledger Scenario.alice (Cipher 5%N 10) empty).

(** A fresh ledger in which only alice holds a grant on the handle 7. *)
Definition aliceHolds : World scripted :=
  MkWorld scripted Scenario.token ∅ FHE.uninitialized []
    (snd (FHE.allow (Cipher 7%N 5) Scenario.alice FHE.initial)) [Scenario.moved 5].

End Cases.

(** ** The amount field of the staking page *)

(** [formatMicroValue] and [parseAmountToMicro] of the page component
    ([StakingApp]), which turn the decrypted balances into the text shown
    and the text typed into the amount a call stakes or unstakes, in
    millionths of a token. *)

Module StakingApp.

Import Stdlib.Strings.String Stdlib.Strings.Ascii.

(** A JavaScript string: its sequence of UTF-16 code units. *)
Definition jsString : Type := list N.

(** A string literal of the source. *)
Definition lit (s : string) : jsString := N_of_ascii <$> list_ascii_of_string s.

(** [\d] under the [u] flag: the ten ASCII digits. *)
Definition isDigit (c : N) : bool := ((48 <=? c) && (c <=? 57))%N.

(** The code points [String.prototype.trim] strips: ECMAScript's
    WhiteSpace (tab, vertical tab, form feed, the byte order mark and the
    space separators) and LineTerminator. *)
Definition isWhiteSpace (c : N) : bool :=
  bool_decide (c ∈ [9; 10; 11; 12; 13; 32; 160; 5760; 8232; 8233; 8239; 8287; 12288;
                    65279]%N)
  || ((8192 <=? c) && (c <=? 8202))%N.

Fixpoint dropWhile (p : N → bool) (s : jsString) : jsString :=
  match s with
  | c :: rest => if p c then dropWhile p rest else s
  | [] => []
  end.

Definition dropWhileEnd (p : N → bool) (s : jsString) : jsString :=
  rev (dropWhile p (rev s)).

(** [String.prototype.trim] *)
Definition trim (s : jsString) : jsString :=
  dropWhileEnd isWhiteSpace (dropWhile isWhiteSpace s).

(** [s.split(separator)] for a separator of one code unit. *)
Fixpoint split (separator : N) (s : jsString) : list jsString :=
  match s with
  | [] => [[]]
  | c :: rest =>
      if (c =? separator)%N then [] :: split separator rest
      else match split separator rest with
           | first :: others => (c :: first) :: others
           | [] => [[c]]
           end
  end.

(** [s.padStart(targetLength, filler)] for a filler of one code unit. *)
Definition padStart (targetLength : nat) (filler : N) (s : jsString) : jsString :=
  replicate (targetLength - List.length s) filler ++ s.

(** The decimal digits of a natural number, most significant first.
    The fuel is the number of binary digits, which is enough. *)
Fixpoint digitsFrom (fuel : nat) (n : N) : jsString :=
  match fuel with
  | O => []
  | S fuel' =>
      if (n <? 10)%N then [48 + n]%N
      else digitsFrom fuel' (n / 10)%N ++ [48 + n mod 10]%N
  end.

Definition digitsOf (n : N) : jsString := digitsFrom (S (N.to_nat (N.log2 n))) n.

(** [BigInt.prototype.toString()] *)
Definition toString (value : Z) : jsString :=
  if value <? 0 then lit "-" ++ digitsOf (Z.to_N (- value)) else digitsOf (Z.to_N value).

(** The value of a digit in the given radix. *)
Definition digitValue (radix c : N) : option N :=
  let value :=
    if isDigit c then Some (c - 48)%N
    else if ((97 <=? c) && (c <=? 122))%N then Some (c - 87)%N
    else if ((65 <=? c) && (c <=? 90))%N then Some (c - 55)%N
    else None in
  match value with
  | Some d => if (d <? radix)%N then Some d else None
  | None => None
  end.

Fixpoint numeral (radix acc : N) (s : jsString) : option N :=
  match s with
  | [] => Some acc
  | c :: rest =>
      match digitValue radix c with
      | Some d => numeral radix (radix * acc + d)%N rest
      | None => None
      end
  end.

(** One or more digits of the given radix. *)
Definition digits (radix : N) (s : jsString) : option N :=
  match s with
  | [] => None
  | _ => numeral radix 0 s
  end.

(** [BigInt(s)] for a string: ECMAScript's StringToBigInt.  White space
    around the literal is ignored, the empty literal is zero, a decimal
    literal may carry a sign, and [0x], [0o] and [0b] announce the other
    radices.  [None] is the SyntaxError it throws otherwise. *)
Definition BigInt (s : jsString) : option Z :=
  match trim s with
  | [] => Some 0
  | c :: rest =>
      if (c =? 43)%N then Z.of_N <$> digits 10 rest
      else if (c =? 45)%N then (λ n, - Z.of_N n) <$> digits 10 rest
      else
        match rest with
        | x :: literal =>
            if (c =? 48)%N && ((x =? 120) || (x =? 88))%N then Z.of_N <$> digits 16 literal
            else if (c =? 48)%N && ((x =? 111) || (x =? 79))%N then Z.of_N <$> digits 8 literal
            else if (c =? 48)%N && ((x =? 98) || (x =? 66))%N then Z.of_N <$> digits 2 literal
            else Z.of_N <$> digits 10 (c :: rest)
        | [] => Z.of_N <$> digits 10 (c :: rest)
        end
  end.

Definition MICRO_FACTOR : Z := 1000000.

(** [/^\d*(\.\d{0,18})?$/u.test(value)]: digits, then nothing or a dot and
    at most eighteen digits. *)
Definition amountPattern (value : jsString) : bool :=
  match dropWhile isDigit value with
  | [] => true
  | c :: fraction =>
      (c =? 46)%N && forallb isDigit fraction && (List.length fraction <=? 18)%nat
  end.

Definition formatMicroValue (value : Z) : jsString :=
  let absolute := if value <? 0 then - value else value in
  let integer := Z.quot absolute MICRO_FACTOR in
  let fractional := Z.rem absolute MICRO_FACTOR in
  let fractionString :=
    dropWhileEnd (λ c, (c =? 48)%N) (padStart 6 48%N (toString fractional)) in
  let formattedFraction :=
    if (0 <? List.length fractionString)%nat then lit "." ++ fractionString else lit "" in
  let prefix := if value <? 0 then lit "-" else lit "" in
  prefix ++ toString integer ++ formattedFraction.

(** [None] is [null].  The last [None] is the [catch] around the two
    [BigInt] conversions; [split] never returns an empty array, on which
    [integerPart] would be undefined and [BigInt] would throw as well. *)
Definition parseAmountToMicro (rawValue : jsString) : option Z :=
  let value := trim rawValue in
  match value with
  | [] => None
  | _ =>
      if negb (amountPattern value) then None
      else
        match split 46%N value with
        | integerPart :: others =>
            let fractionPart := match others with f :: _ => f | [] => lit "" end in
            let sanitizedInteger :=
              match integerPart with [] => lit "0" | _ => integerPart end in
            let sanitizedFraction := take 6 (fractionPart ++ lit "000000") in
            match BigInt sanitizedInteger, BigInt sanitizedFraction with
            | Some integer, Some fraction => Some (integer * MICRO_FACTOR + fraction)
            | _, _ => None
            end
        | [] => None
        end
  end.

(** Vocabulary of the statements: a string of ASCII digits, the number it
    writes in decimal (zero for the empty string), and a string of white
    space. *)
Definition digitString (s : jsString) : Prop := forallb isDigit s = true.

Definition decimal (s : jsString) : N :=
  fold_left (λ acc c, 10 * acc + (c - 48))%N s 0%N.

Definition blank (s : jsString) : Prop := forallb isWhiteSpace s = true.

End StakingApp.

(** * Properties *)

(** ** The primitive and the safe arithmetic *)

Lemma decrypt_range (v : euint64) : 0 ≤ decrypt v ≤ MAX_UINT64.
Proof.
  unfold decrypt, MAX_UINT64. destruct (FHE.isInitialized v); [|lia].
  pose proof (Z.mod_pos_bound (payload v) (2 ^ 64)). lia.
Qed.

Lemma fresh_initialized (s : FHE.State) (x : Z) :
  FHE.isInitialized (Cipher (FHE.fresh s) x) = true.
Proof.
  unfold FHE.isInitialized, FHE.fresh. simpl.
  destruct (N.eqb_spec (N.succ (FHE.counter s)) 0) as [E|]; [|done].
  by destruct (N.neq_succ_0 _ E).
Qed.

Lemma decrypt_fresh (s : FHE.State) (x : Z) :
  decrypt (Cipher (FHE.fresh s) x) = x mod 2 ^ 64.
Proof. unfold decrypt. by rewrite fresh_initialized. Qed.

Lemma decrypt_mod (v : euint64) : decrypt v mod 2 ^ 64 = decrypt v.
Proof. apply Z.mod_small. pose proof (decrypt_range v). unfold MAX_UINT64 in *. lia. Qed.

Lemma decrypt_uninitialized (v : euint64) :
  FHE.isInitialized v = false → decrypt v = 0.
Proof. unfold decrypt. by intros ->. Qed.

(** What [tryIncrease] returns and what it leaves behind. *)
Lemma tryIncrease_spec (oldValue delta : euint64) (s : FHE.State) :
  ∃ success updated s',
    FHESafeMath.tryIncrease oldValue delta s = ((success, updated), s') ∧
    FHE.flagPayload success = (decrypt oldValue + decrypt delta <=? MAX_UINT64) ∧
    decrypt updated =
      (if decrypt oldValue + decrypt delta <=? MAX_UINT64
       then decrypt oldValue + decrypt delta else decrypt oldValue) ∧
    FHE.isInitialized updated = true ∧
    FHE.persistent s' = FHE.persistent s ∧
    FHE.transient s' = FHE.transient s.
Proof.
  unfold FHESafeMath.tryIncrease, FHE.add, FHE.ge, FHE.select. simpl.
  eexists _, _, _. split; [reflexivity|]. simpl.
  pose proof (decrypt_range oldValue) as Ho. pose proof (decrypt_range delta) as Hd.
  unfold MAX_UINT64 in *.
  rewrite !fresh_initialized, !decrypt_fresh, Zmod_mod.
  assert (Hflag : (decrypt oldValue <=? (decrypt oldValue + decrypt delta) mod 2 ^ 64)
                  = (decrypt oldValue + decrypt delta <=? 2 ^ 64 - 1)).
  { destruct (Z.leb_spec (decrypt oldValue + decrypt delta) (2 ^ 64 - 1)) as [Hle|Hgt].
    - rewrite Z.mod_small by lia. apply Z.leb_le. lia.
    - apply Z.leb_gt.
      replace ((decrypt oldValue + decrypt delta) mod 2 ^ 64)
        with (decrypt oldValue + decrypt delta - 2 ^ 64); [lia|].
      apply Z.mod_unique with (q := 1); lia. }
  rewrite Hflag. repeat split; try done.
  destruct (Z.leb_spec (decrypt oldValue + decrypt delta) (2 ^ 64 - 1)).
  - rewrite Zmod_mod. apply Z.mod_small. lia.
  - apply decrypt_mod.
Qed.

(** What [tryDecrease] returns and what it leaves behind. *)
Lemma tryDecrease_spec (oldValue delta : euint64) (s : FHE.State) :
  ∃ success updated s',
    FHESafeMath.tryDecrease oldValue delta s = ((success, updated), s') ∧
    FHE.flagPayload success = (decrypt delta <=? decrypt oldValue) ∧
    decrypt updated =
      (if decrypt delta <=? decrypt oldValue
       then decrypt oldValue - decrypt delta else decrypt oldValue) ∧
    FHE.isInitialized updated = true ∧
    FHE.persistent s' = FHE.persistent s ∧
    FHE.transient s' = FHE.transient s.
Proof.
  unfold FHESafeMath.tryDecrease, FHE.ge, FHE.sub, FHE.select. simpl.
  eexists _, _, _. split; [reflexivity|]. simpl.
  pose proof (decrypt_range oldValue) as Ho. pose proof (decrypt_range delta) as Hd.
  unfold MAX_UINT64 in *.
  rewrite !fresh_initialized, !decrypt_fresh. repeat split; try done.
  destruct (Z.leb_spec (decrypt delta) (decrypt oldValue)).
  - rewrite !Zmod_mod. apply Z.mod_small. lia.
  - apply decrypt_mod.
Qed.

(** ** What each internal function does *)

Lemma asEuint64_spec (value : Z) (s : FHE.State) :
  ∃ v s',
    FHE.asEuint64 value s = (v, s') ∧
    decrypt v = value mod 2 ^ 64 ∧
    FHE.isInitialized v = true ∧
    FHE.persistent s' = FHE.persistent s ∧
    FHE.transient s' = FHE.transient s.
Proof.
  eexists _, _. split; [reflexivity|]. simpl.
  by rewrite fresh_initialized, decrypt_fresh, Zmod_mod.
Qed.

Lemma select_spec (control : ebool) (a b : euint64) (s : FHE.State) :
  ∃ v s',
    FHE.select control a b s = (v, s') ∧
    decrypt v = (if FHE.flagPayload control then decrypt a else decrypt b) ∧
    FHE.isInitialized v = true ∧
    FHE.persistent s' = FHE.persistent s ∧
    FHE.transient s' = FHE.transient s.
Proof.
  eexists _, _. split; [reflexivity|]. simpl.
  rewrite fresh_initialized, decrypt_fresh.
  repeat split. destruct (FHE.flagPayload control); apply decrypt_mod.
Qed.

(** Grants are only ever added. *)
Section Grants.
Context {A : Type} `{Countable A}.
Implicit Types (X Y : gset A) (x y : A).

Lemma granted_here X x : x ∈ {[ x ]} ∪ X.
Proof. set_solver. Qed.

Lemma granted_later X x y : x ∈ X → x ∈ {[ y ]} ∪ X.
Proof. set_solver. Qed.

Lemma granted_mono X Y x : X ⊆ Y → x ∈ X → x ∈ Y.
Proof. set_solver. Qed.

Lemma grants_kept X Y y : X ⊆ Y → X ⊆ {[ y ]} ∪ Y.
Proof. set_solver. Qed.

Lemma grants_kept_below X Y y : {[ y ]} ∪ X ⊆ Y → X ⊆ Y.
Proof. set_solver. Qed.
End Grants.

Create HintDb grants.
#[export] Hint Resolve granted_here granted_later grants_kept : grants.
#[export] Hint Resolve grants_kept_below : grants.

Arguments FHESafeMath.tryIncrease : simpl never.
Arguments FHESafeMath.tryDecrease : simpl never.
Arguments FHE.asEuint64 : simpl never.
Arguments FHE.select : simpl never.

Section Behaviour.

Context (C : Custody).
Variable this : address.

Abbreviation holds s v account := ((handleOf v, account) ∈ FHE.persistent s).

Ltac step_monad :=
  unfold mbind, M_bind, mret, M_ret, prim, read, write, emit, revert; cbn.

Ltac finish :=
  intros;
  first [ assumption | reflexivity | congruence
        | solve [ eauto 8 with grants ]
        | match goal with
          | Hsub : _ ⊆ ?Y |- _ ∈ ?Y => apply (granted_mono _ _ _ Hsub)
          end; solve [ eauto 8 with grants ] ].

Lemma _increaseTotal_spec (amount : euint64) (actor : address) (w : World C) :
  ∃ updatedTotal s',
    _increaseTotal C this amount actor w
    = Ok tt (MkWorld C (methToken w) (_stakedBalances w) updatedTotal
               (emitted w) s' (custody w)) ∧
    decrypt updatedTotal =
      (if decrypt (_totalStaked w) + decrypt amount <=? MAX_UINT64
       then decrypt (_totalStaked w) + decrypt amount else decrypt (_totalStaked w)) ∧
    FHE.isInitialized updatedTotal = true ∧
    holds s' updatedTotal this ∧
    (actor ≠ 0%N → holds s' updatedTotal actor) ∧
    (actor = 0%N →
       FHE.persistent s' = {[ (handleOf updatedTotal, this) ]} ∪ FHE.persistent (fhe w)) ∧
    FHE.persistent (fhe w) ⊆ FHE.persistent s' ∧
    FHE.transient s' = FHE.transient (fhe w).
Proof.
  destruct (tryIncrease_spec (_totalStaked w) amount (fhe w))
    as (ok & upd & s1 & Hrun & _ & Hval & Hinit & Hp & Ht).
  unfold _increaseTotal. step_monad. rewrite Hrun. cbn.
  destruct (N.eqb_spec actor 0) as [->|Hactor]; cbn;
    eexists _, _; (split; [reflexivity|]); cbn; try rewrite Hp; try rewrite Ht;
    repeat split; finish.
Qed.

Lemma _decreaseTotal_spec (amount : euint64) (actor : address) (w : World C) :
  ∃ updatedTotal s',
    _decreaseTotal C this amount actor w
    = Ok tt (MkWorld C (methToken w) (_stakedBalances w) updatedTotal
               (emitted w) s' (custody w)) ∧
    decrypt updatedTotal =
      (if decrypt amount <=? decrypt (_totalStaked w)
       then decrypt (_totalStaked w) - decrypt amount else decrypt (_totalStaked w)) ∧
    FHE.isInitialized updatedTotal = true ∧
    holds s' updatedTotal this ∧
    (actor ≠ 0%N → holds s' updatedTotal actor) ∧
    (actor = 0%N →
       FHE.persistent s' = {[ (handleOf updatedTotal, this) ]} ∪ FHE.persistent (fhe w)) ∧
    FHE.persistent (fhe w) ⊆ FHE.persistent s' ∧
    FHE.transient s' = FHE.transient (fhe w).
Proof.
  destruct (tryDecrease_spec (_totalStaked w) amount (fhe w))
    as (ok & upd & s1 & Hrun & _ & Hval & Hinit & Hp & Ht).
  unfold _decreaseTotal. step_monad. rewrite Hrun. cbn.
  destruct (N.eqb_spec actor 0) as [->|Hactor]; cbn;
    eexists _, _; (split; [reflexivity|]); cbn; try rewrite Hp; try rewrite Ht;
    repeat split; finish.
Qed.

#[local] Arguments _increaseTotal : simpl never.
#[local] Arguments _decreaseTotal : simpl never.

Lemma _applyIncrease_uninitialized (staker : address) (amount : euint64) (w : World C) :
  FHE.isInitialized amount = false →
  _applyIncrease C this staker amount w = Ok amount w.
Proof. intros H. unfold _applyIncrease. by rewrite H. Qed.

Lemma _applyIncrease_spec (staker : address) (amount : euint64) (w : World C) :
  FHE.isInitialized amount = true →
  ∃ updatedStake updatedTotal s',
    _applyIncrease C this staker amount w
    = Ok amount (MkWorld C (methToken w) (<[staker := updatedStake]> (_stakedBalances w))
                   updatedTotal (Staked staker amount updatedStake :: emitted w)
                   s' (custody w)) ∧
    decrypt updatedStake =
      (if decrypt (stakedBalanceOf C w staker) + decrypt amount <=? MAX_UINT64
       then decrypt (stakedBalanceOf C w staker) + decrypt amount
       else decrypt (stakedBalanceOf C w staker)) ∧
    decrypt updatedTotal =
      (if decrypt (_totalStaked w) + decrypt amount <=? MAX_UINT64
       then decrypt (_totalStaked w) + decrypt amount else decrypt (_totalStaked w)) ∧
    FHE.isInitialized updatedStake = true ∧
    FHE.isInitialized updatedTotal = true ∧
    holds s' updatedStake this ∧
    holds s' updatedStake staker ∧
    holds s' updatedTotal this ∧
    (staker ≠ 0%N → holds s' updatedTotal staker) ∧
    FHE.persistent (fhe w) ⊆ FHE.persistent s'.
Proof.
  intros Hamount.
  destruct (tryIncrease_spec (stakedBalanceOf C w staker) amount (fhe w))
    as (ok & upd & s1 & Hrun & _ & Hval & Hinit & Hp & Ht).
  unfold _applyIncrease. rewrite Hamount. step_monad. rewrite Hrun. cbn.
  match goal with
  | |- context [_increaseTotal C this ?a ?b ?w1] =>
      destruct (_increaseTotal_spec a b w1)
        as (updT & s2 & HrunT & HvalT & HinitT & Hg1 & Hg2 & _ & Hsub & _)
  end.
  rewrite HrunT. cbn in *.
  eexists _, _, _. split; [reflexivity|].
  rewrite Hp in Hsub.
  repeat split; finish.
Qed.

(** [_stake] hands the request to the token and credits what comes back. *)
Lemma _stake_spec (staker : address) (amount : euint64) (w : World C) :
  _stake C this staker amount w =
  match confidentialTransferFrom C this staker this amount (custody w) (requested amount w) with
  | Some (transferred, c', s') =>
      _applyIncrease C this staker transferred
        (MkWorld C (methToken w) (_stakedBalances w) (_totalStaked w) (emitted w) s' c')
  | None => Revert CustodyReverted (setFhe C (requested amount w) w)
  end.
Proof.
  unfold _stake, requested, external. step_monad.
  destruct (FHE.isInitialized amount); cbn;
    destruct (confidentialTransferFrom C this staker this amount _ _)
      as [[[v c'] s']|]; try done.
  by destruct w.
Qed.

(** [_unstake] settles the ledger first and then asks the token to hand
    the appliable amount back. *)
Lemma _unstake_spec (staker : address) (amount : euint64) (w : World C) :
  ∃ updatedStake appliedAmount updatedTotal s1,
    let w1 := MkWorld C (methToken w) (<[staker := updatedStake]> (_stakedBalances w))
                updatedTotal (emitted w) s1 (custody w) in
    _unstake C this staker amount w =
      match confidentialTransfer C this staker appliedAmount (custody w) s1 with
      | Some (transferred, c', s') =>
          Ok transferred
            (MkWorld C (methToken w) (<[staker := updatedStake]> (_stakedBalances w))
               updatedTotal (Unstaked staker transferred updatedStake :: emitted w) s' c')
      | None => Revert CustodyReverted w1
      end ∧
    decrypt appliedAmount =
      (if decrypt amount <=? decrypt (stakedBalanceOf C w staker)
       then decrypt amount else 0) ∧
    decrypt updatedStake = decrypt (stakedBalanceOf C w staker) - decrypt appliedAmount ∧
    decrypt updatedTotal =
      (if decrypt appliedAmount <=? decrypt (_totalStaked w)
       then decrypt (_totalStaked w) - decrypt appliedAmount else decrypt (_totalStaked w)) ∧
    FHE.isInitialized updatedStake = true ∧
    FHE.isInitialized updatedTotal = true ∧
    FHE.isInitialized appliedAmount = true ∧
    holds s1 updatedStake this ∧
    holds s1 updatedStake staker ∧
    holds s1 updatedTotal this ∧
    (staker ≠ 0%N → holds s1 updatedTotal staker) ∧
    FHE.persistent (fhe w) ⊆ FHE.persistent s1.
Proof.
  destruct (tryDecrease_spec (stakedBalanceOf C w staker) amount (fhe w))
    as (ok & upd & s0 & Hrun & Hok & Hval & Hinit & Hp & Ht).
  destruct (asEuint64_spec 0 s0) as (zero & sz & HrunZ & HvalZ & _ & HpZ & _).
  destruct (select_spec ok amount zero sz)
    as (applied & sa & HrunA & HvalA & HinitA & HpA & _).
  unfold _unstake. step_monad. rewrite Hrun. cbn. rewrite HrunZ. cbn.
  rewrite HrunA. cbn.
  match goal with
  | |- context [_decreaseTotal C this ?a ?b ?w1] =>
      destruct (_decreaseTotal_spec a b w1)
        as (updT & s2 & HrunT & HvalT & HinitT & Hg1 & Hg2 & _ & Hsub & _)
  end.
  rewrite HrunT. cbn in *. rewrite HinitA. unfold external. cbn.
  match goal with
  | |- context [confidentialTransfer C this staker ?a ?c ?s] => exists upd, a, updT, s
  end.
  split; [by destruct (confidentialTransfer C this staker _ _ _) as [[[v c'] s']|]|].
  cbn. rewrite Hok, HvalZ in HvalA. rewrite HpA, HpZ, Hp in Hsub.
  assert (Happlied : decrypt applied
                     = if decrypt amount <=? decrypt (stakedBalanceOf C w staker)
                       then decrypt amount else 0) by done.
  split; [done|]. split; [rewrite Hval, Happlied; destruct (_ <=? _); lia|].
  repeat split; finish.
Qed.

End Behaviour.

(** ** Sums of decrypted balances over a set of accounts *)

Section Sums.

Implicit Types (f g : address → Z) (l : list address) (X Y : gset address).

Lemma sumList_perm f l1 l2 : l1 ≡ₚ l2 → sumList f l1 = sumList f l2.
Proof.
  induction 1 as [|a l1 l2 _ IH|a b l|l1 l2 l3 _ IH1 _ IH2]; simpl; lia.
Qed.

Lemma sumList_ext f g l : (∀ a, a ∈ l → f a = g a) → sumList f l = sumList g l.
Proof.
  induction l as [|a l IH]; intros Hfg; simpl; [done|].
  rewrite (Hfg a), IH; [done| |]; [intros b Hb; apply Hfg|]; set_solver.
Qed.

Lemma sumList_app f l1 l2 : sumList f (l1 ++ l2) = sumList f l1 + sumList f l2.
Proof. induction l1 as [|a l1 IH]; simpl; lia. Qed.

Lemma sumList_zero f l : (∀ a, a ∈ l → f a = 0) → sumList f l = 0.
Proof.
  induction l as [|a l IH]; intros Hz; simpl; [done|].
  rewrite (Hz a), IH; [done| |]; [intros b Hb; apply Hz|]; set_solver.
Qed.

Lemma sumList_nonneg f l : (∀ a, 0 ≤ f a) → 0 ≤ sumList f l.
Proof. intros Hf. induction l as [|a l IH]; simpl; [lia|]. specialize (Hf a). lia. Qed.

Lemma sumOver_empty f : sumOver f ∅ = 0.
Proof. unfold sumOver. by rewrite elements_empty. Qed.

(** Accounts that hold nothing do not count. *)
Lemma sumOver_support f X Y :
  Y ⊆ X → (∀ a, a ∈ X → a ∉ Y → f a = 0) → sumOver f X = sumOver f Y.
Proof.
  intros Hsub Hzero. unfold sumOver.
  assert (HX : X = Y ∪ X ∖ Y).
  { apply set_eq. intros a. destruct (decide (a ∈ Y)); set_solver. }
  rewrite HX at 1.
  rewrite (sumList_perm f _ (elements Y ++ elements (X ∖ Y)))
    by (apply elements_disj_union; set_solver).
  rewrite sumList_app, (sumList_zero f (elements (X ∖ Y))); [lia|].
  intros a Ha. apply elem_of_elements in Ha. apply Hzero; set_solver.
Qed.

(** Changing one account's balance changes the sum by as much, when the
    account is counted. *)
Lemma sumOver_update f g X s :
  (∀ a, a ≠ s → g a = f a) →
  sumOver g X = sumOver f X + (if decide (s ∈ X) then g s - f s else 0).
Proof.
  intros Hsame. unfold sumOver.
  destruct (decide (s ∈ X)) as [Hin|Hout].
  - assert (HX : X = {[ s ]} ∪ X ∖ {[ s ]}).
    { apply set_eq. intros a. destruct (decide (a = s)); set_solver. }
    rewrite HX.
    rewrite (sumList_perm g _ (s :: elements (X ∖ {[ s ]})))
      by (apply elements_union_singleton; set_solver).
    rewrite (sumList_perm f _ (s :: elements (X ∖ {[ s ]})))
      by (apply elements_union_singleton; set_solver).
    simpl. rewrite (sumList_ext g f (elements (X ∖ {[ s ]}))); [lia|].
    intros a Ha. apply elem_of_elements in Ha. apply Hsame. set_solver.
  - rewrite (sumList_ext g f (elements X)); [lia|].
    intros a Ha. apply elem_of_elements in Ha. apply Hsame. set_solver.
Qed.

Lemma sumOver_nonneg f X : (∀ a, 0 ≤ f a) → 0 ≤ sumOver f X.
Proof. apply sumList_nonneg. Qed.

(** A counted account holds at most the sum. *)
Lemma sumOver_bound f X s : (∀ a, 0 ≤ f a) → s ∈ X → f s ≤ sumOver f X.
Proof.
  intros Hf Hin.
  rewrite (sumOver_update (λ a, if decide (a = s) then 0 else f a) f X s).
  - destruct (decide (s ∈ X)); [|done]. destruct (decide (s = s)); [|done].
    pose proof (sumOver_nonneg (λ a, if decide (a = s) then 0 else f a) X) as Hpos.
    assert (0 ≤ sumOver (λ a, if decide (a = s) then 0 else f a) X); [|lia].
    apply Hpos. intros a. destruct (decide (a = s)); [lia|apply Hf].
  - intros a Ha. by destruct (decide (a = s)).
Qed.

End Sums.

(** ** What a transaction does to the decrypted ledger *)

Section Transactions.

Context (C : Custody).
Variable this : address.

Lemma dispatch_unfold (c : Call) (w : World C) :
  dispatch C this c w =
  match c with
  | StakeExternal who encryptedAmount proof =>
      match FHE.fromExternal encryptedAmount proof (fhe w) with
      | Some (v, s) => _stake C this who v (setFhe C s w)
      | None => Revert InputRejected w
      end
  | Stake who amount =>
      if FHE.isAllowed amount who (fhe w) then _stake C this who amount w
      else Revert (UnauthorizedEncryptedAmount who) w
  | UnstakeExternal who encryptedAmount proof =>
      match FHE.fromExternal encryptedAmount proof (fhe w) with
      | Some (v, s) => _unstake C this who v (setFhe C s w)
      | None => Revert InputRejected w
      end
  | Unstake who amount =>
      if FHE.isAllowed amount who (fhe w) then _unstake C this who amount w
      else Revert (UnauthorizedEncryptedAmount who) w
  end.
Proof.
  destruct c; simpl;
    unfold stake_external, unstake_external, stake, unstake, fromExternal,
      mbind, M_bind, read, revert; simpl.
  - by destruct (FHE.fromExternal _ _ _) as [[v s]|].
  - by destruct (FHE.isAllowed _ _ _).
  - by destruct (FHE.fromExternal _ _ _) as [[v s]|].
  - by destruct (FHE.isAllowed _ _ _).
Qed.

Lemma staked_insert (w : World C) (staker a : address) (v total : euint64)
    (events : list Event) (s : FHE.State) (c : cstate C) :
  staked (MkWorld C (methToken w) (<[staker := v]> (_stakedBalances w)) total events s c) a
  = if decide (a = staker) then decrypt v else staked w a.
Proof.
  unfold staked, stakedBalanceOf. simpl.
  destruct (decide (a = staker)) as [->|Hne].
  - by rewrite lookup_insert_eq.
  - by rewrite lookup_insert_ne.
Qed.

Lemma _stake_effect (staker : address) (amount : euint64) (w : World C) :
  match _stake C this staker amount w with
  | Ok v w' =>
      methToken w' = methToken w ∧
      staked w' staker = credited (staked w staker) (decrypt v) ∧
      totalStaked w' = credited (totalStaked w) (decrypt v) ∧
      ∀ a, a ≠ staker → staked w' a = staked w a
  | Revert e _ => e = CustodyReverted
  end.
Proof.
  rewrite _stake_spec.
  destruct (confidentialTransferFrom C this staker this amount _ _)
    as [[[v c'] s']|]; [|done].
  destruct (FHE.isInitialized v) eqn:Hv.
  - match goal with
    | |- context [_applyIncrease C this staker v ?w1] =>
        destruct (_applyIncrease_spec C this staker v w1 Hv)
          as (upd & updT & s2 & Hrun & Hupd & HupdT & _)
    end.
    rewrite Hrun. simpl in *. split; [done|].
    rewrite !staked_insert. destruct (decide (staker = staker)); [|done].
    repeat split; try done.
    intros a Ha. rewrite staked_insert. by destruct (decide (a = staker)).
  - rewrite _applyIncrease_uninitialized by done.
    rewrite (decrypt_uninitialized v Hv). unfold credited.
    pose proof (decrypt_range (stakedBalanceOf C w staker)).
    pose proof (decrypt_range (_totalStaked w)).
    unfold staked, totalStaked, confidentialTotalStaked, stakedBalanceOf in *. simpl.
    repeat split; try done.
    + destruct (Z.leb_spec (decrypt (default FHE.uninitialized (_stakedBalances w !! staker)) + 0)
                  MAX_UINT64); lia.
    + destruct (Z.leb_spec (decrypt (_totalStaked w) + 0) MAX_UINT64); lia.
Qed.

Lemma _unstake_effect (staker : address) (amount : euint64) (w : World C) :
  match _unstake C this staker amount w with
  | Ok v w' =>
      methToken w' = methToken w ∧
      staked w' staker
        = staked w staker - appliable (staked w staker) (decrypt amount) ∧
      totalStaked w'
        = debited (totalStaked w) (appliable (staked w staker) (decrypt amount)) ∧
      ∀ a, a ≠ staker → staked w' a = staked w a
  | Revert e _ => e = CustodyReverted
  end.
Proof.
  destruct (_unstake_spec C this staker amount w)
    as (upd & applied & updT & s1 & Hrun & Happlied & Hupd & HupdT & _).
  simpl in Hrun. rewrite Hrun.
  destruct (confidentialTransfer C this staker applied _ _) as [[[v c'] s']|]; [|done].
  split; [done|]. split; [|split].
  - rewrite staked_insert. destruct (decide (staker = staker)); [|done].
    unfold appliable, staked. by rewrite <- Happlied.
  - unfold appliable, debited, totalStaked, staked, confidentialTotalStaked. simpl.
    by rewrite <- Happlied.
  - intros a Ha. rewrite staked_insert. by destruct (decide (a = staker)).
Qed.

Lemma credited_zero (b : Z) : 0 ≤ b ≤ MAX_UINT64 → credited b 0 = b.
Proof. unfold credited. destruct (Z.leb_spec (b + 0) MAX_UINT64); lia. Qed.

Lemma appliable_zero (b : Z) : 0 ≤ b → appliable b 0 = 0.
Proof. unfold appliable. by destruct (0 <=? b). Qed.

Lemma debited_zero (b : Z) : 0 ≤ b → debited b 0 = b.
Proof. unfold debited. destruct (Z.leb_spec 0 b); lia. Qed.

Lemma staked_range (w : World C) (a : address) : 0 ≤ staked w a ≤ MAX_UINT64.
Proof. apply decrypt_range. Qed.

Lemma totalStaked_range (w : World C) : 0 ≤ totalStaked w ≤ MAX_UINT64.
Proof. apply decrypt_range. Qed.

(** One committed or rolled-back call, seen through decryption: only the
    caller's balance and the total move, by the credit or debit of some
    64-bit amount [d] (what the token moved in, or what was asked out). *)
Lemma transact_effect (c : Call) (w : World C) :
  methToken (transact C this w c) = methToken w ∧
  (∀ a, a ≠ sender c → staked (transact C this w c) a = staked w a) ∧
  ∃ d, 0 ≤ d ≤ MAX_UINT64 ∧
    if isStake c then
      staked (transact C this w c) (sender c) = credited (staked w (sender c)) d ∧
      totalStaked (transact C this w c) = credited (totalStaked w) d
    else
      staked (transact C this w c) (sender c)
        = staked w (sender c) - appliable (staked w (sender c)) d ∧
      totalStaked (transact C this w c)
        = debited (totalStaked w) (appliable (staked w (sender c)) d).
Proof.
  pose proof (staked_range w (sender c)) as Hb.
  pose proof (totalStaked_range w) as Ht.
  assert (Hidle :
    methToken w = methToken w ∧ (∀ a, a ≠ sender c → staked w a = staked w a) ∧
    ∃ d, 0 ≤ d ≤ MAX_UINT64 ∧
      if isStake c then
        staked w (sender c) = credited (staked w (sender c)) d ∧
        totalStaked w = credited (totalStaked w) d
      else
        staked w (sender c) = staked w (sender c) - appliable (staked w (sender c)) d ∧
        totalStaked w = debited (totalStaked w) (appliable (staked w (sender c)) d)).
  { split; [done|]. split; [done|]. exists 0. split; [unfold MAX_UINT64; lia|].
    destruct (isStake c).
    - by rewrite !credited_zero.
    - rewrite appliable_zero, debited_zero by lia. lia. }
  unfold transact. rewrite dispatch_unfold.
  destruct c as [who e p|who amount|who e p|who amount]; simpl in *.
  - destruct (FHE.fromExternal e p (fhe w)) as [[v s]|]; [|done].
    pose proof (_stake_effect who v (setFhe C s w)) as Heff.
    destruct (_stake C this who v (setFhe C s w)) as [r w'|]; [|done].
    destruct Heff as (Htok & Hs & Htot & Hframe).
    split; [done|]. split; [done|]. exists (decrypt r). split; [apply decrypt_range|done].
  - destruct (FHE.isAllowed amount who (fhe w)); [|done].
    pose proof (_stake_effect who amount w) as Heff.
    destruct (_stake C this who amount w) as [r w'|]; [|done].
    destruct Heff as (Htok & Hs & Htot & Hframe).
    split; [done|]. split; [done|]. exists (decrypt r). split; [apply decrypt_range|done].
  - destruct (FHE.fromExternal e p (fhe w)) as [[v s]|]; [|done].
    pose proof (_unstake_effect who v (setFhe C s w)) as Heff.
    destruct (_unstake C this who v (setFhe C s w)) as [r w'|]; [|done].
    destruct Heff as (Htok & Hs & Htot & Hframe).
    split; [done|]. split; [done|]. exists (decrypt v). split; [apply decrypt_range|done].
  - destruct (FHE.isAllowed amount who (fhe w)); [|done].
    pose proof (_unstake_effect who amount w) as Heff.
    destruct (_unstake C this who amount w) as [r w'|]; [|done].
    destruct Heff as (Htok & Hs & Htot & Hframe).
    split; [done|]. split; [done|]. exists (decrypt amount). split; [apply decrypt_range|done].
Qed.

(** Conservation survives a call as long as the sum still fits. *)
Lemma conserved_step (accounts : gset address) (c : Call) (w : World C) :
  (∀ a, a ∉ accounts → staked w a = 0) →
  conserved w accounts →
  (isStake c = true → sender c ∈ accounts) →
  sumOver (staked (transact C this w c)) accounts ≤ MAX_UINT64 →
  conserved (transact C this w c) accounts ∧
  ∀ a, a ∉ accounts → staked (transact C this w c) a = 0.
Proof.
  intros Hzero Hcons Hin Hfits. unfold conserved in *.
  destruct (transact_effect c w) as (_ & Hframe & d & Hd & Heff).
  pose proof (sumOver_update (staked w) (staked (transact C this w c)) accounts (sender c)
                Hframe) as Hsum.
  pose proof (staked_range w (sender c)) as Hb.
  pose proof (totalStaked_range w) as Ht.
  assert (Hle : sender c ∈ accounts → staked w (sender c) ≤ sumOver (staked w) accounts).
  { apply sumOver_bound. intros a. apply staked_range. }
  destruct (isStake c) eqn:Hc.
  - specialize (Hin eq_refl). specialize (Hle Hin). destruct Heff as [Hs Htot].
    destruct (decide (sender c ∈ accounts)); [|done].
    split.
    + rewrite Htot, Hsum, Hs. rewrite Hsum, Hs in Hfits. unfold credited in *.
      destruct (Z.leb_spec (staked w (sender c) + d) MAX_UINT64);
        destruct (Z.leb_spec (totalStaked w + d) MAX_UINT64); lia.
    + intros a Ha. rewrite Hframe; [by apply Hzero|]. by intros ->.
  - destruct Heff as [Hs Htot].
    assert (Happ : 0 ≤ appliable (staked w (sender c)) d ≤ staked w (sender c)).
    { unfold appliable. destruct (Z.leb_spec d (staked w (sender c))); lia. }
    destruct (decide (sender c ∈ accounts)) as [Hmem|Hout].
    + specialize (Hle Hmem). split.
      * rewrite Htot, Hsum, Hs. unfold debited.
        destruct (Z.leb_spec (appliable (staked w (sender c)) d) (totalStaked w)); lia.
      * intros a Ha. rewrite Hframe; [by apply Hzero|]. by intros ->.
    + pose proof (Hzero _ Hout) as Hnil. split.
      * rewrite Htot, Hsum. unfold debited.
        destruct (Z.leb_spec (appliable (staked w (sender c)) d) (totalStaked w)); lia.
      * intros a Ha. destruct (decide (a = sender c)) as [->|Hne].
        -- rewrite Hs. lia.
        -- rewrite Hframe; [by apply Hzero|done].
Qed.

Lemma execute_snoc (calls : list Call) (c : Call) (w : World C) :
  execute C this (calls ++ [c]) w = transact C this (execute C this calls w) c.
Proof. unfold execute. by rewrite fold_left_app. Qed.

Lemma after_succ (calls : list Call) (n : nat) (c : Call) (w : World C) :
  calls !! n = Some c →
  after C this calls (S n) w = transact C this (after C this calls n w) c.
Proof.
  intros Hc. unfold after. by rewrite (take_S_r _ _ _ Hc), execute_snoc.
Qed.

Lemma after_end (calls : list Call) (n : nat) (w : World C) :
  calls !! n = None → after C this calls (S n) w = after C this calls n w.
Proof.
  intros Hc. unfold after. apply lookup_ge_None in Hc.
  by rewrite !take_ge by lia.
Qed.

End Transactions.

(** ** Conservation of the aggregate *)

Section Conservation.

Context (C : Custody).
Variable this : address.

Lemma stakers_snoc (calls : list Call) (c : Call) :
  stakers (calls ++ [c])
  = stakers calls ∪ (if isStake c then {[ sender c ]} else ∅).
Proof.
  unfold stakers. rewrite filter_app, fmap_app, list_to_set_app_L.
  f_equal. destruct c; simpl; rewrite ?filter_cons_True, ?filter_cons_False by done;
    simpl; set_solver.
Qed.

Lemma stakers_prefix (calls : list Call) (n : nat) :
  stakers (take n calls) ⊆ stakers calls.
Proof.
  rewrite <- (take_drop n calls) at 2. unfold stakers.
  rewrite filter_app, fmap_app, list_to_set_app_L. set_solver.
Qed.

Lemma stakers_member (calls : list Call) (n : nat) (c : Call) :
  calls !! n = Some c → isStake c = true → sender c ∈ stakers (take (S n) calls).
Proof.
  intros Hc Hstake. rewrite (take_S_r _ _ _ Hc), stakers_snoc, Hstake. set_solver.
Qed.

Lemma constructor_fresh (tokenAddress : address) (s : FHE.State) (c : cstate C)
    (w0 : World C) :
  constructor C tokenAddress s c = inr w0 →
  w0 = MkWorld C tokenAddress ∅ FHE.uninitialized [] s c ∧ tokenAddress ≠ 0%N.
Proof.
  unfold constructor. destruct (N.eqb_spec tokenAddress 0); [done|].
  intros [= <-]. done.
Qed.

(** An account that never staked holds nothing. *)
Lemma never_staked (calls : list Call) (w0 : World C) (n : nat) (a : address) :
  (∀ b, staked w0 b = 0) →
  a ∉ stakers (take n calls) →
  staked (after C this calls n w0) a = 0.
Proof.
  intros Hfresh. induction n as [|n IH]; intros Ha.
  - unfold after. rewrite take_0. apply Hfresh.
  - destruct (calls !! n) as [c|] eqn:Hc.
    + rewrite (after_succ C this _ _ _ _ Hc).
      rewrite (take_S_r _ _ _ Hc), stakers_snoc in Ha.
      assert (Hpre : a ∉ stakers (take n calls)) by set_solver.
      specialize (IH Hpre).
      destruct (transact_effect C this c (after C this calls n w0))
        as (_ & Hframe & d & Hd & Heff).
      destruct (decide (a = sender c)) as [->|Hne]; [|by rewrite Hframe].
      destruct (isStake c); [set_solver|].
      destruct Heff as [-> _]. rewrite IH. unfold appliable.
      destruct (Z.leb_spec d 0); lia.
    + rewrite (after_end C this _ _ _ Hc). apply IH.
      apply lookup_ge_None in Hc. by rewrite !take_ge in * by lia.
Qed.

(** C1 (as amended): starting from the freshly constructed ledger, after
    every call of every finite sequence of stake and unstake calls the
    decrypted total equals the sum of the decrypted balances of the accounts
    that staked so far, provided that sum still fits in 64 bits after every
    call; and only then. *)
Theorem conservation_while_sum_fits
    (tokenAddress : address) (s : FHE.State) (c : cstate C) (w0 : World C)
    (calls : list Call) :
  constructor C tokenAddress s c = inr w0 →
  (∀ n, sumOver (staked (after C this calls n w0)) (stakers (take n calls)) ≤ MAX_UINT64)
  ↔
  (∀ n, totalStaked (after C this calls n w0)
        = sumOver (staked (after C this calls n w0)) (stakers (take n calls))).
Proof.
  intros Hnew. split; [intros Hfits|intros Hcons n].
  2: { rewrite <- Hcons. apply totalStaked_range. }
  apply constructor_fresh in Hnew as [-> _].
  set (w0 := MkWorld C tokenAddress ∅ FHE.uninitialized [] s c) in *.
  assert (Hfresh : ∀ b, staked w0 b = 0) by done.
  assert (Hsame : ∀ n, sumOver (staked (after C this calls n w0)) (stakers calls)
                       = sumOver (staked (after C this calls n w0)) (stakers (take n calls))).
  { intros n. apply sumOver_support; [apply stakers_prefix|].
    intros a _ Ha. by apply never_staked. }
  assert (Hinv : ∀ n, conserved (after C this calls n w0) (stakers calls) ∧
                      ∀ a, a ∉ stakers calls → staked (after C this calls n w0) a = 0).
  { induction n as [|n [IHc IHz]].
    - unfold after. rewrite take_0. split; [|done].
      unfold conserved. rewrite (sumOver_support _ _ ∅); [|set_solver|done].
      by rewrite sumOver_empty.
    - destruct (calls !! n) as [call|] eqn:Hcall.
      + rewrite (after_succ C this _ _ _ _ Hcall).
        apply conserved_step; [done..| |].
        * intros Hstake. eapply stakers_prefix, stakers_member; done.
        * rewrite <- (after_succ C this _ _ _ _ Hcall), Hsame. apply Hfits.
      + by rewrite (after_end C this _ _ _ Hcall). }
  intros n. rewrite <- Hsame. apply Hinv.
Qed.

End Conservation.

(** Two accounts each stake [2 ^ 63]: both balances are credited, the
    total is not, because only the total would overflow. *)
Lemma conservation_fails_on_overflow :
  constructor scripted Scenario.token FHE.initial
    [Scenario.moved (2 ^ 63); Scenario.moved (2 ^ 63)]
  = inr (Scenario.deployed [Scenario.moved (2 ^ 63); Scenario.moved (2 ^ 63)]) ∧
  totalStaked
    (after scripted Scenario.ledger
       [Scenario.stakes Scenario.alice (2 ^ 63); Scenario.stakes Scenario.bob (2 ^ 63)] 2
       (Scenario.deployed [Scenario.moved (2 ^ 63); Scenario.moved (2 ^ 63)]))
  ≠ sumOver
      (staked
         (after scripted Scenario.ledger
            [Scenario.stakes Scenario.alice (2 ^ 63); Scenario.stakes Scenario.bob (2 ^ 63)] 2
            (Scenario.deployed [Scenario.moved (2 ^ 63); Scenario.moved (2 ^ 63)])))
      (stakers
         (take 2
            [Scenario.stakes Scenario.alice (2 ^ 63); Scenario.stakes Scenario.bob (2 ^ 63)])).
Proof. split; [reflexivity|]. vm_compute. discriminate. Qed.

(** One account stakes and then unstakes part of it. *)
Lemma conservation_while_sum_fits_witness :
  constructor scripted Scenario.token FHE.initial
    [Scenario.moved 400000; Scenario.moved 250000]
  = inr (Scenario.deployed [Scenario.moved 400000; Scenario.moved 250000]) ∧
  totalStaked
    (after scripted Scenario.ledger
       [Scenario.stakes Scenario.alice 400000; Scenario.unstakes Scenario.alice 250000] 2
       (Scenario.deployed [Scenario.moved 400000; Scenario.moved 250000]))
  = sumOver
      (staked
         (after scripted Scenario.ledger
            [Scenario.stakes Scenario.alice 400000;
             Scenario.unstakes Scenario.alice 250000] 2
            (Scenario.deployed [Scenario.moved 400000; Scenario.moved 250000])))
      (stakers
         (take 2 [Scenario.stakes Scenario.alice 400000;
                  Scenario.unstakes Scenario.alice 250000])).
Proof.
  split; [reflexivity|].
  refine (proj1 (conservation_while_sum_fits scripted Scenario.ledger Scenario.token
                   FHE.initial [Scenario.moved 400000; Scenario.moved 250000]
                   (Scenario.deployed [Scenario.moved 400000; Scenario.moved 250000])
                   [Scenario.stakes Scenario.alice 400000;
                    Scenario.unstakes Scenario.alice 250000] eq_refl) _ 2%nat).
  intros [|[|[|n]]]; vm_compute; discriminate.
Defined.

(** ** Construction *)

Section Construction.

Context (C : Custody).
Variable this : address.

Lemma execute_token (calls : list Call) (w : World C) :
  token C (execute C this calls w) = token C w.
Proof.
  induction calls as [|c calls IH] using rev_ind; [done|].
  rewrite execute_snoc. unfold token in *.
  by destruct (transact_effect C this c (execute C this calls w)) as (-> & _).
Qed.

(** C9: constructing the ledger with the zero token address reverts with
    [InvalidTokenAddress] and yields no ledger; with any other address it
    yields an empty ledger whose token is that address, and no sequence of
    calls changes it afterwards. *)
Theorem constructor_fixes_token
    (tokenAddress : address) (s : FHE.State) (c : cstate C) :
  tokenAddress ≠ 0%N →
  constructor C 0%N s c = inl InvalidTokenAddress ∧
  ∃ w0, constructor C tokenAddress s c = inr w0 ∧
        token C w0 = tokenAddress ∧
        _stakedBalances w0 = ∅ ∧
        _totalStaked w0 = FHE.uninitialized ∧
        emitted w0 = [] ∧
        ∀ calls, token C (execute C this calls w0) = tokenAddress.
Proof.
  intros Hne. split; [done|].
  unfold constructor. destruct (N.eqb_spec tokenAddress 0); [done|].
  eexists. split; [reflexivity|]. repeat split.
  intros calls. by rewrite execute_token.
Qed.

End Construction.

(** A ledger deployed for the token at address 100. *)
Lemma constructor_fixes_token_witness :
  Scenario.token ≠ 0%N ∧
  constructor scripted 0%N FHE.initial [] = inl InvalidTokenAddress ∧
  ∃ w0, constructor scripted Scenario.token FHE.initial [] = inr w0 ∧
        token scripted w0 = Scenario.token ∧
        _stakedBalances w0 = ∅ ∧
        _totalStaked w0 = FHE.uninitialized ∧
        emitted w0 = [] ∧
        ∀ calls, token scripted (execute scripted Scenario.ledger calls w0) = Scenario.token.
Proof.
  split; [discriminate|].
  apply (constructor_fixes_token scripted Scenario.ledger Scenario.token FHE.initial []).
  discriminate.
Defined.

(** ** The authorization gate *)

Section Gate.

Context (C : Custody).
Variable this : address.

(** C3: when the caller holds no grant on the handle it presents, the
    handle-accepting [stake] and [unstake] revert with
    [UnauthorizedEncryptedAmount] for that caller, and they do so in the
    very state they were called in: no balance, total, event, grant or
    operation was produced before the revert. *)
Theorem unauthorized_handle_rejected
    (w : World C) (caller : address) (amount : euint64) :
  FHE.isAllowed amount caller (fhe w) = false →
  stake C this caller amount w = Revert (UnauthorizedEncryptedAmount caller) w ∧
  unstake C this caller amount w = Revert (UnauthorizedEncryptedAmount caller) w ∧
  transact C this w (Stake caller amount) = w ∧
  transact C this w (Unstake caller amount) = w.
Proof.
  intros Hdenied.
  pose proof (dispatch_unfold C this (Stake caller amount) w) as Hs.
  pose proof (dispatch_unfold C this (Unstake caller amount) w) as Hu.
  simpl in Hs, Hu. rewrite Hdenied in Hs, Hu.
  unfold transact. simpl. by rewrite Hs, Hu.
Qed.

End Gate.

(** Bob presents a handle that only alice was granted. *)
Lemma unauthorized_handle_rejected_witness :
  FHE.isAllowed (Cipher 7%N 5) Scenario.bob
    (snd (FHE.allow (Cipher 7%N 5) Scenario.alice FHE.initial)) = false ∧
  stake scripted Scenario.ledger Scenario.bob (Cipher 7%N 5)
    (MkWorld scripted Scenario.token ∅ FHE.uninitialized []
       (snd (FHE.allow (Cipher 7%N 5) Scenario.alice FHE.initial)) [Scenario.moved 5])
  = Revert (UnauthorizedEncryptedAmount Scenario.bob)
      (MkWorld scripted Scenario.token ∅ FHE.uninitialized []
         (snd (FHE.allow (Cipher 7%N 5) Scenario.alice FHE.initial)) [Scenario.moved 5]).
Proof.
  split; [by vm_compute|].
  apply (unauthorized_handle_rejected scripted Scenario.ledger
           (MkWorld scripted Scenario.token ∅ FHE.uninitialized []
              (snd (FHE.allow (Cipher 7%N 5) Scenario.alice FHE.initial)) [Scenario.moved 5])
           Scenario.bob (Cipher 7%N 5)).
  by vm_compute.
Defined.

(** ** Staking *)

Section Staking.

Context (C : Custody).
Variable this : address.

(** Once the token answered, [_stake] returns what it answered. *)
Lemma _stake_returns
    (w : World C) (staker : address) (amount transferred : euint64)
    (c' : cstate C) (s' : FHE.State) :
  confidentialTransferFrom C this staker this amount (custody w) (requested amount w)
  = Some (transferred, c', s') →
  ∃ w', _stake C this staker amount w = Ok transferred w'.
Proof.
  intros Hanswer. rewrite _stake_spec, Hanswer.
  destruct (FHE.isInitialized transferred) eqn:Hinit.
  - match goal with
    | |- context [_applyIncrease C this staker transferred ?w1] =>
        destruct (_applyIncrease_spec C this staker transferred w1 Hinit)
          as (upd & updT & s2 & Hrun & _)
    end.
    rewrite Hrun. by eexists.
  - rewrite _applyIncrease_uninitialized by done. by eexists.
Qed.

(** C7: [_stake] returns the very value the token reports as transferred,
    and that value, not the requested [amount], is what is credited to the
    staker and to the total (through the safe increase). *)
Theorem stake_credits_transferred
    (w : World C) (staker : address) (amount transferred : euint64)
    (c' : cstate C) (s' : FHE.State) :
  confidentialTransferFrom C this staker this amount (custody w) (requested amount w)
  = Some (transferred, c', s') →
  ∃ w', _stake C this staker amount w = Ok transferred w' ∧
        staked w' staker = credited (staked w staker) (decrypt transferred) ∧
        totalStaked w' = credited (totalStaked w) (decrypt transferred) ∧
        ∀ a, a ≠ staker → staked w' a = staked w a.
Proof.
  intros Hanswer.
  destruct (_stake_returns w staker amount transferred c' s' Hanswer) as [w' Hrun].
  pose proof (_stake_effect C this staker amount w) as Heff. rewrite Hrun in Heff.
  exists w'. by destruct Heff as (_ & ? & ? & ?).
Qed.

(** C4 (as amended): when the staker's balance plus the transferred amount
    exceeds [2 ^ 64 - 1], [_stake] still returns, and leaves the balance at
    its prior value (neither wrapped nor clamped to the maximum); the total
    is credited on its own terms, so it stays at its prior value whenever it
    is at least the staker's balance. *)
Theorem stake_overflow_keeps_balance
    (w : World C) (staker : address) (amount transferred : euint64)
    (c' : cstate C) (s' : FHE.State) :
  confidentialTransferFrom C this staker this amount (custody w) (requested amount w)
  = Some (transferred, c', s') →
  staked w staker + decrypt transferred > MAX_UINT64 →
  ∃ w', _stake C this staker amount w = Ok transferred w' ∧
        staked w' staker = staked w staker ∧
        totalStaked w' = credited (totalStaked w) (decrypt transferred) ∧
        (staked w staker ≤ totalStaked w → totalStaked w' = totalStaked w).
Proof.
  intros Hanswer Hover.
  destruct (_stake_returns w staker amount transferred c' s' Hanswer) as [w' Hrun].
  pose proof (_stake_effect C this staker amount w) as Heff. rewrite Hrun in Heff.
  destruct Heff as (_ & Hs & Ht & _).
  exists w'. split; [done|]. rewrite Hs, Ht. unfold credited.
  destruct (Z.leb_spec (staked w staker + decrypt transferred) MAX_UINT64); [lia|].
  repeat split. intros Hle.
  destruct (Z.leb_spec (totalStaked w + decrypt transferred) MAX_UINT64); lia.
Qed.

(** C10: when the token reports an uninitialized value, [_stake] returns
    that value and leaves balances, total and events exactly as they were;
    [_unstake] has no such exit: whatever the amount, it writes the staker's
    slot with an initialized value before it calls the token, and emits one
    [Unstaked] event once the token answered (it reverts only when the token
    does). *)
Theorem uninitialized_transfer_is_noop (w : World C) (staker : address) :
  (∀ amount transferred c' s',
     confidentialTransferFrom C this staker this amount (custody w) (requested amount w)
     = Some (transferred, c', s') →
     FHE.isInitialized transferred = false →
     _stake C this staker amount w
     = Ok transferred
         (MkWorld C (methToken w) (_stakedBalances w) (_totalStaked w) (emitted w) s' c')) ∧
  ∀ amount,
    match _unstake C this staker amount w with
    | Ok v w' =>
        ∃ updatedStake,
          FHE.isInitialized updatedStake = true ∧
          _stakedBalances w' = <[staker := updatedStake]> (_stakedBalances w) ∧
          emitted w' = Unstaked staker v updatedStake :: emitted w
    | Revert e w' =>
        e = CustodyReverted ∧
        (∃ updatedStake,
           FHE.isInitialized updatedStake = true ∧
           _stakedBalances w' = <[staker := updatedStake]> (_stakedBalances w)) ∧
        ∃ appliedAmount,
          confidentialTransfer C this staker appliedAmount (custody w') (fhe w') = None
    end.
Proof.
  split.
  - intros amount transferred c' s' Hanswer Huninit.
    by rewrite _stake_spec, Hanswer, _applyIncrease_uninitialized.
  - intros x.
    destruct (_unstake_spec C this staker x w)
      as (upd & applied & updT & s1 & Hrun & _ & _ & _ & Hinit & _).
    simpl in Hrun. rewrite Hrun.
    destruct (confidentialTransfer C this staker applied (custody w) s1)
      as [[[v c''] s'']|] eqn:Hback.
    + by exists upd.
    + split; [done|]. split; [by exists upd|by exists applied].
Qed.

End Staking.

(** Alice asks to stake 10 and the custodian moves only 4. *)
Lemma stake_credits_transferred_witness :
  confidentialTransferFrom scripted Scenario.ledger Scenario.alice Scenario.ledger
    (Cipher 5%N 10) (custody (Scenario.deployed [Scenario.moved 4]))
    (requested (Cipher 5%N 10) (Scenario.deployed [Scenario.moved 4]))
  = Some (Cipher 1000%N 4, [],
          requested (Cipher 5%N 10) (Scenario.deployed [Scenario.moved 4])) ∧
  ∃ w', _stake scripted Scenario.ledger Scenario.alice (Cipher 5%N 10)
          (Scenario.deployed [Scenario.moved 4]) = Ok (Cipher 1000%N 4) w' ∧
        staked w' Scenario.alice = credited 0 4 ∧
        totalStaked w' = credited 0 4 ∧
        ∀ a, a ≠ Scenario.alice → staked w' a = 0.
Proof.
  split; [reflexivity|].
  apply (stake_credits_transferred scripted Scenario.ledger
           (Scenario.deployed [Scenario.moved 4]) Scenario.alice (Cipher 5%N 10)
           (Cipher 1000%N 4) []
           (requested (Cipher 5%N 10) (Scenario.deployed [Scenario.moved 4]))).
  reflexivity.
Defined.

(** Alice holds [2 ^ 63] and the custodian moves another [2 ^ 63] in. *)
Lemma stake_overflow_keeps_balance_witness :
  confidentialTransferFrom scripted Scenario.ledger Scenario.alice Scenario.ledger
    (Cipher 5%N Scenario.half)
    (custody (after scripted Scenario.ledger Scenario.edgeCalls 1 Scenario.edgeLedger))
    (requested (Cipher 5%N Scenario.half)
       (after scripted Scenario.ledger Scenario.edgeCalls 1 Scenario.edgeLedger))
  = Some (Cipher 1000%N Scenario.half,
          [Scenario.moved Scenario.half; Scenario.moved Scenario.half],
          requested (Cipher 5%N Scenario.half)
            (after scripted Scenario.ledger Scenario.edgeCalls 1 Scenario.edgeLedger)) ∧
  staked (after scripted Scenario.ledger Scenario.edgeCalls 1 Scenario.edgeLedger)
    Scenario.alice + decrypt (Cipher 1000%N Scenario.half) > MAX_UINT64 ∧
  ∃ w', _stake scripted Scenario.ledger Scenario.alice (Cipher 5%N Scenario.half)
          (after scripted Scenario.ledger Scenario.edgeCalls 1 Scenario.edgeLedger)
        = Ok (Cipher 1000%N Scenario.half) w' ∧
        staked w' Scenario.alice = Scenario.half ∧
        totalStaked w' = credited Scenario.half Scenario.half ∧
        (Scenario.half ≤ Scenario.half → totalStaked w' = Scenario.half).
Proof.
  split; [reflexivity|]. split; [by vm_compute|].
  apply (stake_overflow_keeps_balance scripted Scenario.ledger
           (after scripted Scenario.ledger Scenario.edgeCalls 1 Scenario.edgeLedger)
           Scenario.alice (Cipher 5%N Scenario.half) (Cipher 1000%N Scenario.half)
           [Scenario.moved Scenario.half; Scenario.moved Scenario.half]
           (requested (Cipher 5%N Scenario.half)
              (after scripted Scenario.ledger Scenario.edgeCalls 1 Scenario.edgeLedger))).
  - reflexivity.
  - by vm_compute.
Defined.

(** After bob staked and unstaked [2 ^ 63] next to alice's [2 ^ 63], the
    total reads zero while alice still holds [2 ^ 63]; her next stake of
    [2 ^ 63] overflows her balance, which stays, but not the total, which
    moves. *)
Lemma stake_overflow_moves_total :
  staked (after scripted Scenario.ledger Scenario.edgeCalls 3 Scenario.edgeLedger)
    Scenario.alice + Scenario.half > MAX_UINT64 ∧
  staked (after scripted Scenario.ledger Scenario.edgeCalls 4 Scenario.edgeLedger)
    Scenario.alice
  = staked (after scripted Scenario.ledger Scenario.edgeCalls 3 Scenario.edgeLedger)
      Scenario.alice ∧
  totalStaked (after scripted Scenario.ledger Scenario.edgeCalls 3 Scenario.edgeLedger) = 0 ∧
  totalStaked (after scripted Scenario.ledger Scenario.edgeCalls 4 Scenario.edgeLedger)
  = Scenario.half.
Proof. by vm_compute. Qed.

(** The custodian answers a stake with the never-assigned value. *)
Lemma uninitialized_transfer_is_noop_witness :
  confidentialTransferFrom scripted Scenario.ledger Scenario.alice Scenario.ledger
    (Cipher 5%N 10) (custody (Scenario.deployed [Some FHE.uninitialized]))
    (requested (Cipher 5%N 10) (Scenario.deployed [Some FHE.uninitialized]))
  = Some (FHE.uninitialized, [],
          requested (Cipher 5%N 10) (Scenario.deployed [Some FHE.uninitialized])) ∧
  FHE.isInitialized FHE.uninitialized = false ∧
  _stake scripted Scenario.ledger Scenario.alice (Cipher 5%N 10)
    (Scenario.deployed [Some FHE.uninitialized])
  = Ok FHE.uninitialized
      (MkWorld scripted Scenario.token ∅ FHE.uninitialized []
         (requested (Cipher 5%N 10) (Scenario.deployed [Some FHE.uninitialized])) []).
Proof.
  split; [reflexivity|]. split; [reflexivity|].
  exact (proj1 (uninitialized_transfer_is_noop scripted Scenario.ledger
                  (Scenario.deployed [Some FHE.uninitialized]) Scenario.alice)
           (Cipher 5%N 10) FHE.uninitialized []
           (requested (Cipher 5%N 10) (Scenario.deployed [Some FHE.uninitialized]))
           eq_refl eq_refl).
Defined.

(** ** Unstaking *)

Section Unstaking.

Context (C : Custody).
Variable this : address.

(** C6 (as amended): an [_unstake] that returns has emitted exactly one
    more event, [Unstaked], whose balance field is the balance now stored
    for the staker and whose amount field is the value the token returned
    when asked to transfer the appliable amount (the requested amount if the
    decrease was safe, zero otherwise); the same value is returned to the
    caller.  An [_unstake] that reverts has emitted nothing. *)
Theorem unstaked_event_reports_transferred
    (w : World C) (staker : address) (amount : euint64) :
  match _unstake C this staker amount w with
  | Ok transferred w' =>
      emitted w' = Unstaked staker transferred (stakedBalanceOf C w' staker) :: emitted w ∧
      ∃ appliedAmount s1,
        decrypt appliedAmount = appliable (staked w staker) (decrypt amount) ∧
        confidentialTransfer C this staker appliedAmount (custody w) s1
        = Some (transferred, custody w', fhe w')
  | Revert e w' => e = CustodyReverted ∧ emitted w' = emitted w
  end.
Proof.
  destruct (_unstake_spec C this staker amount w)
    as (upd & applied & updT & s1 & Hrun & Happlied & _).
  simpl in Hrun. rewrite Hrun.
  destruct (confidentialTransfer C this staker applied (custody w) s1)
    as [[[v c'] s']|] eqn:Hback; [|done].
  split.
  - unfold stakedBalanceOf. simpl. by rewrite lookup_insert_eq.
  - by exists applied, s1.
Qed.


(** C2 (as amended): when the requested amount decrypts to more than the
    staker's balance, the appliable amount that [_unstake] selects and hands
    to the token decrypts to zero.  If the token accepts that transfer, and
    moves nothing when asked to transfer an encrypted zero, [_unstake]
    returns, the transferred value decrypts to zero, and every decrypted
    balance, the decrypted total and every custody balance are as they were.
    If the token refuses the transfer, [_unstake] reverts.  Either way the
    transaction leaves the staker's balance, the total and every custody
    balance as they were, a reverted call being discarded by the host. *)
Theorem unstake_above_stake_moves_nothing
    (balanceOf : cstate C → address → Z)
    (w : World C) (staker : address) (amount : euint64) :
  idleOnZero C balanceOf →
  staked w staker < decrypt amount →
  (∃ appliedAmount s1,
     decrypt appliedAmount = 0 ∧
     match confidentialTransfer C this staker appliedAmount (custody w) s1 with
     | Some (transferred, c', s') =>
         ∃ w', _unstake C this staker amount w = Ok transferred w' ∧
               custody w' = c' ∧ fhe w' = s' ∧
               decrypt transferred = 0 ∧
               (∀ a, staked w' a = staked w a) ∧
               totalStaked w' = totalStaked w ∧
               ∀ a, balanceOf (custody w') a = balanceOf (custody w) a
     | None =>
         ∃ w', _unstake C this staker amount w = Revert CustodyReverted w'
     end) ∧
  (∀ a, staked (transact C this w (Unstake staker amount)) a = staked w a) ∧
  totalStaked (transact C this w (Unstake staker amount)) = totalStaked w ∧
  ∀ a, balanceOf (custody (transact C this w (Unstake staker amount))) a
       = balanceOf (custody w) a.
Proof.
  intros Hidle Habove.
  destruct (_unstake_spec C this staker amount w)
    as (upd & applied & updT & s1 & Hrun & Happlied & Hupd & HupdT & _).
  simpl in Hrun.
  assert (Hzero : decrypt applied = 0).
  { rewrite Happlied. fold (staked w staker).
    destruct (Z.leb_spec (decrypt amount) (staked w staker)); [lia|done]. }
  assert (Hmoved : ∀ v c' s',
    confidentialTransfer C this staker applied (custody w) s1 = Some (v, c', s') →
    decrypt v = 0 ∧
    (∀ a, staked (MkWorld C (methToken w) (<[staker := upd]> (_stakedBalances w)) updT
                    (Unstaked staker v upd :: emitted w) s' c') a = staked w a) ∧
    decrypt updT = totalStaked w ∧
    ∀ a, balanceOf c' a = balanceOf (custody w) a).
  { intros v c' s' Hback.
    destruct (Hidle _ _ _ _ _ _ _ _ Hzero Hback) as [Hv Hbal].
    split; [done|]. split; [|split; [|done]].
    - intros a. rewrite staked_insert. destruct (decide (a = staker)) as [->|]; [|done].
      rewrite Hupd, Hzero. unfold staked. lia.
    - rewrite HupdT, Hzero. pose proof (decrypt_range (_totalStaked w)).
      unfold totalStaked, confidentialTotalStaked.
      destruct (Z.leb_spec 0 (decrypt (_totalStaked w))); lia. }
  split.
  - exists applied, s1. split; [done|]. rewrite Hrun.
    destruct (confidentialTransfer C this staker applied (custody w) s1)
      as [[[v c'] s']|] eqn:Hback; [|by eexists].
    destruct (Hmoved v c' s' eq_refl) as (Hv & Hs & Ht & Hbal).
    eexists. split; [reflexivity|]. by repeat split.
  - unfold transact. rewrite dispatch_unfold.
    destruct (FHE.isAllowed amount staker (fhe w)); [|done].
    rewrite Hrun.
    destruct (confidentialTransfer C this staker applied (custody w) s1)
      as [[[v c'] s']|] eqn:Hback; [|done].
    destruct (Hmoved v c' s' eq_refl) as (Hv & Hs & Ht & Hbal).
    by repeat split.
Qed.

End Unstaking.

(** Alice staked 10 and asks for all of it back; the custodian hands back
    only 4: the event reports 4, not the appliable 10. *)
Lemma unstaked_event_is_not_appliable_amount :
  appliable
    (staked (after scripted Scenario.ledger
               [Scenario.stakes Scenario.alice 10; Scenario.unstakes Scenario.alice 10] 1
               (Scenario.deployed [Scenario.moved 10; Scenario.moved 4]))
       Scenario.alice) 10 = 10 ∧
  (decrypt ∘ amountOf) <$>
    head (emitted (after scripted Scenario.ledger
                     [Scenario.stakes Scenario.alice 10; Scenario.unstakes Scenario.alice 10] 2
                     (Scenario.deployed [Scenario.moved 10; Scenario.moved 4])))
  = Some 4.
Proof. by vm_compute. Qed.

(** ** The stand-in token *)

Lemma add_spec (a b : euint64) (s : FHE.State) :
  ∃ v s',
    FHE.add a b s = (v, s') ∧
    decrypt v = (decrypt a + decrypt b) mod 2 ^ 64 ∧
    FHE.isInitialized v = true ∧
    FHE.persistent s' = FHE.persistent s.
Proof.
  eexists _, _. split; [reflexivity|]. simpl.
  by rewrite fresh_initialized, decrypt_fresh, Zmod_mod.
Qed.
Arguments FHE.add : simpl never.

(** Asked to transfer an encrypted zero, the stand-in token leaves every
    balance as it decrypts and reports zero. *)
Lemma ERC7984_idleOnZero (self : address) :
  idleOnZero (ERC7984.asCustody self)
    (λ t a, decrypt (ERC7984.confidentialBalanceOf t a)).
Proof.
  intros caller to amount t s v t' s' Hzero. simpl.
  unfold ERC7984.transfer, ERC7984._transfer.
  destruct (FHE.isInitialized (ERC7984.confidentialBalanceOf t caller)); [|done]. cbn.
  destruct (tryDecrease_spec (ERC7984.confidentialBalanceOf t caller) amount s)
    as (ok & ptr & s1 & Hrun & Hok & Hptr & _).
  rewrite Hrun.
  match goal with
  | |- context [FHE.asEuint64 0 ?st] =>
      destruct (asEuint64_spec 0 st) as (zero & sz & HrunZ & HvalZ & _)
  end.
  rewrite HrunZ.
  destruct (select_spec ok amount zero sz) as (moved & sm & HrunM & HvalM & _).
  rewrite HrunM. unfold ERC7984.credit.
  match goal with
  | |- context [FHE.add ?a ?b ?st] =>
      destruct (add_spec a b st) as (ptr2 & s2 & HrunC & HvalC & _)
  end.
  rewrite HrunC. cbn. intros [= <- <- <-].
  assert (Hmoved : decrypt moved = 0).
  { rewrite HvalM, HvalZ, Hzero. by destruct (FHE.flagPayload ok). }
  split; [done|]. intros a.
  pose proof (decrypt_range (ERC7984.confidentialBalanceOf t caller)) as Hrange.
  assert (Hptr' : decrypt ptr = decrypt (ERC7984.confidentialBalanceOf t caller)).
  { rewrite Hptr, Hzero.
    destruct (Z.leb_spec 0 (decrypt (ERC7984.confidentialBalanceOf t caller))); lia. }
  rewrite Hmoved, Z.add_0_r, decrypt_mod in HvalC.
  unfold ERC7984.confidentialBalanceOf in *. cbn in *.
  destruct (decide (a = to)) as [->|Hto].
  - rewrite lookup_insert_eq. cbn. rewrite HvalC.
    destruct (decide (to = caller)) as [->|Hfrom].
    + by rewrite lookup_insert_eq.
    + by rewrite lookup_insert_ne.
  - rewrite lookup_insert_ne by done.
    destruct (decide (a = caller)) as [->|Hfrom].
    + by rewrite lookup_insert_eq.
    + by rewrite lookup_insert_ne.
Qed.

(** Alice staked 300000 of her 1000000 and asks for 600000 back. *)
Lemma unstake_above_stake_moves_nothing_witness :
  staked (after (ERC7984.asCustody Scenario.token) Scenario.ledger
            [Scenario.stakes Scenario.alice 300000] 1 Scenario.live) Scenario.alice
  < decrypt (Cipher 5%N 600000) ∧
  (∃ appliedAmount s1,
     decrypt appliedAmount = 0 ∧
     match confidentialTransfer (ERC7984.asCustody Scenario.token) Scenario.ledger
             Scenario.alice appliedAmount
             (custody (after (ERC7984.asCustody Scenario.token) Scenario.ledger
                         [Scenario.stakes Scenario.alice 300000] 1 Scenario.live)) s1 with
     | Some (transferred, c', s') =>
         ∃ w', _unstake (ERC7984.asCustody Scenario.token) Scenario.ledger Scenario.alice
                 (Cipher 5%N 600000)
                 (after (ERC7984.asCustody Scenario.token) Scenario.ledger
                    [Scenario.stakes Scenario.alice 300000] 1 Scenario.live)
               = Ok transferred w' ∧
               custody w' = c' ∧ fhe w' = s' ∧
               decrypt transferred = 0 ∧
               (∀ a, staked w' a
                     = staked (after (ERC7984.asCustody Scenario.token) Scenario.ledger
                                 [Scenario.stakes Scenario.alice 300000] 1 Scenario.live) a) ∧
               totalStaked w'
               = totalStaked (after (ERC7984.asCustody Scenario.token) Scenario.ledger
                                [Scenario.stakes Scenario.alice 300000] 1 Scenario.live) ∧
               ∀ a, Scenario.custodyOf w' a
                    = Scenario.custodyOf
                        (after (ERC7984.asCustody Scenario.token) Scenario.ledger
                           [Scenario.stakes Scenario.alice 300000] 1 Scenario.live) a
     | None =>
         ∃ w', _unstake (ERC7984.asCustody Scenario.token) Scenario.ledger Scenario.alice
                 (Cipher 5%N 600000)
                 (after (ERC7984.asCustody Scenario.token) Scenario.ledger
                    [Scenario.stakes Scenario.alice 300000] 1 Scenario.live)
               = Revert CustodyReverted w'
     end) ∧
  (∀ a, staked
          (transact (ERC7984.asCustody Scenario.token) Scenario.ledger
             (after (ERC7984.asCustody Scenario.token) Scenario.ledger
                [Scenario.stakes Scenario.alice 300000] 1 Scenario.live)
             (Unstake Scenario.alice (Cipher 5%N 600000))) a
        = staked (after (ERC7984.asCustody Scenario.token) Scenario.ledger
                    [Scenario.stakes Scenario.alice 300000] 1 Scenario.live) a) ∧
  totalStaked
    (transact (ERC7984.asCustody Scenario.token) Scenario.ledger
       (after (ERC7984.asCustody Scenario.token) Scenario.ledger
          [Scenario.stakes Scenario.alice 300000] 1 Scenario.live)
       (Unstake Scenario.alice (Cipher 5%N 600000)))
  = totalStaked (after (ERC7984.asCustody Scenario.token) Scenario.ledger
                   [Scenario.stakes Scenario.alice 300000] 1 Scenario.live) ∧
  ∀ a, Scenario.custodyOf
         (transact (ERC7984.asCustody Scenario.token) Scenario.ledger
            (after (ERC7984.asCustody Scenario.token) Scenario.ledger
               [Scenario.stakes Scenario.alice 300000] 1 Scenario.live)
            (Unstake Scenario.alice (Cipher 5%N 600000))) a
       = Scenario.custodyOf
           (after (ERC7984.asCustody Scenario.token) Scenario.ledger
              [Scenario.stakes Scenario.alice 300000] 1 Scenario.live) a.
Proof.
  split; [by vm_compute|].
  refine (unstake_above_stake_moves_nothing (ERC7984.asCustody Scenario.token)
            Scenario.ledger (λ t a, decrypt (ERC7984.confidentialBalanceOf t a))
            (after (ERC7984.asCustody Scenario.token) Scenario.ledger
               [Scenario.stakes Scenario.alice 300000] 1 Scenario.live)
            Scenario.alice (Cipher 5%N 600000) _ _).
  - apply ERC7984_idleOnZero.
  - by vm_compute.
Defined.

(** In that scenario the call returns: the token hands back an encrypted
    zero. *)
Example unstake_above_stake_returns :
  match _unstake (ERC7984.asCustody Scenario.token) Scenario.ledger Scenario.alice
          (Cipher 5%N 600000)
          (after (ERC7984.asCustody Scenario.token) Scenario.ledger
             [Scenario.stakes Scenario.alice 300000] 1 Scenario.live) with
  | Ok transferred _ => decrypt transferred = 0
  | Revert _ _ => False
  end.
Proof. by vm_compute. Qed.

(** Alice, funded, asks for 5 back before anybody staked: the request is
    above her stake of zero, the ledger asks the token to transfer an
    encrypted zero out of a balance it never held, the token refuses and the
    call reverts. *)
Lemma unstake_above_stake_reverts_with_token :
  staked Scenario.live Scenario.alice < decrypt (Cipher 5%N 5) ∧
  match _unstake (ERC7984.asCustody Scenario.token) Scenario.ledger Scenario.alice
          (Cipher 5%N 5) Scenario.live with
  | Ok _ _ => False
  | Revert e _ => e = CustodyReverted
  end ∧
  match dispatch (ERC7984.asCustody Scenario.token) Scenario.ledger
          (Scenario.unstakes Scenario.alice 5) Scenario.live with
  | Ok _ _ => False
  | Revert e _ => e = CustodyReverted
  end.
Proof. by vm_compute. Qed.

(** The stand-in token only ever adds grants. *)
Lemma _transfer_additive (self from to : address) (amount v : euint64)
    (t t' : ERC7984.State) (s s' : FHE.State) :
  ERC7984._transfer self from to amount t s = Some (v, t', s') →
  FHE.persistent s ⊆ FHE.persistent s'.
Proof.
  unfold ERC7984._transfer.
  destruct (FHE.isInitialized (ERC7984.confidentialBalanceOf t from)); [|done]. cbn.
  destruct (tryDecrease_spec (ERC7984.confidentialBalanceOf t from) amount s)
    as (ok & ptr & s1 & Hrun & _ & _ & _ & Hp1 & _).
  rewrite Hrun.
  match goal with
  | |- context [FHE.asEuint64 0 ?st] =>
      destruct (asEuint64_spec 0 st) as (zero & sz & HrunZ & _ & _ & HpZ & _)
  end.
  rewrite HrunZ.
  destruct (select_spec ok amount zero sz) as (moved & sm & HrunM & _ & _ & HpM & _).
  rewrite HrunM. unfold ERC7984.credit.
  match goal with
  | |- context [FHE.add ?a ?b ?st] =>
      destruct (add_spec a b st) as (ptr2 & s2 & HrunC & _ & _ & HpC)
  end.
  rewrite HrunC. cbn. intros [= _ _ <-]. cbn.
  do 5 apply grants_kept. rewrite HpC, HpM, HpZ. cbn.
  do 2 apply grants_kept. by rewrite Hp1.
Qed.

Lemma ERC7984_additive (self : address) : additive (ERC7984.asCustody self).
Proof.
  intros caller from to amount t s v t' s'. simpl. split.
  - unfold ERC7984.transferFrom.
    destruct (ERC7984.isOperator from caller t); [|done]. simpl.
    destruct (ERC7984._transfer self from to amount t s) as [[[x u] z]|] eqn:Hmove; [|done].
    intros [= _ _ <-]. simpl. by eapply _transfer_additive.
  - apply _transfer_additive.
Qed.


(** ** Obliviousness *)

(** Two runs of a computation are compared step by step: a bind of
    indistinguishable computations is indistinguishable, reads return
    related values from ledgers of the same shape, writes keep the shape,
    and a call into the primitive or into the token leaves the same log
    behind when it is given the same handles. *)

Section Oblivious.

Context (C : Custody).
Variable this : address.
Variable R : cstate C → cstate C → Prop.

Lemma balance_handles (w1 w2 : World C) (staker : address) :
  sameShape C R w1 w2 →
  sameHandle (stakedBalanceOf C w1 staker) (stakedBalanceOf C w2 staker).
Proof.
  intros (_ & Hmaps & _). unfold sameHandle, stakedBalanceOf.
  assert (Hl : handleOf <$> (_stakedBalances w1 !! staker)
               = handleOf <$> (_stakedBalances w2 !! staker))
    by (by rewrite <- !lookup_fmap, Hmaps).
  destruct (_stakedBalances w1 !! staker), (_stakedBalances w2 !! staker);
    simpl in *; congruence.
Qed.

Lemma ind_ret {A} (RA : A → A → Prop) (a1 a2 : A) :
  RA a1 a2 → indistinguishable C R RA (mret a1) (mret a2).
Proof. by intros Ha w1 w2 Hw. Qed.

Lemma ind_bind {A B} (RA : A → A → Prop) (RB : B → B → Prop)
    (m1 m2 : M C A) (k1 k2 : A → M C B) :
  indistinguishable C R RA m1 m2 →
  (∀ a1 a2, RA a1 a2 → indistinguishable C R RB (k1 a1) (k2 a2)) →
  indistinguishable C R RB (m1 ≫= k1) (m2 ≫= k2).
Proof.
  intros Hm Hk w1 w2 Hw. specialize (Hm w1 w2 Hw).
  unfold mbind, M_bind, alike in *.
  destruct (m1 w1) as [x1 w1'|e1 w1'], (m2 w2) as [x2 w2'|e2 w2']; try done.
  destruct Hm as [Hx Hw']. by apply Hk.
Qed.

Lemma ind_read {A} (RA : A → A → Prop) (f1 f2 : World C → A) :
  (∀ w1 w2, sameShape C R w1 w2 → RA (f1 w1) (f2 w2)) →
  indistinguishable C R RA (read C f1) (read C f2).
Proof. intros Hf w1 w2 Hw. split; [by apply Hf|done]. Qed.

Lemma ind_write (f1 f2 : World C → World C) :
  (∀ w1 w2, sameShape C R w1 w2 → sameShape C R (f1 w1) (f2 w2)) →
  indistinguishable C R (λ _ _, True) (write C f1) (write C f2).
Proof. intros Hf w1 w2 Hw. split; [done|by apply Hf]. Qed.

Lemma ind_prim {A} (RA : A → A → Prop) (op1 op2 : FHE.State → A * FHE.State) :
  (∀ s, RA (fst (op1 s)) (fst (op2 s)) ∧ snd (op1 s) = snd (op2 s)) →
  indistinguishable C R RA (prim C op1) (prim C op2).
Proof.
  intros Hop w1 w2 Hw. unfold prim.
  destruct Hw as (Htok & Hbal & Htot & Hev & Hfhe & HR). rewrite <- Hfhe.
  destruct (Hop (fhe w1)) as [Ha Hs].
  destruct (op1 (fhe w1)) as [x1 s1], (op2 (fhe w1)) as [x2 s2]. simpl in *. subst s2.
  by repeat split.
Qed.

Lemma ind_external (f1 f2 : cstate C → FHE.State → option (euint64 * cstate C * FHE.State)) :
  (∀ c1 c2 s, R c1 c2 → sameAnswer C R (f1 c1 s) (f2 c2 s)) →
  indistinguishable C R sameHandle (external C f1) (external C f2).
Proof.
  intros Hf w1 w2 Hw. unfold external.
  pose proof Hw as (Htok & Hbal & Htot & Hev & Hfhe & HR). rewrite <- Hfhe.
  specialize (Hf (custody w1) (custody w2) (fhe w1) HR). unfold sameAnswer in Hf.
  destruct (f1 (custody w1) (fhe w1)) as [[[v1 c1] s1]|],
           (f2 (custody w2) (fhe w1)) as [[[v2 c2] s2]|]; try done.
  destruct Hf as (Hv & Hc & ->). by repeat split.
Qed.

Lemma tryIncrease_shape (o1 o2 d1 d2 : euint64) (s : FHE.State) :
  sameHandle o1 o2 → sameHandle d1 d2 →
  sameHandle (snd (fst (FHESafeMath.tryIncrease o1 d1 s)))
             (snd (fst (FHESafeMath.tryIncrease o2 d2 s))) ∧
  snd (FHESafeMath.tryIncrease o1 d1 s) = snd (FHESafeMath.tryIncrease o2 d2 s).
Proof.
  unfold sameHandle, FHESafeMath.tryIncrease, FHE.add, FHE.ge, FHE.select. simpl.
  by intros -> ->.
Qed.

Lemma tryDecrease_shape (o1 o2 d1 d2 : euint64) (s : FHE.State) :
  sameHandle o1 o2 → sameHandle d1 d2 →
  (FHE.flagHandle (fst (fst (FHESafeMath.tryDecrease o1 d1 s)))
   = FHE.flagHandle (fst (fst (FHESafeMath.tryDecrease o2 d2 s))) ∧
   sameHandle (snd (fst (FHESafeMath.tryDecrease o1 d1 s)))
              (snd (fst (FHESafeMath.tryDecrease o2 d2 s)))) ∧
  snd (FHESafeMath.tryDecrease o1 d1 s) = snd (FHESafeMath.tryDecrease o2 d2 s).
Proof.
  unfold sameHandle, FHESafeMath.tryDecrease, FHE.ge, FHE.sub, FHE.select. simpl.
  by intros -> ->.
Qed.

Lemma allow_shape (v1 v2 : euint64) (account : address) (s : FHE.State) :
  sameHandle v1 v2 →
  True ∧ snd (FHE.allow v1 account s) = snd (FHE.allow v2 account s).
Proof. unfold sameHandle, FHE.allow. simpl. by intros ->. Qed.

Lemma allowTransient_shape (v1 v2 : euint64) (account : address) (s : FHE.State) :
  sameHandle v1 v2 →
  True ∧ snd (FHE.allowTransient v1 account s) = snd (FHE.allowTransient v2 account s).
Proof. unfold sameHandle, FHE.allowTransient. simpl. by intros ->. Qed.

Lemma isInitialized_shape (v1 v2 : euint64) :
  sameHandle v1 v2 → FHE.isInitialized v1 = FHE.isInitialized v2.
Proof. unfold sameHandle, FHE.isInitialized. by intros ->. Qed.

Lemma setBalance_shape (staker : address) (v1 v2 : euint64) (w1 w2 : World C) :
  sameHandle v1 v2 → sameShape C R w1 w2 →
  sameShape C R (setBalance C staker v1 w1) (setBalance C staker v2 w2).
Proof.
  intros Hv (Htok & Hbal & Htot & Hev & Hfhe & HR). repeat split; try done. simpl.
  rewrite !fmap_insert. by rewrite Hbal, Hv.
Qed.

Lemma setTotal_shape (v1 v2 : euint64) (w1 w2 : World C) :
  sameHandle v1 v2 → sameShape C R w1 w2 →
  sameShape C R (setTotal C v1 w1) (setTotal C v2 w2).
Proof. intros Hv (Htok & Hbal & Htot & Hev & Hfhe & HR). by repeat split. Qed.

Lemma addEvent_shape (e1 e2 : Event) (w1 w2 : World C) :
  shapeOf e1 = shapeOf e2 → sameShape C R w1 w2 →
  sameShape C R (addEvent C e1 w1) (addEvent C e2 w2).
Proof.
  intros He (Htok & Hbal & Htot & Hev & Hfhe & HR). repeat split; try done.
  unfold addEvent. cbn [emitted]. rewrite !fmap_cons. by f_equal.
Qed.

Lemma select_shape (c1 c2 : ebool) (a1 a2 b1 b2 : euint64) (s : FHE.State) :
  FHE.flagHandle c1 = FHE.flagHandle c2 → sameHandle a1 a2 → sameHandle b1 b2 →
  sameHandle (fst (FHE.select c1 a1 b1 s)) (fst (FHE.select c2 a2 b2 s)) ∧
  snd (FHE.select c1 a1 b1 s) = snd (FHE.select c2 a2 b2 s).
Proof. unfold sameHandle, FHE.select. simpl. by intros -> -> ->. Qed.

Ltac same_prim RA lem :=
  eapply ind_bind; [apply (ind_prim RA); intros ?; by apply lem|].

Lemma grant_oblivious (v1 v2 : euint64) (account : address) :
  sameHandle v1 v2 →
  indistinguishable C R (λ _ _, True)
    (prim C (FHE.allow v1 account)) (prim C (FHE.allow v2 account)).
Proof. intros Hv. apply (ind_prim (λ _ _, True)). intros s. by apply allow_shape. Qed.

Lemma _increaseTotal_oblivious (a1 a2 : euint64) (actor : address) :
  sameHandle a1 a2 →
  indistinguishable C R (λ _ _, True)
    (_increaseTotal C this a1 actor) (_increaseTotal C this a2 actor).
Proof.
  intros Ha. unfold _increaseTotal.
  eapply ind_bind; [apply (ind_read sameHandle); by intros w1 w2 (_ & _ & ? & _)|].
  intros t1 t2 Ht.
  eapply ind_bind; [apply (ind_prim (λ p1 p2, sameHandle (snd p1) (snd p2)));
                    intros s; by apply tryIncrease_shape|].
  intros [ok1 u1] [ok2 u2] Hu. simpl in Hu.
  eapply ind_bind; [by apply grant_oblivious|]. intros _ _ _.
  eapply (ind_bind (λ _ _, True)).
  { destruct (negb (actor =? 0)%N); [by apply grant_oblivious|by apply ind_ret]. }
  intros _ _ _. apply ind_write. intros w1 w2 Hw. by apply setTotal_shape.
Qed.

Lemma _decreaseTotal_oblivious (a1 a2 : euint64) (actor : address) :
  sameHandle a1 a2 →
  indistinguishable C R (λ _ _, True)
    (_decreaseTotal C this a1 actor) (_decreaseTotal C this a2 actor).
Proof.
  intros Ha. unfold _decreaseTotal.
  eapply ind_bind; [apply (ind_read sameHandle); by intros w1 w2 (_ & _ & ? & _)|].
  intros t1 t2 Ht.
  eapply ind_bind.
  { apply (ind_prim (λ p1 p2, sameHandle (snd p1) (snd p2))). intros s.
    by destruct (tryDecrease_shape t1 t2 a1 a2 s Ht Ha) as [[_ ?] ?]. }
  intros [ok1 u1] [ok2 u2] Hu. simpl in Hu.
  eapply ind_bind; [by apply grant_oblivious|]. intros _ _ _.
  eapply (ind_bind (λ _ _, True)).
  { destruct (negb (actor =? 0)%N); [by apply grant_oblivious|by apply ind_ret]. }
  intros _ _ _. apply ind_write. intros w1 w2 Hw. by apply setTotal_shape.
Qed.

Lemma _applyIncrease_oblivious (staker : address) (a1 a2 : euint64) :
  sameHandle a1 a2 →
  indistinguishable C R sameHandle
    (_applyIncrease C this staker a1) (_applyIncrease C this staker a2).
Proof.
  intros Ha. unfold _applyIncrease. rewrite <- (isInitialized_shape a1 a2 Ha).
  destruct (negb (FHE.isInitialized a1)); [by apply ind_ret|].
  eapply ind_bind; [apply (ind_read sameHandle); intros w1 w2 Hw; by apply balance_handles|].
  intros c1 c2 Hc.
  eapply ind_bind; [apply (ind_prim (λ p1 p2, sameHandle (snd p1) (snd p2)));
                    intros s; by apply tryIncrease_shape|].
  intros [ok1 u1] [ok2 u2] Hu. simpl in Hu.
  eapply ind_bind; [by apply grant_oblivious|]. intros _ _ _.
  eapply ind_bind; [by apply grant_oblivious|]. intros _ _ _.
  eapply ind_bind; [apply ind_write; intros w1 w2 Hw; by apply setBalance_shape|].
  intros _ _ _.
  eapply ind_bind; [by apply _increaseTotal_oblivious|]. intros _ _ _.
  eapply ind_bind.
  { apply ind_write. intros w1 w2 Hw. apply addEvent_shape; [|done].
    simpl. by rewrite Ha, Hu. }
  intros _ _ _. by apply ind_ret.
Qed.

Lemma _stake_oblivious (staker : address) (a1 a2 : euint64) :
  oblivious C R → sameHandle a1 a2 →
  indistinguishable C R sameHandle (_stake C this staker a1) (_stake C this staker a2).
Proof.
  intros Hobl Ha. unfold _stake.
  eapply ind_bind; [apply (ind_read eq); by intros w1 w2 (? & _)|].
  intros tok ? <-.
  eapply (ind_bind (λ _ _, True)).
  { rewrite <- (isInitialized_shape a1 a2 Ha).
    destruct (FHE.isInitialized a1); [|by apply ind_ret].
    apply (ind_prim (λ _ _, True)). intros s. by apply allowTransient_shape. }
  intros _ _ _.
  eapply ind_bind.
  { apply ind_external. intros c1 c2 s Hc.
    by destruct (Hobl this staker this a1 a2 c1 c2 s Ha Hc) as [? _]. }
  intros v1 v2 Hv. by apply _applyIncrease_oblivious.
Qed.

Lemma _unstake_oblivious (staker : address) (a1 a2 : euint64) :
  oblivious C R → sameHandle a1 a2 →
  indistinguishable C R sameHandle (_unstake C this staker a1) (_unstake C this staker a2).
Proof.
  intros Hobl Ha. unfold _unstake.
  eapply ind_bind; [apply (ind_read sameHandle); intros w1 w2 Hw; by apply balance_handles|].
  intros c1 c2 Hc.
  eapply ind_bind.
  { apply (ind_prim (λ p1 p2, FHE.flagHandle (fst p1) = FHE.flagHandle (fst p2)
                              ∧ sameHandle (snd p1) (snd p2))).
    intros s. by apply tryDecrease_shape. }
  intros [ok1 u1] [ok2 u2] [Hok Hu]. simpl in Hok, Hu.
  eapply ind_bind; [apply (ind_prim sameHandle); by intros s|].
  intros z1 z2 Hz.
  eapply ind_bind; [apply (ind_prim sameHandle); intros s; by apply select_shape|].
  intros x1 x2 Hx.
  eapply ind_bind; [by apply grant_oblivious|]. intros _ _ _.
  eapply ind_bind; [by apply grant_oblivious|]. intros _ _ _.
  eapply ind_bind; [apply ind_write; intros w1 w2 Hw; by apply setBalance_shape|].
  intros _ _ _.
  eapply ind_bind; [by apply _decreaseTotal_oblivious|]. intros _ _ _.
  eapply ind_bind; [apply (ind_read eq); by intros w1 w2 (? & _)|].
  intros tok ? <-.
  eapply (ind_bind (λ _ _, True)).
  { rewrite <- (isInitialized_shape x1 x2 Hx).
    destruct (FHE.isInitialized x1); [|by apply ind_ret].
    apply (ind_prim (λ _ _, True)). intros s. by apply allowTransient_shape. }
  intros _ _ _.
  eapply ind_bind.
  { apply ind_external. intros k1 k2 s Hk.
    by destruct (Hobl this staker staker x1 x2 k1 k2 s Hx Hk) as [_ ?]. }
  intros v1 v2 Hv.
  eapply ind_bind.
  { apply ind_write. intros w1 w2 Hw. apply addEvent_shape; [|done].
    simpl. by rewrite Hv, Hu. }
  intros _ _ _. by apply ind_ret.
Qed.

Lemma fromExternal_oblivious (e1 e2 : FHE.externalEuint64) (proof : FHE.inputProof) :
  indistinguishable C R sameHandle (fromExternal C e1 proof) (fromExternal C e2 proof).
Proof.
  intros w1 w2 Hw. unfold fromExternal, FHE.fromExternal.
  pose proof Hw as (Htok & Hbal & Htot & Hev & Hfhe & HR). rewrite <- Hfhe.
  destruct (FHE.accepted proof); by repeat split.
Qed.

Lemma gated_oblivious (caller : address) (a1 a2 : euint64) (m1 m2 : M C euint64) :
  sameHandle a1 a2 →
  indistinguishable C R sameHandle m1 m2 →
  indistinguishable C R sameHandle
    (allowed ← read C (λ w, FHE.isAllowed a1 caller (fhe w));
     if negb allowed then revert C (UnauthorizedEncryptedAmount caller) else m1)
    (allowed ← read C (λ w, FHE.isAllowed a2 caller (fhe w));
     if negb allowed then revert C (UnauthorizedEncryptedAmount caller) else m2).
Proof.
  intros Ha Hm.
  eapply (ind_bind eq).
  - apply ind_read. intros w1 w2 (_ & _ & _ & _ & Hfhe & _).
    unfold FHE.isAllowed. by rewrite Ha, Hfhe.
  - intros allowed ? <-. destruct (negb allowed); [|done].
    intros w1 w2 Hw. by split.
Qed.

Lemma dispatch_oblivious (c1 c2 : Call) :
  oblivious C R → sameCall c1 c2 →
  indistinguishable C R sameHandle (dispatch C this c1) (dispatch C this c2).
Proof.
  intros Hobl Hc.
  destruct c1 as [s1 e1 p1|s1 v1|s1 e1 p1|s1 v1], c2 as [s2 e2 p2|s2 v2|s2 e2 p2|s2 v2];
    try done; destruct Hc as [<- Hc]; simpl.
  - subst p2. unfold stake_external.
    eapply ind_bind; [apply fromExternal_oblivious|].
    intros a1 a2 Ha. by apply _stake_oblivious.
  - apply gated_oblivious; [done|]. by apply _stake_oblivious.
  - subst p2. unfold unstake_external.
    eapply ind_bind; [apply fromExternal_oblivious|].
    intros a1 a2 Ha. by apply _unstake_oblivious.
  - apply gated_oblivious; [done|]. by apply _unstake_oblivious.
Qed.

Lemma transact_oblivious (c1 c2 : Call) (w1 w2 : World C) :
  oblivious C R → sameCall c1 c2 → sameShape C R w1 w2 →
  sameShape C R (transact C this w1 c1) (transact C this w2 c2).
Proof.
  intros Hobl Hc Hw. pose proof (dispatch_oblivious c1 c2 Hobl Hc w1 w2 Hw) as Hrun.
  unfold transact, alike in *.
  destruct (dispatch C this c1 w1) as [v1 x1|e1 x1],
           (dispatch C this c2 w2) as [v2 x2|e2 x2]; try done.
  destruct Hrun as (_ & Htok & Hbal & Htot & Hev & Hfhe & HR).
  repeat split; try done. simpl. by rewrite Hfhe.
Qed.

Lemma execute_oblivious (calls1 calls2 : list Call) (w1 w2 : World C) :
  oblivious C R → Forall2 sameCall calls1 calls2 → sameShape C R w1 w2 →
  sameShape C R (execute C this calls1 w1) (execute C this calls2 w2).
Proof.
  intros Hobl Hcalls. revert w1 w2.
  induction Hcalls as [|c1 c2 l1 l2 Hc _ IH]; intros w1 w2 Hw; [done|].
  simpl. apply IH. by apply transact_oblivious.
Qed.

(** C5: [stake] and [unstake] do not branch on payloads.  Run from two
    ledgers that show the same handles, grants and operation log (and
    against a token that does not branch on payloads either), with amounts
    behind the same handle, [_stake], [_applyIncrease] and [_unstake] return
    together or revert together with the same error, leave ledgers of the
    same shape, and have issued the same sequence of homomorphic operations,
    whatever the payloads make of the safety flags; and so do whole
    sequences of calls through the entry points. *)
Theorem paths_do_not_branch_on_payloads
    (w1 w2 : World C) (staker : address) (a1 a2 : euint64) :
  oblivious C R → sameShape C R w1 w2 → sameHandle a1 a2 →
  (sameOutcome C R (_stake C this staker a1 w1) (_stake C this staker a2 w2) ∧
   issued (_stake C this staker a1 w1) = issued (_stake C this staker a2 w2)) ∧
  (sameOutcome C R (_applyIncrease C this staker a1 w1)
                   (_applyIncrease C this staker a2 w2) ∧
   issued (_applyIncrease C this staker a1 w1)
   = issued (_applyIncrease C this staker a2 w2)) ∧
  (sameOutcome C R (_unstake C this staker a1 w1) (_unstake C this staker a2 w2) ∧
   issued (_unstake C this staker a1 w1) = issued (_unstake C this staker a2 w2)) ∧
  ∀ calls1 calls2,
    Forall2 sameCall calls1 calls2 →
    sameShape C R (execute C this calls1 w1) (execute C this calls2 w2).
Proof.
  intros Hobl Hw Ha.
  assert (Hissued : ∀ r1 r2 : Result C euint64,
             sameOutcome C R r1 r2 → sameOutcome C R r1 r2 ∧ issued r1 = issued r2).
  { intros [v1 x1|e1 x1] [v2 x2|e2 x2] Hr; try done; split; try done;
      destruct Hr as (_ & _ & _ & _ & _ & Hfhe & _); simpl; by rewrite Hfhe. }
  split; [|split; [|split]].
  - by apply Hissued, _stake_oblivious.
  - by apply Hissued, _applyIncrease_oblivious.
  - by apply Hissued, _unstake_oblivious.
  - intros calls1 calls2 Hcalls. by apply execute_oblivious.
Qed.

End Oblivious.

(** *** The stand-in token is oblivious *)

Lemma token_balance_handles (t1 t2 : ERC7984.State) (account : address) :
  sameToken t1 t2 →
  sameHandle (ERC7984.confidentialBalanceOf t1 account)
             (ERC7984.confidentialBalanceOf t2 account).
Proof.
  intros (Hmaps & _). unfold sameHandle, ERC7984.confidentialBalanceOf.
  assert (Hl : handleOf <$> (ERC7984._balances t1 !! account)
               = handleOf <$> (ERC7984._balances t2 !! account))
    by (by rewrite <- !lookup_fmap, Hmaps).
  destruct (ERC7984._balances t1 !! account), (ERC7984._balances t2 !! account);
    simpl in *; congruence.
Qed.

Lemma credit_oblivious (self to : address) (v1 v2 : euint64)
    (t1 t2 : ERC7984.State) (s : FHE.State) :
  sameHandle v1 v2 → sameToken t1 t2 →
  sameToken (fst (ERC7984.credit self to v1 t1 s)) (fst (ERC7984.credit self to v2 t2 s)) ∧
  snd (ERC7984.credit self to v1 t1 s) = snd (ERC7984.credit self to v2 t2 s).
Proof.
  intros Hv Ht. pose proof (token_balance_handles t1 t2 to Ht) as Hto.
  destruct Ht as (Hbal & Hsup & Hop). unfold sameHandle in *.
  unfold ERC7984.credit, FHE.add, FHE.allow. cbn. rewrite Hto, Hv. split; [|done].
  repeat split; try done. cbn. by rewrite !fmap_insert, Hbal.
Qed.

Arguments ERC7984.credit : simpl never.

Lemma _transfer_oblivious (self from to : address) (v1 v2 : euint64)
    (t1 t2 : ERC7984.State) (s : FHE.State) :
  sameHandle v1 v2 → sameToken t1 t2 →
  sameAnswer (ERC7984.asCustody self) sameToken
    (ERC7984._transfer self from to v1 t1 s) (ERC7984._transfer self from to v2 t2 s).
Proof.
  intros Hv Ht. pose proof (token_balance_handles t1 t2 from Ht) as Hfrom.
  unfold ERC7984._transfer.
  rewrite <- (isInitialized_shape _ _ Hfrom).
  destruct (FHE.isInitialized (ERC7984.confidentialBalanceOf t1 from)); [|done].
  unfold FHESafeMath.tryDecrease, FHE.ge, FHE.sub, FHE.select, FHE.asEuint64, FHE.allow.
  cbn. unfold sameHandle in Hfrom, Hv. rewrite <- Hfrom, <- Hv.
  match goal with
  | |- context [ERC7984.credit self to ?x1 ?u1 ?st] =>
      match goal with
      | |- context [ERC7984.credit self to ?x2 ?u2 st] =>
          lazymatch x2 with
          | x1 => fail
          | _ => destruct (credit_oblivious self to x1 x2 u1 u2 st) as [Hcredit Hstate]
          end
      end
  end.
  - done.
  - destruct Ht as (Hbal & Hsup & Hop). repeat split; try done. cbn.
    by rewrite !fmap_insert, Hbal.
  - destruct (ERC7984.credit self to _ _ _) as [u1 z1],
             (ERC7984.credit self to _ _ _) as [u2 z2].
    simpl in *. subst z2. split; [done|]. split; [exact Hcredit|done].
Qed.

Lemma ERC7984_oblivious (self : address) :
  oblivious (ERC7984.asCustody self) sameToken.
Proof.
  intros caller from to v1 v2 t1 t2 s Hv Ht. simpl. split.
  - unfold ERC7984.transferFrom.
    assert (Hop : ERC7984.isOperator from caller t1 = ERC7984.isOperator from caller t2).
    { unfold ERC7984.isOperator. by destruct Ht as (_ & _ & ->). }
    rewrite <- Hop. destruct (ERC7984.isOperator from caller t1); [|done]. simpl.
    pose proof (_transfer_oblivious self from to v1 v2 t1 t2 s Hv Ht) as Hmove.
    unfold sameAnswer in *.
    destruct (ERC7984._transfer self from to v1 t1 s) as [[[x1 u1] z1]|],
             (ERC7984._transfer self from to v2 t2 s) as [[[x2 u2] z2]|]; try done.
    destruct Hmove as (Hx & Hu & ->). unfold FHE.allowTransient. simpl.
    unfold sameHandle in Hx. by rewrite Hx.
  - by apply _transfer_oblivious.
Qed.


(** Alice stakes 300000 in one run and 700000 in the other, and asks for
    500000 back: the decrease is skipped in the first run and applied in the
    second; the two ledgers look alike all the same. *)
Lemma paths_do_not_branch_on_payloads_witness :
  sameShape (ERC7984.asCustody Scenario.token) sameToken Scenario.live Scenario.live ∧
  sameHandle (Cipher 5%N 5) (Cipher 5%N 5) ∧
  sameShape (ERC7984.asCustody Scenario.token) sameToken
    (execute (ERC7984.asCustody Scenario.token) Scenario.ledger
       [Scenario.stakes Scenario.alice 300000; Scenario.unstakes Scenario.alice 500000]
       Scenario.live)
    (execute (ERC7984.asCustody Scenario.token) Scenario.ledger
       [Scenario.stakes Scenario.alice 700000; Scenario.unstakes Scenario.alice 500000]
       Scenario.live).
Proof.
  assert (Hshape : sameShape (ERC7984.asCustody Scenario.token) sameToken
                     Scenario.live Scenario.live) by (by repeat split).
  split; [exact Hshape|]. split; [reflexivity|].
  refine (proj2 (proj2 (proj2 (paths_do_not_branch_on_payloads
                                 (ERC7984.asCustody Scenario.token) Scenario.ledger sameToken
                                 Scenario.live Scenario.live Scenario.alice
                                 (Cipher 5%N 5) (Cipher 5%N 5)
                                 (ERC7984_oblivious Scenario.token) Hshape eq_refl))) _ _ _).
  by repeat constructor.
Defined.

(** In the two runs above the decrease is skipped in one and applied in
    the other. *)
Example unstake_runs_differ_in_payloads :
  staked (execute (ERC7984.asCustody Scenario.token) Scenario.ledger
            [Scenario.stakes Scenario.alice 300000; Scenario.unstakes Scenario.alice 500000]
            Scenario.live) Scenario.alice = 300000 ∧
  staked (execute (ERC7984.asCustody Scenario.token) Scenario.ledger
            [Scenario.stakes Scenario.alice 700000; Scenario.unstakes Scenario.alice 500000]
            Scenario.live) Scenario.alice = 200000.
Proof. by vm_compute. Qed.

(** ** The scenarios of the test suite *)

(** Stake 400000 out of 1000000. *)
Example scenario_stake :
  (staked (execute (ERC7984.asCustody Scenario.token) Scenario.ledger
             [Scenario.stakes Scenario.alice 400000] Scenario.live) Scenario.alice,
   totalStaked (execute (ERC7984.asCustody Scenario.token) Scenario.ledger
                  [Scenario.stakes Scenario.alice 400000] Scenario.live),
   Scenario.custodyOf (execute (ERC7984.asCustody Scenario.token) Scenario.ledger
                         [Scenario.stakes Scenario.alice 400000] Scenario.live)
     Scenario.alice)
  = (400000, 400000, 600000).
Proof. by vm_compute. Qed.

(** Stake 750000, then unstake 250000. *)
Example scenario_unstake_part :
  (staked (execute (ERC7984.asCustody Scenario.token) Scenario.ledger
             [Scenario.stakes Scenario.alice 750000; Scenario.unstakes Scenario.alice 250000]
             Scenario.live) Scenario.alice,
   totalStaked (execute (ERC7984.asCustody Scenario.token) Scenario.ledger
                  [Scenario.stakes Scenario.alice 750000;
                   Scenario.unstakes Scenario.alice 250000] Scenario.live),
   Scenario.custodyOf (execute (ERC7984.asCustody Scenario.token) Scenario.ledger
                         [Scenario.stakes Scenario.alice 750000;
                          Scenario.unstakes Scenario.alice 250000] Scenario.live)
     Scenario.alice)
  = (500000, 500000, 500000).
Proof. by vm_compute. Qed.

(** Stake 300000, then try to unstake 600000. *)
Example scenario_unstake_above_stake :
  (staked (execute (ERC7984.asCustody Scenario.token) Scenario.ledger
             [Scenario.stakes Scenario.alice 300000; Scenario.unstakes Scenario.alice 600000]
             Scenario.live) Scenario.alice,
   totalStaked (execute (ERC7984.asCustody Scenario.token) Scenario.ledger
                  [Scenario.stakes Scenario.alice 300000;
                   Scenario.unstakes Scenario.alice 600000] Scenario.live),
   Scenario.custodyOf (execute (ERC7984.asCustody Scenario.token) Scenario.ledger
                         [Scenario.stakes Scenario.alice 300000;
                          Scenario.unstakes Scenario.alice 600000] Scenario.live)
     Scenario.alice)
  = (300000, 300000, 700000).
Proof. by vm_compute. Qed.

(** Two accounts stake 400000 and 350000. *)
Example scenario_two_stakers :
  (staked (execute (ERC7984.asCustody Scenario.token) Scenario.ledger
             [Scenario.stakes Scenario.alice 400000; Scenario.stakes Scenario.bob 350000]
             Scenario.liveBoth) Scenario.alice,
   staked (execute (ERC7984.asCustody Scenario.token) Scenario.ledger
             [Scenario.stakes Scenario.alice 400000; Scenario.stakes Scenario.bob 350000]
             Scenario.liveBoth) Scenario.bob,
   totalStaked (execute (ERC7984.asCustody Scenario.token) Scenario.ledger
                  [Scenario.stakes Scenario.alice 400000;
                   Scenario.stakes Scenario.bob 350000] Scenario.liveBoth))
  = (400000, 350000, 750000).
Proof. by vm_compute. Qed.

(** * Further properties of the ledger *)

Section Ledger.

Context (C : Custody).
Variable this : address.

Ltac step_monad :=
  unfold mbind, M_bind, mret, M_ret, prim, read, write, emit, revert; cbn.

#[local] Arguments _increaseTotal : simpl never.
#[local] Arguments _decreaseTotal : simpl never.

Lemma _increaseTotal_grants (amount : euint64) (actor : address) (w : World C) :
  ∃ updatedTotal s',
    _increaseTotal C this amount actor w
    = Ok tt (MkWorld C (methToken w) (_stakedBalances w) updatedTotal
               (emitted w) s' (custody w)) ∧
    FHE.persistent s'
    = (if (actor =? 0)%N then ∅ else {[ (handleOf updatedTotal, actor) ]})
      ∪ ({[ (handleOf updatedTotal, this) ]} ∪ FHE.persistent (fhe w)) ∧
    FHE.transient s' = FHE.transient (fhe w).
Proof.
  destruct (tryIncrease_spec (_totalStaked w) amount (fhe w))
    as (ok & upd & s1 & Hrun & _ & Hval & Hinit & Hp & Ht).
  unfold _increaseTotal. step_monad. rewrite Hrun. cbn.
  destruct (N.eqb_spec actor 0) as [->|Hactor]; cbn;
    eexists _, _; (split; [reflexivity|]); cbn; rewrite Hp, Ht; split; try done.
  by rewrite (left_id_L ∅ (∪)).
Qed.

Lemma _decreaseTotal_grants (amount : euint64) (actor : address) (w : World C) :
  ∃ updatedTotal s',
    _decreaseTotal C this amount actor w
    = Ok tt (MkWorld C (methToken w) (_stakedBalances w) updatedTotal
               (emitted w) s' (custody w)) ∧
    FHE.persistent s'
    = (if (actor =? 0)%N then ∅ else {[ (handleOf updatedTotal, actor) ]})
      ∪ ({[ (handleOf updatedTotal, this) ]} ∪ FHE.persistent (fhe w)) ∧
    FHE.transient s' = FHE.transient (fhe w).
Proof.
  destruct (tryDecrease_spec (_totalStaked w) amount (fhe w))
    as (ok & upd & s1 & Hrun & _ & Hval & Hinit & Hp & Ht).
  unfold _decreaseTotal. step_monad. rewrite Hrun. cbn.
  destruct (N.eqb_spec actor 0) as [->|Hactor]; cbn;
    eexists _, _; (split; [reflexivity|]); cbn; rewrite Hp, Ht; split; try done.
  by rewrite (left_id_L ∅ (∪)).
Qed.

Lemma ownGrants_union (staker : address) (balance total : euint64)
    (X : gset (handle * address)) :
  (if (staker =? 0)%N then ∅ else {[ (handleOf total, staker) ]})
  ∪ ({[ (handleOf total, this) ]}
     ∪ ({[ (handleOf balance, staker) ]} ∪ ({[ (handleOf balance, this) ]} ∪ X)))
  = ownGrants this staker balance total ∪ X.
Proof. unfold ownGrants. destruct (staker =? 0)%N; set_solver. Qed.

(** [_applyIncrease] on an initialized amount, with the grants it leaves. *)
Lemma _applyIncrease_run (staker : address) (amount : euint64) (w : World C) :
  FHE.isInitialized amount = true →
  ∃ updatedStake updatedTotal s',
    _applyIncrease C this staker amount w
    = Ok amount (MkWorld C (methToken w) (<[staker := updatedStake]> (_stakedBalances w))
                   updatedTotal (Staked staker amount updatedStake :: emitted w)
                   s' (custody w)) ∧
    FHE.persistent s'
    = ownGrants this staker updatedStake updatedTotal ∪ FHE.persistent (fhe w) ∧
    FHE.transient s' = FHE.transient (fhe w).
Proof.
  intros Hamount.
  destruct (tryIncrease_spec (stakedBalanceOf C w staker) amount (fhe w))
    as (ok & upd & s1 & Hrun & _ & Hval & Hinit & Hp & Ht).
  unfold _applyIncrease. rewrite Hamount. step_monad. rewrite Hrun. cbn.
  match goal with
  | |- context [_increaseTotal C this ?a ?b ?w1] =>
      destruct (_increaseTotal_grants a b w1) as (updT & s2 & HrunT & HpT & HtT)
  end.
  rewrite HrunT. cbn in *.
  eexists _, _, _. split; [reflexivity|].
  cbn. rewrite HpT, HtT, Hp, Ht. split; [|done]. apply ownGrants_union.
Qed.

(** [_unstake] up to the call into the token: what it stored, what it asks
    the token to hand back, and the grants it issued on the way. *)
Lemma _unstake_run (staker : address) (amount : euint64) (w : World C) :
  ∃ updatedStake appliedAmount updatedTotal s1,
    _unstake C this staker amount w =
      match confidentialTransfer C this staker appliedAmount (custody w) s1 with
      | Some (transferred, c', s') =>
          Ok transferred
            (MkWorld C (methToken w) (<[staker := updatedStake]> (_stakedBalances w))
               updatedTotal (Unstaked staker transferred updatedStake :: emitted w) s' c')
      | None =>
          Revert CustodyReverted
            (MkWorld C (methToken w) (<[staker := updatedStake]> (_stakedBalances w))
               updatedTotal (emitted w) s1 (custody w))
      end ∧
    decrypt appliedAmount = appliable (staked w staker) (decrypt amount) ∧
    decrypt updatedStake = staked w staker - decrypt appliedAmount ∧
    decrypt updatedTotal = debited (totalStaked w) (decrypt appliedAmount) ∧
    FHE.isInitialized appliedAmount = true ∧
    FHE.persistent s1
    = ownGrants this staker updatedStake updatedTotal ∪ FHE.persistent (fhe w) ∧
    FHE.transient s1
    = {[ (handleOf appliedAmount, methToken w) ]} ∪ FHE.transient (fhe w).
Proof.
  destruct (tryDecrease_spec (stakedBalanceOf C w staker) amount (fhe w))
    as (ok & upd & s0 & Hrun & Hok & Hval & Hinit & Hp & Ht).
  destruct (asEuint64_spec 0 s0) as (zero & sz & HrunZ & HvalZ & _ & HpZ & HtZ).
  destruct (select_spec ok amount zero sz)
    as (applied & sa & HrunA & HvalA & HinitA & HpA & HtA).
  unfold _unstake. step_monad. rewrite Hrun. cbn. rewrite HrunZ. cbn.
  rewrite HrunA. cbn.
  match goal with
  | |- context [_decreaseTotal C this ?a ?b ?w1] =>
      destruct (_decreaseTotal_grants a b w1) as (updT & s2 & HrunT & HpT & HtT);
      destruct (_decreaseTotal_spec C this a b w1) as (updT' & s2' & HrunT' & HvalT & _)
  end.
  rewrite HrunT in HrunT'. injection HrunT' as <- <-.
  rewrite HrunT. cbn in *. rewrite HinitA. unfold external. cbn.
  match goal with
  | |- context [confidentialTransfer C this staker ?a ?c ?s] => exists upd, a, updT, s
  end.
  split; [by destruct (confidentialTransfer C this staker _ _ _) as [[[v c'] s']|]|].
  cbn. rewrite Hok, HvalZ in HvalA.
  assert (Happlied : decrypt applied = appliable (staked w staker) (decrypt amount)) by done.
  unfold debited, totalStaked, confidentialTotalStaked.
  split; [done|]. split; [|split; [done|split; [done|split]]].
  - rewrite Hval, Happlied. unfold appliable, staked. destruct (_ <=? _); lia.
  - rewrite HpT, HpA, HpZ, Hp. apply ownGrants_union.
  - by rewrite HtT, HtA, HtZ, Ht.
Qed.

Lemma stakedBalanceOf_insert (w : World C) (staker a : address) (v total : euint64)
    (events : list Event) (s : FHE.State) (c : cstate C) :
  stakedBalanceOf C
    (MkWorld C (methToken w) (<[staker := v]> (_stakedBalances w)) total events s c) a
  = if decide (a = staker) then v else stakedBalanceOf C w a.
Proof.
  unfold stakedBalanceOf. simpl.
  destruct (decide (a = staker)) as [->|Hne].
  - by rewrite lookup_insert_eq.
  - by rewrite lookup_insert_ne.
Qed.

(** X1: when the requested amount decrypts to at most the staker's
    balance, an [_unstake] that returns has lowered the balance by exactly
    that amount, has asked the token to hand back a value that decrypts to
    that amount, and has left every other balance as it was; the total is
    debited by the same amount whenever it holds that much (it is guarded on
    its own). *)
Theorem unstake_within_stake_hands_back_amount
    (w : World C) (staker : address) (amount : euint64) :
  decrypt amount ≤ staked w staker →
  match _unstake C this staker amount w with
  | Ok transferred w' =>
      staked w' staker = staked w staker - decrypt amount ∧
      totalStaked w' = debited (totalStaked w) (decrypt amount) ∧
      (decrypt amount ≤ totalStaked w → totalStaked w' = totalStaked w - decrypt amount) ∧
      (∀ a, a ≠ staker → staked w' a = staked w a) ∧
      ∃ appliedAmount s1,
        decrypt appliedAmount = decrypt amount ∧
        confidentialTransfer C this staker appliedAmount (custody w) s1
        = Some (transferred, custody w', fhe w')
  | Revert _ _ => True
  end.
Proof.
  intros Hle.
  destruct (_unstake_run staker amount w)
    as (upd & applied & updT & s1 & Hrun & Happlied & Hupd & HupdT & _).
  rewrite Hrun.
  assert (Hfull : decrypt applied = decrypt amount).
  { rewrite Happlied. unfold appliable.
    destruct (Z.leb_spec (decrypt amount) (staked w staker)); lia. }
  destruct (confidentialTransfer C this staker applied (custody w) s1)
    as [[[v c'] s']|] eqn:Hback; [|done].
  rewrite Hfull in *.
  split; [|split; [|split; [|split]]].
  - rewrite staked_insert. by destruct (decide (staker = staker)).
  - done.
  - intros Htot. unfold totalStaked, confidentialTotalStaked in *. simpl. rewrite HupdT.
    unfold debited. destruct (Z.leb_spec (decrypt amount) (decrypt (_totalStaked w))); lia.
  - intros a Ha. rewrite staked_insert. by destruct (decide (a = staker)).
  - by exists applied, s1.
Qed.

(** [_stake] once the token answered: what is stored, emitted and granted. *)
Lemma _stake_run (staker : address) (amount : euint64) (w : World C) :
  match confidentialTransferFrom C this staker this amount (custody w) (requested amount w) with
  | Some (transferred, c', s') =>
      if FHE.isInitialized transferred then
        ∃ updatedStake updatedTotal s'',
          _stake C this staker amount w
          = Ok transferred
              (MkWorld C (methToken w) (<[staker := updatedStake]> (_stakedBalances w))
                 updatedTotal (Staked staker transferred updatedStake :: emitted w) s'' c') ∧
          FHE.persistent s''
          = ownGrants this staker updatedStake updatedTotal ∪ FHE.persistent s' ∧
          FHE.transient s'' = FHE.transient s'
      else
        _stake C this staker amount w
        = Ok transferred
            (MkWorld C (methToken w) (_stakedBalances w) (_totalStaked w) (emitted w) s' c')
  | None =>
      _stake C this staker amount w
      = Revert CustodyReverted (setFhe C (requested amount w) w)
  end.
Proof.
  rewrite _stake_spec.
  destruct (confidentialTransferFrom C this staker this amount _ _)
    as [[[v c'] s']|]; [|done].
  destruct (FHE.isInitialized v) eqn:Hv.
  - match goal with
    | |- context [_applyIncrease C this staker v ?w1] =>
        destruct (_applyIncrease_run staker v w1 Hv) as (upd & updT & s2 & Hrun & Hp & Ht)
    end.
    by exists upd, updT, s2.
  - by rewrite _applyIncrease_uninitialized.
Qed.

Lemma requested_grants (amount : euint64) (w : World C) :
  FHE.persistent (requested amount w) = FHE.persistent (fhe w) ∧
  FHE.transient (requested amount w)
  = (if FHE.isInitialized amount then {[ (handleOf amount, methToken w) ]} else ∅)
    ∪ FHE.transient (fhe w).
Proof.
  unfold requested. destruct (FHE.isInitialized amount); simpl; [done|].
  by rewrite (left_id_L ∅ (∪)).
Qed.

(** X3: [_stake] hands the token a call-scoped grant on an initialized
    amount, and no permanent one, before it calls it; once the token
    answered, the permanent grants it adds itself are those on the staker's
    new balance and on the new total, for the ledger and the staker only
    (none at all when the transferred value is uninitialized), and it adds
    no call-scoped grant. *)
Theorem stake_grants_only_ledger_and_staker
    (w : World C) (staker : address) (amount : euint64) :
  ∃ s1,
    FHE.persistent s1 = FHE.persistent (fhe w) ∧
    FHE.transient s1
    = (if FHE.isInitialized amount then {[ (handleOf amount, methToken w) ]} else ∅)
      ∪ FHE.transient (fhe w) ∧
    (FHE.isInitialized amount = true → FHE.isAllowed amount (methToken w) s1 = true) ∧
    match confidentialTransferFrom C this staker this amount (custody w) s1 with
    | Some (transferred, c', s') =>
        ∃ w', _stake C this staker amount w = Ok transferred w' ∧
              custody w' = c' ∧
              FHE.transient (fhe w') = FHE.transient s' ∧
              FHE.persistent (fhe w')
              = (if FHE.isInitialized transferred
                 then ownGrants this staker (stakedBalanceOf C w' staker) (_totalStaked w')
                 else ∅) ∪ FHE.persistent s'
    | None => ∃ w', _stake C this staker amount w = Revert CustodyReverted w'
    end.
Proof.
  exists (requested amount w).
  destruct (requested_grants amount w) as [Hp Ht].
  split; [done|]. split; [done|]. split.
  - intros Hinit. unfold FHE.isAllowed. rewrite Ht, Hinit.
    rewrite (bool_decide_eq_true_2 (_ ∈ _ ∪ _)); [by rewrite orb_true_r|set_solver].
  - pose proof (_stake_run staker amount w) as Hrun.
    destruct (confidentialTransferFrom C this staker this amount _ _)
      as [[[v c'] s']|]; [|by eexists].
    destruct (FHE.isInitialized v).
    + destruct Hrun as (upd & updT & s2 & -> & Hp2 & Ht2).
      eexists. split; [reflexivity|]. rewrite stakedBalanceOf_insert.
      by destruct (decide (staker = staker)).
    + rewrite Hrun. eexists. split; [reflexivity|]. simpl.
      by rewrite (left_id_L ∅ (∪)).
Qed.

(** X4: [_unstake] always calls the token with a call-scoped grant on
    the appliable amount, which is always initialized; up to that call the
    permanent grants it issued are exactly those on the staker's new balance
    and on the new total, for the ledger and the staker only. *)
Theorem unstake_grants_only_ledger_and_staker
    (w : World C) (staker : address) (amount : euint64) :
  ∃ appliedAmount s1,
    FHE.isAllowed appliedAmount (methToken w) s1 = true ∧
    FHE.transient s1 = {[ (handleOf appliedAmount, methToken w) ]} ∪ FHE.transient (fhe w) ∧
    match confidentialTransfer C this staker appliedAmount (custody w) s1 with
    | Some (transferred, c', s') =>
        ∃ w', _unstake C this staker amount w = Ok transferred w' ∧
              custody w' = c' ∧ fhe w' = s' ∧
              FHE.persistent s1
              = ownGrants this staker (stakedBalanceOf C w' staker) (_totalStaked w')
                ∪ FHE.persistent (fhe w)
    | None =>
        ∃ w', _unstake C this staker amount w = Revert CustodyReverted w' ∧
              fhe w' = s1 ∧
              FHE.persistent s1
              = ownGrants this staker (stakedBalanceOf C w' staker) (_totalStaked w')
                ∪ FHE.persistent (fhe w)
    end.
Proof.
  destruct (_unstake_run staker amount w)
    as (upd & applied & updT & s1 & Hrun & _ & _ & _ & _ & Hp & Ht).
  exists applied, s1. split; [|split; [done|]].
  - unfold FHE.isAllowed. rewrite Ht.
    rewrite (bool_decide_eq_true_2 (_ ∈ _ ∪ _)); [by rewrite orb_true_r|set_solver].
  - rewrite Hrun.
    destruct (confidentialTransfer C this staker applied (custody w) s1)
      as [[[v c'] s']|]; eexists; (split; [reflexivity|]);
      rewrite stakedBalanceOf_insert; by destruct (decide (staker = staker)).
Qed.

(** X5: a [_stake] that returns an initialized value has emitted exactly
    one more event, [Staked], with the value the token returned as amount
    and the balance now stored for the staker; one that returns an
    uninitialized value, or reverts, has emitted nothing. *)
Theorem staked_event_reports_credit
    (w : World C) (staker : address) (amount : euint64) :
  match _stake C this staker amount w with
  | Ok transferred w' =>
      if FHE.isInitialized transferred
      then emitted w'
           = Staked staker transferred (stakedBalanceOf C w' staker) :: emitted w
      else emitted w' = emitted w
  | Revert e w' => e = CustodyReverted ∧ emitted w' = emitted w
  end.
Proof.
  pose proof (_stake_run staker amount w) as Hrun.
  destruct (confidentialTransferFrom C this staker this amount _ _)
    as [[[v c'] s']|]; [|by rewrite Hrun].
  destruct (FHE.isInitialized v) eqn:Hv.
  - destruct Hrun as (upd & updT & s2 & -> & _). rewrite Hv.
    rewrite stakedBalanceOf_insert. by destruct (decide (staker = staker)).
  - rewrite Hrun. by rewrite Hv.
Qed.

(** What one internal call leaves of the entries and of the event log. *)
Lemma _stake_frame (staker : address) (amount : euint64) (w : World C) :
  match _stake C this staker amount w with
  | Ok _ w' =>
      (∀ a, a ≠ staker → _stakedBalances w' !! a = _stakedBalances w !! a) ∧
      (emitted w' = emitted w ∨
       ∃ transferred,
         emitted w' = Staked staker transferred (stakedBalanceOf C w' staker) :: emitted w)
  | Revert _ _ => True
  end.
Proof.
  pose proof (_stake_run staker amount w) as Hrun.
  destruct (confidentialTransferFrom C this staker this amount _ _)
    as [[[v c'] s']|]; [|by rewrite Hrun].
  destruct (FHE.isInitialized v) eqn:Hv.
  - destruct Hrun as (upd & updT & s2 & -> & _). split.
    + intros a Ha. simpl. by rewrite lookup_insert_ne.
    + right. exists v. rewrite stakedBalanceOf_insert. by destruct (decide (staker = staker)).
  - rewrite Hrun. split; [done|by left].
Qed.

Lemma _unstake_frame (staker : address) (amount : euint64) (w : World C) :
  match _unstake C this staker amount w with
  | Ok _ w' =>
      (∀ a, a ≠ staker → _stakedBalances w' !! a = _stakedBalances w !! a) ∧
      ∃ transferred,
        emitted w' = Unstaked staker transferred (stakedBalanceOf C w' staker) :: emitted w
  | Revert _ _ => True
  end.
Proof.
  destruct (_unstake_run staker amount w) as (upd & applied & updT & s1 & Hrun & _).
  rewrite Hrun.
  destruct (confidentialTransfer C this staker applied (custody w) s1)
    as [[[v c'] s']|]; [|done].
  split.
  - intros a Ha. simpl. by rewrite lookup_insert_ne.
  - exists v. rewrite stakedBalanceOf_insert. by destruct (decide (staker = staker)).
Qed.

(** One transaction: the entries of the others stay, and at most one
    event is added, which names the caller, is of the kind of the call and
    carries the caller's stored balance. *)
Lemma transact_frame (c : Call) (w : World C) :
  (∀ a, a ≠ sender c →
        _stakedBalances (transact C this w c) !! a = _stakedBalances w !! a) ∧
  (emitted (transact C this w c) = emitted w ∨
   ∃ e, emitted (transact C this w c) = e :: emitted w ∧
        stakerOf e = sender c ∧ isStaked e = isStake c ∧
        balanceAfterOf e = stakedBalanceOf C (transact C this w c) (sender c)).
Proof.
  unfold transact. rewrite dispatch_unfold.
  destruct c as [who e p|who amount|who e p|who amount]; simpl.
  - destruct (FHE.fromExternal e p (fhe w)) as [[v s]|]; [|by split; [|left]].
    pose proof (_stake_frame who v (setFhe C s w)) as Hf.
    destruct (_stake C this who v (setFhe C s w)) as [r w'|]; [|by split; [|left]].
    destruct Hf as [Hentries [Hev|[t Hev]]]; (split; [done|]); [by left|right].
    by exists (Staked who t (stakedBalanceOf C w' who)).
  - destruct (FHE.isAllowed amount who (fhe w)); [|by split; [|left]].
    pose proof (_stake_frame who amount w) as Hf.
    destruct (_stake C this who amount w) as [r w'|]; [|by split; [|left]].
    destruct Hf as [Hentries [Hev|[t Hev]]]; (split; [done|]); [by left|right].
    by exists (Staked who t (stakedBalanceOf C w' who)).
  - destruct (FHE.fromExternal e p (fhe w)) as [[v s]|]; [|by split; [|left]].
    pose proof (_unstake_frame who v (setFhe C s w)) as Hf.
    destruct (_unstake C this who v (setFhe C s w)) as [r w'|]; [|by split; [|left]].
    destruct Hf as [Hentries [t Hev]]. split; [done|right].
    by exists (Unstaked who t (stakedBalanceOf C w' who)).
  - destruct (FHE.isAllowed amount who (fhe w)); [|by split; [|left]].
    pose proof (_unstake_frame who amount w) as Hf.
    destruct (_unstake C this who amount w) as [r w'|]; [|by split; [|left]].
    destruct Hf as [Hentries [t Hev]]. split; [done|right].
    by exists (Unstaked who t (stakedBalanceOf C w' who)).
Qed.

(** X7: no sequence of calls by other accounts touches an account's
    slot: the stored handle, and so what [stakedBalanceOf] returns, is the
    very same afterwards. *)
Theorem calls_touch_only_the_callers_entry
    (calls : list Call) (w : World C) (a : address) :
  (∀ c, c ∈ calls → sender c ≠ a) →
  _stakedBalances (execute C this calls w) !! a = _stakedBalances w !! a ∧
  stakedBalanceOf C (execute C this calls w) a = stakedBalanceOf C w a.
Proof.
  intros Hothers.
  assert (Hentry : _stakedBalances (execute C this calls w) !! a = _stakedBalances w !! a).
  { induction calls as [|c calls IH] using rev_ind; [done|].
    rewrite execute_snoc.
    destruct (transact_frame c (execute C this calls w)) as [Hframe _].
    rewrite Hframe.
    - apply IH. intros c' Hc'. apply Hothers. set_solver.
    - intros ->. eapply Hothers; [|done]. set_solver. }
  split; [done|]. unfold stakedBalanceOf. by rewrite Hentry.
Qed.

(** X6: the event log only grows, by at most one event per call, and
    every event added names the sender of one of the calls and is of that
    call's kind ([Staked] for a stake, [Unstaked] for an unstake). *)
Theorem events_name_their_callers (calls : list Call) (w : World C) :
  ∃ new,
    emitted (execute C this calls w) = new ++ emitted w ∧
    (length new ≤ length calls)%nat ∧
    ∀ e, e ∈ new → ∃ c, c ∈ calls ∧ stakerOf e = sender c ∧ isStaked e = isStake c.
Proof.
  induction calls as [|c calls IH] using rev_ind.
  - exists []. split; [done|]. split; [done|]. intros e He. by apply elem_of_nil in He.
  - destruct IH as (new & Hnew & Hlen & Hnames).
    rewrite execute_snoc.
    destruct (transact_frame c (execute C this calls w)) as [_ [Hsame|(e & He & Hwho & Hkind & _)]].
    + exists new. rewrite Hsame. split; [done|]. split.
      * rewrite length_app. simpl. lia.
      * intros e He. destruct (Hnames e He) as (c' & Hc' & ?). exists c'. split; [set_solver|done].
    + exists (e :: new). rewrite He, Hnew. split; [done|]. split.
      * rewrite length_app. simpl. lia.
      * intros e' He'. apply elem_of_cons in He' as [->|He'].
        -- exists c. split; [set_solver|done].
        -- destruct (Hnames e' He') as (c' & Hc' & ?). exists c'. split; [set_solver|done].
Qed.

(** X10: a stake call never lowers and an unstake call never raises any
    decrypted balance or the decrypted total, whoever sends it and whether
    it returns or reverts. *)
Theorem stake_never_lowers_unstake_never_raises (w : World C) (c : Call) (a : address) :
  if isStake c
  then staked w a ≤ staked (transact C this w c) a ∧
       totalStaked w ≤ totalStaked (transact C this w c)
  else staked (transact C this w c) a ≤ staked w a ∧
       totalStaked (transact C this w c) ≤ totalStaked w.
Proof.
  destruct (transact_effect C this c w) as (_ & Hframe & d & Hd & Heff).
  pose proof (staked_range C w (sender c)) as Hb.
  pose proof (totalStaked_range C w) as Ht.
  destruct (isStake c); destruct Heff as [Hs Htot]; rewrite Htot;
    (destruct (decide (a = sender c)) as [->|Hne]; [rewrite Hs|rewrite Hframe by done]);
    unfold credited, debited, appliable;
    repeat match goal with |- context [?x <=? ?y] => destruct (Z.leb_spec x y) end; lia.
Qed.

(** X9: unstaking cannot create a balance: starting from the
    constructor, an account that never called a stake entry point holds a
    zero balance after any sequence of calls, and if nobody did the total is
    zero as well. *)
Theorem unstaking_creates_nothing
    (tokenAddress : address) (s : FHE.State) (c : cstate C) (w0 : World C)
    (calls : list Call) :
  constructor C tokenAddress s c = inr w0 →
  (∀ a, a ∉ stakers calls → staked (execute C this calls w0) a = 0) ∧
  (stakers calls = ∅ → totalStaked (execute C this calls w0) = 0).
Proof.
  intros Hw0.
  assert (Hfresh : (∀ a, staked w0 a = 0) ∧ totalStaked w0 = 0).
  { unfold constructor in Hw0. destruct (tokenAddress =? 0)%N; [done|].
    injection Hw0 as <-. split; [intros a|]; by vm_compute. }
  destruct Hfresh as [Hzero Htotal].
  induction calls as [|call calls IH] using rev_ind; [done|].
  destruct IH as [IHs IHt]. rewrite execute_snoc, stakers_snoc.
  destruct (transact_effect C this call (execute C this calls w0)) as (_ & Hframe & d & Hd & Heff).
  split.
  - intros a Ha. destruct (decide (a = sender call)) as [->|Hne].
    + destruct (isStake call); [set_solver|].
      destruct Heff as [Hs _]. rewrite Hs, IHs by set_solver.
      unfold appliable. destruct (Z.leb_spec d 0); lia.
    + rewrite Hframe by done. apply IHs. set_solver.
  - intros Hnone. destruct (isStake call); [set_solver|].
    destruct Heff as [_ Htot]. rewrite Htot, IHt, IHs by set_solver.
    unfold appliable, debited. destruct (Z.leb_spec d 0); simpl; [|done].
    destruct (Z.leb_spec d 0); lia.
Qed.



(** What a call writes is an initialized value. *)
Lemma _stake_stores_initialized (staker : address) (amount : euint64) (w : World C) :
  match _stake C this staker amount w with
  | Ok _ w' =>
      ∀ a v, _stakedBalances w' !! a = Some v →
             FHE.isInitialized v = true ∨ _stakedBalances w !! a = Some v
  | Revert _ _ => True
  end.
Proof.
  rewrite _stake_spec.
  destruct (confidentialTransferFrom C this staker this amount _ _)
    as [[[t c'] s']|]; [|done].
  destruct (FHE.isInitialized t) eqn:Ht.
  - match goal with
    | |- context [_applyIncrease C this staker t ?w1] =>
        destruct (_applyIncrease_spec C this staker t w1 Ht)
          as (upd & updT & s2 & -> & _ & _ & Hinit & _)
    end.
    intros a v. simpl. destruct (decide (a = staker)) as [->|Hne].
    + rewrite lookup_insert_eq. intros [= <-]. by left.
    + rewrite lookup_insert_ne by done. by right.
  - rewrite _applyIncrease_uninitialized by done. intros a v Hv. by right.
Qed.

Lemma _unstake_stores_initialized (staker : address) (amount : euint64) (w : World C) :
  match _unstake C this staker amount w with
  | Ok _ w' =>
      ∀ a v, _stakedBalances w' !! a = Some v →
             FHE.isInitialized v = true ∨ _stakedBalances w !! a = Some v
  | Revert _ _ => True
  end.
Proof.
  destruct (_unstake_spec C this staker amount w)
    as (upd & applied & updT & s1 & Hrun & _ & _ & _ & Hinit & _).
  simpl in Hrun. rewrite Hrun.
  destruct (confidentialTransfer C this staker applied (custody w) s1)
    as [[[t c'] s']|]; [|done].
  intros a v. simpl. destruct (decide (a = staker)) as [->|Hne].
  - rewrite lookup_insert_eq. intros [= <-]. by left.
  - rewrite lookup_insert_ne by done. by right.
Qed.

Lemma transact_stores_initialized (c : Call) (w : World C) :
  ∀ a v, _stakedBalances (transact C this w c) !! a = Some v →
         FHE.isInitialized v = true ∨ _stakedBalances w !! a = Some v.
Proof.
  unfold transact. rewrite dispatch_unfold.
  destruct c as [who e p|who amount|who e p|who amount]; simpl.
  - destruct (FHE.fromExternal e p (fhe w)) as [[x s]|]; [|by right].
    pose proof (_stake_stores_initialized who x (setFhe C s w)) as Hf.
    by destruct (_stake C this who x (setFhe C s w)) as [r w'|]; [|right].
  - destruct (FHE.isAllowed amount who (fhe w)); [|by right].
    pose proof (_stake_stores_initialized who amount w) as Hf.
    by destruct (_stake C this who amount w) as [r w'|]; [|right].
  - destruct (FHE.fromExternal e p (fhe w)) as [[x s]|]; [|by right].
    pose proof (_unstake_stores_initialized who x (setFhe C s w)) as Hf.
    by destruct (_unstake C this who x (setFhe C s w)) as [r w'|]; [|right].
  - destruct (FHE.isAllowed amount who (fhe w)); [|by right].
    pose proof (_unstake_stores_initialized who amount w) as Hf.
    by destruct (_unstake C this who amount w) as [r w'|]; [|right].
Qed.

(** X8: in a ledger that started from the constructor, every stored
    balance is an initialized value; an account none of the calls came from
    reads the zero handle; and reading the zero handle means the slot was
    never written. *)
Theorem zero_handle_means_never_written
    (tokenAddress : address) (s : FHE.State) (c : cstate C) (w0 : World C)
    (calls : list Call) :
  constructor C tokenAddress s c = inr w0 →
  (∀ a v, _stakedBalances (execute C this calls w0) !! a = Some v →
          FHE.isInitialized v = true) ∧
  (∀ a, (∀ call, call ∈ calls → sender call ≠ a) →
        stakedBalanceOf C (execute C this calls w0) a = FHE.uninitialized) ∧
  (∀ a, FHE.isInitialized (stakedBalanceOf C (execute C this calls w0) a) = false →
        _stakedBalances (execute C this calls w0) !! a = None).
Proof.
  intros Hw0.
  assert (Hempty : _stakedBalances w0 = ∅).
  { unfold constructor in Hw0. destruct (tokenAddress =? 0)%N; [done|]. by injection Hw0 as <-. }
  assert (Hstored : ∀ a v, _stakedBalances (execute C this calls w0) !! a = Some v →
                           FHE.isInitialized v = true).
  { induction calls as [|call calls IH] using rev_ind.
    - intros a v. simpl. by rewrite Hempty, lookup_empty.
    - intros a v. rewrite execute_snoc. intros Hv.
      apply transact_stores_initialized in Hv as [Hv|Hv]; [done|by eapply IH]. }
  split; [done|]. split.
  - intros a Hothers. unfold stakedBalanceOf.
    assert (Hentry : _stakedBalances (execute C this calls w0) !! a = _stakedBalances w0 !! a).
    { clear Hstored. induction calls as [|call calls IH] using rev_ind; [done|].
      rewrite execute_snoc.
      destruct (transact_frame call (execute C this calls w0)) as [Hframe _].
      rewrite Hframe.
      - apply IH. intros c' Hc'. apply Hothers. set_solver.
      - intros ->. eapply Hothers; [|done]. set_solver. }
    by rewrite Hentry, Hempty, lookup_empty.
  - intros a. unfold stakedBalanceOf.
    destruct (_stakedBalances (execute C this calls w0) !! a) as [v|] eqn:Hv; [|done].
    simpl. by rewrite (Hstored a v Hv).
Qed.

End Ledger.

(** Alice staked 750000 and unstakes 250000 (the second scenario of the
    test suite). *)
Lemma unstake_within_stake_hands_back_amount_witness :
  decrypt (Cipher 5%N 250000) ≤ staked Cases.aliceStaked Scenario.alice ∧
  match _unstake Cases.mETH Scenario.ledger Scenario.alice (Cipher 5%N 250000)
          Cases.aliceStaked with
  | Ok transferred w' =>
      staked w' Scenario.alice
      = staked Cases.aliceStaked Scenario.alice - decrypt (Cipher 5%N 250000) ∧
      totalStaked w'
      = debited (totalStaked Cases.aliceStaked) (decrypt (Cipher 5%N 250000)) ∧
      (decrypt (Cipher 5%N 250000) ≤ totalStaked Cases.aliceStaked →
       totalStaked w' = totalStaked Cases.aliceStaked - decrypt (Cipher 5%N 250000)) ∧
      (∀ a, a ≠ Scenario.alice → staked w' a = staked Cases.aliceStaked a) ∧
      ∃ appliedAmount s1,
        decrypt appliedAmount = decrypt (Cipher 5%N 250000) ∧
        confidentialTransfer Cases.mETH Scenario.ledger Scenario.alice appliedAmount
          (custody Cases.aliceStaked) s1
        = Some (transferred, custody w', fhe w')
  | Revert _ _ => True
  end.
Proof.
  split; [by vm_compute|].
  refine (unstake_within_stake_hands_back_amount Cases.mETH Scenario.ledger
            Cases.aliceStaked Scenario.alice (Cipher 5%N 250000) _).
  by vm_compute.
Defined.

(** In that scenario the call returns, and hands 250000 back. *)
Example unstake_within_stake_returns :
  match _unstake Cases.mETH Scenario.ledger Scenario.alice (Cipher 5%N 250000)
          Cases.aliceStaked with
  | Ok transferred w' => decrypt transferred = 250000 ∧ staked w' Scenario.alice = 500000
  | Revert _ _ => False
  end.
Proof. by vm_compute. Qed.


(** In that scenario the unstake returns, with alice back at zero. *)
Example stake_then_unstake_returns :
  staked Cases.aliceStakedTen Scenario.alice = 10 ∧
  match _unstake scripted Scenario.ledger Scenario.alice (Cipher 6%N 10)
          Cases.aliceStakedTen with
  | Ok _ w2 => staked w2 Scenario.alice = 0
  | Revert _ _ => False
  end.
Proof. by vm_compute. Qed.


(** Bob staked; alice then stakes and unstakes. *)
Lemma calls_touch_only_the_callers_entry_witness :
  (∀ c, c ∈ [Scenario.stakes Scenario.alice 400000; Scenario.unstakes Scenario.alice 100000] →
        sender c ≠ Scenario.bob) ∧
  _stakedBalances
    (execute Cases.mETH Scenario.ledger
       [Scenario.stakes Scenario.alice 400000; Scenario.unstakes Scenario.alice 100000]
       Cases.bobStaked) !! Scenario.bob
  = _stakedBalances Cases.bobStaked !! Scenario.bob ∧
  stakedBalanceOf Cases.mETH
    (execute Cases.mETH Scenario.ledger
       [Scenario.stakes Scenario.alice 400000; Scenario.unstakes Scenario.alice 100000]
       Cases.bobStaked) Scenario.bob
  = stakedBalanceOf Cases.mETH Cases.bobStaked Scenario.bob.
Proof.
  assert (Hothers : ∀ c,
    c ∈ [Scenario.stakes Scenario.alice 400000; Scenario.unstakes Scenario.alice 100000] →
    sender c ≠ Scenario.bob).
  { intros c Hc. repeat (apply elem_of_cons in Hc as [->|Hc]; [done|]).
    by apply elem_of_nil in Hc. }
  split; [exact Hothers|].
  exact (calls_touch_only_the_callers_entry Cases.mETH Scenario.ledger
           [Scenario.stakes Scenario.alice 400000; Scenario.unstakes Scenario.alice 100000]
           Cases.bobStaked Scenario.bob Hothers).
Defined.

(** Alice stakes 10 and bob tries to unstake 3. *)
Lemma zero_handle_means_never_written_witness :
  constructor scripted Scenario.token FHE.initial [Scenario.moved 10; Scenario.moved 0]
  = inr (Scenario.deployed [Scenario.moved 10; Scenario.moved 0]) ∧
  (∀ a v,
     _stakedBalances
       (execute scripted Scenario.ledger
          [Scenario.stakes Scenario.alice 10; Scenario.unstakes Scenario.bob 3]
          (Scenario.deployed [Scenario.moved 10; Scenario.moved 0])) !! a = Some v →
     FHE.isInitialized v = true) ∧
  (∀ a,
     (∀ call, call ∈ [Scenario.stakes Scenario.alice 10; Scenario.unstakes Scenario.bob 3] →
              sender call ≠ a) →
     stakedBalanceOf scripted
       (execute scripted Scenario.ledger
          [Scenario.stakes Scenario.alice 10; Scenario.unstakes Scenario.bob 3]
          (Scenario.deployed [Scenario.moved 10; Scenario.moved 0])) a
     = FHE.uninitialized) ∧
  (∀ a,
     FHE.isInitialized
       (stakedBalanceOf scripted
          (execute scripted Scenario.ledger
             [Scenario.stakes Scenario.alice 10; Scenario.unstakes Scenario.bob 3]
             (Scenario.deployed [Scenario.moved 10; Scenario.moved 0])) a) = false →
     _stakedBalances
       (execute scripted Scenario.ledger
          [Scenario.stakes Scenario.alice 10; Scenario.unstakes Scenario.bob 3]
          (Scenario.deployed [Scenario.moved 10; Scenario.moved 0])) !! a = None).
Proof.
  split; [reflexivity|].
  exact (zero_handle_means_never_written scripted Scenario.ledger Scenario.token
           FHE.initial [Scenario.moved 10; Scenario.moved 0]
           (Scenario.deployed [Scenario.moved 10; Scenario.moved 0])
           [Scenario.stakes Scenario.alice 10; Scenario.unstakes Scenario.bob 3] eq_refl).
Defined.

(** Alice tries to unstake before and after bob staked. *)
Lemma unstaking_creates_nothing_witness :
  constructor scripted Scenario.token FHE.initial
    [Scenario.moved 0; Scenario.moved 7; Scenario.moved 0]
  = inr (Scenario.deployed [Scenario.moved 0; Scenario.moved 7; Scenario.moved 0]) ∧
  (∀ a,
     a ∉ stakers [Scenario.unstakes Scenario.alice 5; Scenario.stakes Scenario.bob 7;
                  Scenario.unstakes Scenario.alice 3] →
     staked
       (execute scripted Scenario.ledger
          [Scenario.unstakes Scenario.alice 5; Scenario.stakes Scenario.bob 7;
           Scenario.unstakes Scenario.alice 3]
          (Scenario.deployed [Scenario.moved 0; Scenario.moved 7; Scenario.moved 0])) a
     = 0) ∧
  (stakers [Scenario.unstakes Scenario.alice 5; Scenario.stakes Scenario.bob 7;
            Scenario.unstakes Scenario.alice 3] = ∅ →
   totalStaked
     (execute scripted Scenario.ledger
        [Scenario.unstakes Scenario.alice 5; Scenario.stakes Scenario.bob 7;
         Scenario.unstakes Scenario.alice 3]
        (Scenario.deployed [Scenario.moved 0; Scenario.moved 7; Scenario.moved 0]))
   = 0).
Proof.
  split; [reflexivity|].
  exact (unstaking_creates_nothing scripted Scenario.ledger Scenario.token FHE.initial
           [Scenario.moved 0; Scenario.moved 7; Scenario.moved 0]
           (Scenario.deployed [Scenario.moved 0; Scenario.moved 7; Scenario.moved 0])
           [Scenario.unstakes Scenario.alice 5; Scenario.stakes Scenario.bob 7;
            Scenario.unstakes Scenario.alice 3] eq_refl).
Defined.

(** * The amount field of the staking page: properties *)

Module StakingAppFacts.
Import StakingApp.
Import Stdlib.Strings.String.

Implicit Types (s t i f : jsString) (c : N) (p : N → bool).

Lemma isDigit_spec c : isDigit c = true ↔ (48 ≤ c ≤ 57)%N.
Proof. unfold isDigit. rewrite andb_true_iff, !N.leb_le. done. Qed.

Lemma digit_not_blank c : isDigit c = true → isWhiteSpace c = false.
Proof.
  intros Hc%isDigit_spec. unfold isWhiteSpace. apply orb_false_intro.
  - apply bool_decide_eq_false. rewrite !elem_of_cons, elem_of_nil. lia.
  - apply andb_false_iff. left. apply N.leb_gt. lia.
Qed.

Lemma dropWhile_all p s : forallb p s = true → dropWhile p s = [].
Proof.
  induction s as [|c s IH]; simpl; [done|].
  intros [Hc Hs]%andb_true_iff. rewrite Hc. auto.
Qed.

Lemma dropWhile_app_all p s t : forallb p s = true → dropWhile p (s ++ t) = dropWhile p t.
Proof.
  induction s as [|c s IH]; simpl; [done|].
  intros [Hc Hs]%andb_true_iff. rewrite Hc. auto.
Qed.

Lemma dropWhile_app_some p s t :
  dropWhile p s ≠ [] → dropWhile p (s ++ t) = dropWhile p s ++ t.
Proof.
  induction s as [|c s IH]; simpl; [done|].
  destruct (p c); auto.
Qed.

Lemma dropWhile_prefix p s : ∃ i, s = i ++ dropWhile p s ∧ forallb p i = true.
Proof.
  induction s as [|c s (i & Hs & Hi)]; simpl; [by exists []|].
  destruct (p c) eqn:Hc.
  - exists (c :: i). simpl. rewrite Hc, Hi. split; [by f_equal|done].
  - by exists [].
Qed.

Lemma dropWhile_head p s c t : dropWhile p s = c :: t → p c = false.
Proof.
  induction s as [|c' s IH]; simpl; [done|].
  destruct (p c') eqn:Hc'; [done|]. by intros [= <- _].
Qed.

Lemma forallb_rev p s : forallb p (rev s) = forallb p s.
Proof.
  induction s as [|c s IH]; simpl; [done|].
  rewrite forallb_app, IH. simpl. rewrite andb_true_r. apply andb_comm.
Qed.

Lemma dropWhileEnd_app_all p s t :
  forallb p t = true → dropWhileEnd p (s ++ t) = dropWhileEnd p s.
Proof.
  intros Ht. unfold dropWhileEnd. rewrite rev_app_distr.
  rewrite dropWhile_app_all; [done|]. by rewrite forallb_rev.
Qed.

Lemma dropWhileEnd_snoc p s c : p c = false → dropWhileEnd p (s ++ [c]) = s ++ [c].
Proof.
  intros Hc. unfold dropWhileEnd. rewrite rev_app_distr. simpl. rewrite Hc.
  simpl. by rewrite rev_involutive.
Qed.

Lemma dropWhileEnd_nil p : dropWhileEnd p [] = [].
Proof. done. Qed.

(** Trimming a string that neither starts nor ends with white space. *)
Lemma trim_solid s : Forall (λ c, isWhiteSpace c = false) s → trim s = s.
Proof.
  intros Hs. unfold trim.
  destruct s as [|c s]; [done|].
  assert (Hhead : dropWhile isWhiteSpace (c :: s) = c :: s).
  { simpl. apply Forall_cons in Hs as [-> _]. done. }
  rewrite Hhead.
  destruct (exists_last (l := c :: s)) as (s' & c' & Heq); [done|].
  rewrite Heq in *. apply dropWhileEnd_snoc.
  apply Forall_app in Hs as [_ Hc']. by apply Forall_cons in Hc' as [? _].
Qed.

Lemma trim_blank_around l s r : blank l → blank r → trim (l ++ s ++ r) = trim s.
Proof.
  unfold blank, trim. intros Hl Hr. rewrite dropWhile_app_all by done.
  destruct (dropWhile isWhiteSpace s) as [|c t] eqn:Hs.
  - rewrite (dropWhile_app_all _ s r); [|].
    + by rewrite dropWhile_all.
    + destruct (dropWhile_prefix isWhiteSpace s) as (i & Hi & Hblank).
      rewrite Hs, app_nil_r in Hi. by subst.
  - rewrite dropWhile_app_some by (by rewrite Hs).
    rewrite Hs. by apply dropWhileEnd_app_all.
Qed.

(** *** Decimal digits *)

Lemma digitsFrom_enough (fuel fuel' : nat) (n : N) :
  (0 < fuel)%nat → (n < 2 ^ N.of_nat fuel)%N → (fuel ≤ fuel')%nat →
  digitsFrom fuel n = digitsFrom fuel' n.
Proof.
  revert fuel' n. induction fuel as [|fuel IH]; intros fuel' n Hpos Hn Hle; [lia|].
  destruct fuel' as [|fuel']; [lia|]. simpl.
  destruct (N.ltb_spec n 10) as [|Hbig]; [done|].
  f_equal.
  assert (Hdiv : (n / 10 < 2 ^ N.of_nat fuel)%N).
  { rewrite Nat2N.inj_succ, N.pow_succ_r' in Hn.
    apply N.Div0.div_lt_upper_bound. lia. }
  assert (1 ≤ n / 10)%N.
  { apply N.div_le_lower_bound; lia. }
  apply IH; [|done|lia].
  destruct fuel; [simpl in Hdiv; lia|lia].
Qed.

Lemma digitsOf_unfold (n : N) :
  digitsOf n
  = if (n <? 10)%N then [48 + n]%N else digitsOf (n / 10) ++ [48 + n mod 10]%N.
Proof.
  unfold digitsOf at 1. simpl.
  destruct (N.ltb_spec n 10) as [|Hbig]; [done|].
  f_equal. unfold digitsOf. symmetry.
  assert (Hq : (1 ≤ n / 10)%N) by (apply N.div_le_lower_bound; lia).
  apply digitsFrom_enough; [lia| |].
  - rewrite Nat2N.inj_succ, N2Nat.id. apply N.log2_spec. lia.
  - assert (N.log2 (n / 10) < N.log2 n)%N; [|lia].
    apply N.log2_lt_pow2; [lia|].
    assert (Hn : (2 ^ N.log2 n ≤ n)%N) by (apply N.log2_spec; lia).
    assert (n < 2 ^ N.succ (N.log2 n))%N by (apply N.log2_spec; lia).
    rewrite N.pow_succ_r' in *.
    apply N.Div0.div_lt_upper_bound. lia.
Qed.

Lemma digitsOf_small (n : N) : (n < 10)%N → digitsOf n = [48 + n]%N.
Proof. intros Hn. rewrite digitsOf_unfold. by destruct (N.ltb_spec n 10); [|lia]. Qed.

Lemma digitsOf_big (n : N) :
  (10 ≤ n)%N → digitsOf n = digitsOf (n / 10) ++ [48 + n mod 10]%N.
Proof. intros Hn. rewrite digitsOf_unfold. by destruct (N.ltb_spec n 10); [lia|]. Qed.

Lemma last_digit (n : N) :
  ∃ q d, (n / 10 = q ∧ n mod 10 = d ∧ n = 10 * q + d ∧ d < 10)%N.
Proof.
  exists (n / 10)%N, (n mod 10)%N. split; [done|]. split; [done|]. split.
  - by apply N.div_mod.
  - by apply N.mod_upper_bound.
Qed.

(** Induction on a number along its decimal digits. *)
Lemma decimal_ind (P : N → Prop) :
  (∀ n, (n < 10)%N → P n) →
  (∀ n, (10 ≤ n)%N → P (n / 10)%N → P n) →
  ∀ n, P n.
Proof.
  intros Hsmall Hbig n. induction n as [n IH] using (well_founded_ind N.lt_wf_0).
  destruct (N.lt_ge_cases n 10) as [|Hn]; [by apply Hsmall|].
  apply Hbig; [done|]. apply IH. apply N.div_lt; lia.
Qed.

Lemma digitsOf_digits (n : N) : digitString (digitsOf n).
Proof.
  unfold digitString. induction n as [n Hn|n Hn IH] using decimal_ind.
  - rewrite digitsOf_small by done. cbn [forallb]. rewrite andb_true_r.
    apply isDigit_spec. lia.
  - rewrite digitsOf_big by done. rewrite forallb_app, IH. cbn [forallb andb].
    rewrite andb_true_r. apply isDigit_spec.
    destruct (last_digit n) as (q & d & _ & -> & _ & Hd). lia.
Qed.

Lemma digitsOf_length (n : N) (k : nat) :
  (n < 10 ^ N.of_nat (S k))%N → (List.length (digitsOf n) ≤ S k)%nat.
Proof.
  revert n. induction k as [|k IH]; intros n Hn.
  - rewrite digitsOf_small by (simpl in Hn; lia). simpl. lia.
  - destruct (N.lt_ge_cases n 10) as [|Hbig].
    + rewrite digitsOf_small by done. simpl. lia.
    + rewrite digitsOf_big by done. rewrite length_app. simpl.
      assert (List.length (digitsOf (n / 10)) ≤ S k)%nat; [|lia].
      apply IH. rewrite (Nat2N.inj_succ (S k)), N.pow_succ_r' in Hn.
      apply N.Div0.div_lt_upper_bound. lia.
Qed.

Lemma digitsOf_nonempty (n : N) : digitsOf n ≠ [].
Proof.
  rewrite digitsOf_unfold. destruct (n <? 10)%N; [done|].
  by destruct (digitsOf (n / 10)).
Qed.

Lemma decimal_snoc s c : decimal (s ++ [c]) = (10 * decimal s + (c - 48))%N.
Proof. unfold decimal. by rewrite fold_left_app. Qed.

Lemma decimal_digitsOf (n : N) : decimal (digitsOf n) = n.
Proof.
  induction n as [n Hn|n Hn IH] using decimal_ind.
  - rewrite digitsOf_small by done. unfold decimal. simpl. lia.
  - rewrite digitsOf_big by done. rewrite decimal_snoc, IH.
    destruct (last_digit n) as (q & d & -> & -> & Heq & Hd). lia.
Qed.

Lemma decimal_zeros (k : nat) s : decimal (replicate k 48%N ++ s) = decimal s.
Proof.
  unfold decimal. rewrite fold_left_app. f_equal.
  induction k as [|k IH]; [done|]. exact IH.
Qed.

Lemma decimal_only_zeros (k : nat) : decimal (replicate k 48%N) = 0%N.
Proof. rewrite <- (app_nil_r (replicate k 48%N)). by rewrite decimal_zeros. Qed.

Lemma decimal_zero_inv s :
  digitString s → decimal s = 0%N → forallb (λ c, (c =? 48)%N) s = true.
Proof.
  unfold digitString, decimal.
  assert (Hgen : ∀ acc : N,
    forallb isDigit s = true →
    fold_left (λ a c, 10 * a + (c - 48))%N s acc = 0%N →
    acc = 0%N ∧ forallb (λ c, (c =? 48)%N) s = true).
  { induction s as [|c s IH]; intros acc; simpl; [done|].
    intros [Hc%isDigit_spec Hs]%andb_true_iff Hfold.
    destruct (IH _ Hs Hfold) as [Hacc ->].
    split; [lia|]. rewrite andb_true_r. apply N.eqb_eq. lia. }
  intros Hs Hzero. by destruct (Hgen 0%N Hs Hzero).
Qed.

Lemma last_satisfies p s c t :
  s = c :: t → forallb p s = true → ∃ x, last s = Some x ∧ p x = true.
Proof.
  intros Hs Hall. destruct (exists_last (l := s)) as (s' & x & Heq); [by subst|].
  rewrite Heq in *. exists x. rewrite last_snoc. split; [done|].
  rewrite forallb_app in Hall. apply andb_true_iff in Hall as [_ Hx].
  simpl in Hx. by rewrite andb_true_r in Hx.
Qed.

Lemma digitValue_decimal c : isDigit c = true → digitValue 10 c = Some (c - 48)%N.
Proof.
  intros Hc. unfold digitValue. rewrite Hc. apply isDigit_spec in Hc.
  by destruct (N.ltb_spec (c - 48) 10); [|lia].
Qed.

Lemma numeral_decimal s (acc : N) :
  digitString s →
  numeral 10 acc s = Some (fold_left (λ a c, 10 * a + (c - 48))%N s acc).
Proof.
  unfold digitString. revert acc. induction s as [|c s IH]; intros acc; simpl; [done|].
  intros [Hc Hs]%andb_true_iff. rewrite digitValue_decimal by done. by apply IH.
Qed.

Lemma digits_solid s : digitString s → Forall (λ c, isWhiteSpace c = false) s.
Proof.
  unfold digitString. induction s as [|c s IH]; simpl; [by constructor|].
  intros [Hc Hs]%andb_true_iff. constructor; [by apply digit_not_blank|auto].
Qed.

(** [BigInt] never throws on a non-empty string of digits. *)
Lemma BigInt_decimal s :
  s ≠ [] → digitString s → BigInt s = Some (Z.of_N (decimal s)).
Proof.
  intros Hne Hs. unfold BigInt.
  rewrite trim_solid by (by apply digits_solid).
  destruct s as [|c rest]; [done|].
  assert (Hdec : digits 10 (c :: rest) = Some (decimal (c :: rest))).
  { unfold digits. by apply numeral_decimal. }
  unfold digitString in Hs. simpl in Hs. apply andb_true_iff in Hs as [Hc Hrest].
  apply isDigit_spec in Hc.
  destruct (N.eqb_spec c 43); [lia|]. destruct (N.eqb_spec c 45); [lia|].
  destruct rest as [|x literal]; [by rewrite Hdec|].
  simpl in Hrest. apply andb_true_iff in Hrest as [Hx _]. apply isDigit_spec in Hx.
  destruct (N.eqb_spec x 120); [lia|]. destruct (N.eqb_spec x 88); [lia|].
  destruct (N.eqb_spec x 111); [lia|]. destruct (N.eqb_spec x 79); [lia|].
  destruct (N.eqb_spec x 98); [lia|]. destruct (N.eqb_spec x 66); [lia|].
  rewrite !andb_false_r. by rewrite Hdec.
Qed.

(** *** The pattern and the split *)

Lemma digit_not_dot c : isDigit c = true → (c =? 46)%N = false.
Proof. intros Hc%isDigit_spec. apply N.eqb_neq. lia. Qed.

Lemma split_plain s : digitString s → split 46 s = [s].
Proof.
  unfold digitString. induction s as [|c s IH]; simpl; [done|].
  intros [Hc Hs]%andb_true_iff. by rewrite digit_not_dot, IH.
Qed.

Lemma split_dotted i f :
  digitString i → digitString f → split 46 (i ++ 46%N :: f) = [i; f].
Proof.
  unfold digitString. intros Hi Hf. induction i as [|c i IH]; simpl.
  - by rewrite split_plain.
  - simpl in Hi. apply andb_true_iff in Hi as [Hc Hi].
    by rewrite digit_not_dot, IH.
Qed.

Lemma pattern_plain s : digitString s → amountPattern s = true.
Proof. intros Hs. unfold amountPattern. by rewrite dropWhile_all. Qed.

Lemma pattern_dotted i f :
  digitString i → digitString f → (List.length f ≤ 18)%nat →
  amountPattern (i ++ 46%N :: f) = true.
Proof.
  intros Hi Hf Hlen. unfold amountPattern. rewrite dropWhile_app_all by done.
  simpl. rewrite Hf. simpl. by apply Nat.leb_le.
Qed.

Lemma pattern_shape s :
  amountPattern s = true →
  digitString s ∨
  ∃ i f, s = i ++ 46%N :: f ∧ digitString i ∧ digitString f ∧ (List.length f ≤ 18)%nat.
Proof.
  unfold amountPattern. intros Hs.
  destruct (dropWhile_prefix isDigit s) as (i & Heq & Hi).
  destruct (dropWhile isDigit s) as [|c f].
  - left. rewrite app_nil_r in Heq. by subst.
  - right. apply andb_true_iff in Hs as [[Hc Hf]%andb_true_iff Hlen].
    apply N.eqb_eq in Hc as ->. apply Nat.leb_le in Hlen. by exists i, f.
Qed.

(** *** Parsing *)

Lemma lit_zeros : lit "000000" = replicate 6 48%N.
Proof. done. Qed.

Lemma forallb_take p (n : nat) s : forallb p s = true → forallb p (take n s) = true.
Proof.
  revert n. induction s as [|c s IH]; intros [|n]; simpl; try done.
  intros [Hc Hs]%andb_true_iff. rewrite Hc. simpl. by apply IH.
Qed.

Lemma forallb_replicate p (n : nat) c : p c = true → forallb p (replicate n c) = true.
Proof. intros Hc. induction n as [|n IH]; simpl; [done|]. by rewrite Hc. Qed.

Lemma padded_digits f :
  digitString f →
  digitString (take 6 (f ++ replicate 6 48%N)) ∧ take 6 (f ++ replicate 6 48%N) ≠ [].
Proof.
  unfold digitString. intros Hf. split.
  - apply forallb_take. rewrite forallb_app, Hf. by apply forallb_replicate.
  - destruct f; done.
Qed.

Lemma parse_plain raw s :
  trim raw = s → s ≠ [] → digitString s →
  parseAmountToMicro raw = Some (Z.of_N (decimal s) * MICRO_FACTOR).
Proof.
  intros Htrim Hne Hs. unfold parseAmountToMicro. rewrite Htrim.
  rewrite pattern_plain, split_plain by done. simpl.
  destruct s as [|c s]; [done|].
  rewrite BigInt_decimal by done. simpl. f_equal. lia.
Qed.

Lemma parse_dotted raw i f :
  trim raw = i ++ 46%N :: f → digitString i → digitString f → (List.length f ≤ 18)%nat →
  parseAmountToMicro raw
  = Some (Z.of_N (decimal i) * MICRO_FACTOR
          + Z.of_N (decimal (take 6 (f ++ replicate 6 48%N)))).
Proof.
  intros Htrim Hi Hf Hlen. unfold parseAmountToMicro. rewrite Htrim.
  rewrite pattern_dotted, split_dotted by done. cbn [negb].
  destruct (padded_digits f Hf) as [Hpad Hne].
  rewrite lit_zeros, (BigInt_decimal (take 6 _)) by done.
  destruct i as [|c i].
  - by destruct f.
  - rewrite BigInt_decimal by done. by destruct i, f.
Qed.

(** *** Printing *)

Lemma toString_nonneg (v : Z) : 0 ≤ v → toString v = digitsOf (Z.to_N v).
Proof. intros Hv. unfold toString. by destruct (Z.ltb_spec v 0); [lia|]. Qed.

Lemma zeros_only s :
  forallb (λ c, (c =? 48)%N) s = true → s = replicate (List.length s) 48%N.
Proof.
  induction s as [|c s IH]; simpl; [done|].
  intros [->%N.eqb_eq Hs]%andb_true_iff. f_equal. auto.
Qed.

Lemma rev_replicate (k : nat) c : rev (replicate k c) = replicate k c.
Proof.
  induction k as [|k IH]; simpl; [done|]. rewrite IH. clear IH.
  induction k as [|k IH]; simpl; [done|]. by rewrite IH.
Qed.

(** What stripping the trailing zeros leaves: the string is what is left
    followed by zeros, and what is left does not end in a zero. *)
Lemma stripped_zeros s :
  ∃ k : nat,
    s = dropWhileEnd (λ c, (c =? 48)%N) s ++ replicate k 48%N ∧
    last (dropWhileEnd (λ c, (c =? 48)%N) s) ≠ Some 48%N.
Proof.
  unfold dropWhileEnd.
  destruct (dropWhile_prefix (λ c, (c =? 48)%N) (rev s)) as (z & Heq & Hz).
  exists (List.length z). split.
  - rewrite <- (rev_involutive s) at 1. rewrite Heq at 1. rewrite rev_app_distr.
    f_equal. rewrite (zeros_only z Hz) at 1. apply rev_replicate.
  - destruct (dropWhile (λ c, (c =? 48)%N) (rev s)) as [|c t] eqn:Hrest; [done|].
    apply dropWhile_head in Hrest. simpl. rewrite last_snoc.
    intros [= ->]. done.
Qed.

(** The six-digit fraction of a value, before the trailing zeros go. *)
Lemma fraction_padded (r : N) :
  (r < 1000000)%N →
  List.length (padStart 6 48%N (digitsOf r)) = 6%nat ∧
  digitString (padStart 6 48%N (digitsOf r)) ∧
  decimal (padStart 6 48%N (digitsOf r)) = r.
Proof.
  intros Hr. unfold padStart.
  pose proof (digitsOf_length r 5 Hr) as Hlen.
  split; [|split].
  - rewrite length_app, length_replicate. lia.
  - unfold digitString. rewrite forallb_app, forallb_replicate by done.
    apply digitsOf_digits.
  - by rewrite decimal_zeros, decimal_digitsOf.
Qed.

Lemma digitString_app s t : digitString (s ++ t) ↔ digitString s ∧ digitString t.
Proof. unfold digitString. by rewrite forallb_app, andb_true_iff. Qed.

(** The text [formatMicroValue] prints for a value that is not negative. *)
Lemma format_nonneg (v : Z) :
  0 ≤ v →
  ∃ frac (k : nat),
    formatMicroValue v
    = digitsOf (Z.to_N (v / MICRO_FACTOR))
      ++ (if (0 <? List.length frac)%nat then 46%N :: frac else []) ∧
    digitString frac ∧
    (List.length frac + k = 6)%nat ∧
    last frac ≠ Some 48%N ∧
    decimal (frac ++ replicate k 48%N) = Z.to_N (v mod MICRO_FACTOR).
Proof.
  intros Hv. unfold formatMicroValue, MICRO_FACTOR.
  destruct (Z.ltb_spec v 0) as [|_]; [lia|].
  rewrite Z.quot_div_nonneg, Z.rem_mod_nonneg by lia.
  pose proof (Z.mod_pos_bound v 1000000 ltac:(lia)) as Hr.
  pose proof (Z.div_pos v 1000000 Hv ltac:(lia)) as Hq.
  rewrite !toString_nonneg by lia.
  destruct (fraction_padded (Z.to_N (v mod 1000000)) ltac:(lia)) as (Hlen & Hdig & Hval).
  destruct (stripped_zeros (padStart 6 48%N (digitsOf (Z.to_N (v mod 1000000)))))
    as (k & Hsplit & Hlast).
  set (frac := dropWhileEnd _ _) in *.
  exists frac, k. split; [done|].
  rewrite Hsplit in Hlen, Hdig, Hval.
  apply digitString_app in Hdig as [Hfrac _].
  rewrite length_app, length_replicate in Hlen. done.
Qed.

Lemma dotted_solid i f :
  digitString i → digitString f → Forall (λ c, isWhiteSpace c = false) (i ++ 46%N :: f).
Proof.
  intros Hi Hf. apply Forall_app. split; [by apply digits_solid|].
  constructor; [done|by apply digits_solid].
Qed.

Lemma format_negative (v : Z) :
  v < 0 → formatMicroValue v = 45%N :: formatMicroValue (- v).
Proof.
  intros Hv. unfold formatMicroValue.
  destruct (Z.ltb_spec v 0) as [_|]; [|lia].
  destruct (Z.ltb_spec (- v) 0) as [|_]; [lia|]. done.
Qed.

Lemma take_padded f (k : nat) :
  (List.length f + k = 6)%nat →
  take 6 (f ++ replicate 6 48%N) = f ++ replicate k 48%N.
Proof.
  intros Hlen. rewrite take_app, take_replicate.
  rewrite take_ge by lia. do 2 f_equal. lia.
Qed.

(** X12: the text [formatMicroValue] prints for a value that is not
    negative is read back by [parseAmountToMicro] as that very value; the
    text it prints for a negative value is rejected. *)
Theorem parse_reads_back_what_format_printed (v : Z) :
  parseAmountToMicro (formatMicroValue v) = if 0 <=? v then Some v else None.
Proof.
  assert (Hback : ∀ u, 0 ≤ u →
    Forall (λ c, isWhiteSpace c = false) (formatMicroValue u) ∧
    parseAmountToMicro (formatMicroValue u) = Some u).
  { intros u Hu.
    destruct (format_nonneg u Hu) as (frac & k & Heq & Hfrac & Hlen & _ & Hval).
    pose proof (digitsOf_digits (Z.to_N (u / MICRO_FACTOR))) as Hint.
    pose proof (digitsOf_nonempty (Z.to_N (u / MICRO_FACTOR))) as Hne.
    pose proof (Z.mod_pos_bound u 1000000 ltac:(lia)) as Hr.
    pose proof (Z.div_pos u 1000000 Hu ltac:(lia)) as Hq.
    pose proof (Z.div_mod u 1000000 ltac:(lia)) as Hu'.
    unfold MICRO_FACTOR in *. rewrite Heq.
    destruct frac as [|c frac]; simpl.
    - rewrite app_nil_r. split; [by apply digits_solid|].
      rewrite (parse_plain _ (digitsOf (Z.to_N (u / 1000000))));
        [|by apply trim_solid, digits_solid|done|done].
      rewrite decimal_digitsOf. simpl in Hval. rewrite decimal_only_zeros in Hval.
      unfold MICRO_FACTOR. f_equal. lia.
    - split; [by apply dotted_solid|].
      rewrite (parse_dotted _ (digitsOf (Z.to_N (u / 1000000))) (c :: frac));
        [|by apply trim_solid, dotted_solid|done|done|simpl in *; lia].
      rewrite (take_padded _ k) by done.
      rewrite decimal_digitsOf, Hval. unfold MICRO_FACTOR. f_equal. lia. }
  destruct (Z.leb_spec 0 v) as [Hv|Hv]; [by apply Hback|].
  rewrite format_negative by done.
  destruct (Hback (- v) ltac:(lia)) as [Hsolid _].
  unfold parseAmountToMicro. rewrite trim_solid by (by constructor). done.
Qed.

(** X13: digits, a dot and at most eighteen digits are read in millionths:
    the whole part times 1000000 plus the first six decimals, the missing
    ones counting as zeros; an empty whole part counts as zero, so does an
    empty fraction; digits alone are read as a whole number of tokens.
    There is no upper bound on the amount read. *)
Theorem amount_is_read_in_millionths i f :
  digitString i → digitString f → (List.length f ≤ 18)%nat →
  parseAmountToMicro (i ++ lit "." ++ f)
  = Some (Z.of_N (decimal i) * 1000000
          + Z.of_N (decimal (take 6 (f ++ lit "000000")))) ∧
  (i ≠ [] → parseAmountToMicro i = Some (Z.of_N (decimal i) * 1000000)).
Proof.
  intros Hi Hf Hlen. split.
  - apply parse_dotted; try done. by apply trim_solid, dotted_solid.
  - intros Hne. apply parse_plain; try done. by apply trim_solid, digits_solid.
Qed.

(** X14: decimals beyond the sixth are accepted, up to the eighteenth,
    and dropped without rounding: the text reads as the one cut after the
    sixth decimal. *)
Theorem decimals_beyond_the_sixth_are_dropped i f :
  digitString i → digitString f → (List.length f ≤ 18)%nat →
  parseAmountToMicro (i ++ lit "." ++ f) = parseAmountToMicro (i ++ lit "." ++ take 6 f).
Proof.
  intros Hi Hf Hlen.
  assert (Hf6 : digitString (take 6 f)) by (by apply forallb_take).
  rewrite (parse_dotted _ i f), (parse_dotted _ i (take 6 f)); try done.
  - do 3 f_equal. rewrite !take_app, take_take.
    destruct (decide (List.length f ≤ 6)%nat) as [Hshort|Hlong].
    + by rewrite !(take_ge f) by lia.
    + rewrite length_take. by replace (6 - 6 `min` List.length f)%nat with (6 - List.length f)%nat by lia.
  - by apply trim_solid, dotted_solid.
  - rewrite length_take. lia.
  - by apply trim_solid, dotted_solid.
Qed.

(** X15: [parseAmountToMicro] returns [null] exactly when the trimmed
    text is empty or does not match the pattern; it never does so because
    [BigInt] threw, and what it returns otherwise is never negative. *)
Theorem parse_rejects_exactly (rawValue : jsString) :
  match parseAmountToMicro rawValue with
  | Some amount => 0 ≤ amount ∧ trim rawValue ≠ [] ∧ amountPattern (trim rawValue) = true
  | None => trim rawValue = [] ∨ amountPattern (trim rawValue) = false
  end.
Proof.
  destruct (trim rawValue) as [|c t] eqn:Htrim.
  { unfold parseAmountToMicro. rewrite Htrim. by left. }
  destruct (amountPattern (c :: t)) eqn:Hpattern.
  2:{ unfold parseAmountToMicro. rewrite Htrim, Hpattern. by right. }
  destruct (pattern_shape _ Hpattern) as [Hplain|(i & f & Heq & Hi & Hf & Hlen)].
  - rewrite (parse_plain rawValue (c :: t)) by done. unfold MICRO_FACTOR. split; [lia|done].
  - rewrite Heq in Htrim. rewrite (parse_dotted rawValue i f) by done.
    unfold MICRO_FACTOR. split; [lia|done].
Qed.

(** X16: white space and line breaks around the text do not change what
    is read. *)
Theorem parse_ignores_surrounding_white_space (l s r : jsString) :
  blank l → blank r → parseAmountToMicro (l ++ s ++ r) = parseAmountToMicro s.
Proof.
  intros Hl Hr. unfold parseAmountToMicro. by rewrite trim_blank_around.
Qed.

(** X17: a value that is not negative prints as its whole number of
    tokens alone when it is a multiple of 1000000, and otherwise followed by
    a dot and between one and six decimals, which are the six decimals of
    the value without the trailing zeros. *)
Theorem format_prints_whole_part_and_significant_decimals (v : Z) :
  0 ≤ v →
  if v mod 1000000 =? 0
  then formatMicroValue v = toString (v / 1000000)
  else ∃ frac (k : nat),
         formatMicroValue v = toString (v / 1000000) ++ lit "." ++ frac ∧
         digitString frac ∧ (1 ≤ List.length frac)%nat ∧ (List.length frac + k = 6)%nat ∧
         last frac ≠ Some 48%N ∧
         Z.of_N (decimal (frac ++ replicate k 48%N)) = v mod 1000000.
Proof.
  intros Hv.
  destruct (format_nonneg v Hv) as (frac & k & Heq & Hfrac & Hlen & Hlast & Hval).
  pose proof (Z.mod_pos_bound v 1000000 ltac:(lia)) as Hr.
  pose proof (Z.div_pos v 1000000 Hv ltac:(lia)) as Hq.
  unfold MICRO_FACTOR in *. rewrite toString_nonneg by lia. rewrite Heq.
  destruct (Z.eqb_spec (v mod 1000000) 0) as [Hzero|Hsome].
  - destruct frac as [|c rest]; [by rewrite app_nil_r|].
    exfalso. rewrite Hzero in Hval.
    assert (Hall : forallb (λ c, (c =? 48)%N) ((c :: rest) ++ replicate k 48%N) = true).
    { apply decimal_zero_inv; [|done].
      apply digitString_app. split; [done|]. by apply forallb_replicate. }
    rewrite forallb_app in Hall. apply andb_true_iff in Hall as [Hall _].
    destruct (last_satisfies _ (c :: rest) c rest eq_refl Hall) as (x & Hx & ->%N.eqb_eq).
    done.
  - destruct frac as [|c frac].
    + simpl in Hval. rewrite decimal_only_zeros in Hval. lia.
    + exists (c :: frac), k. simpl in *. repeat split; try done; lia.
Qed.

(** The text 12.5 *)
Lemma amount_is_read_in_millionths_witness :
  digitString (lit "12") ∧ digitString (lit "5") ∧ (List.length (lit "5") ≤ 18)%nat ∧
  parseAmountToMicro (lit "12" ++ lit "." ++ lit "5")
  = Some (Z.of_N (decimal (lit "12")) * 1000000
          + Z.of_N (decimal (take 6 (lit "5" ++ lit "000000")))) ∧
  (lit "12" ≠ [] → parseAmountToMicro (lit "12") = Some (Z.of_N (decimal (lit "12")) * 1000000)).
Proof.
  assert (Hlen : (List.length (lit "5") ≤ 18)%nat) by (simpl; lia).
  split; [reflexivity|]. split; [reflexivity|]. split; [exact Hlen|].
  exact (amount_is_read_in_millionths (lit "12") (lit "5") eq_refl eq_refl Hlen).
Defined.

(** The text 0.0000009 reads as zero. *)
Lemma decimals_beyond_the_sixth_are_dropped_witness :
  digitString (lit "0") ∧ digitString (lit "0000009") ∧
  (List.length (lit "0000009") ≤ 18)%nat ∧
  parseAmountToMicro (lit "0" ++ lit "." ++ lit "0000009")
  = parseAmountToMicro (lit "0" ++ lit "." ++ take 6 (lit "0000009")).
Proof.
  assert (Hlen : (List.length (lit "0000009") ≤ 18)%nat) by (simpl; lia).
  split; [reflexivity|]. split; [reflexivity|]. split; [exact Hlen|].
  exact (decimals_beyond_the_sixth_are_dropped (lit "0") (lit "0000009")
           eq_refl eq_refl Hlen).
Defined.

(** A space and a tab before 1.5, a line feed after it. *)
Lemma parse_ignores_surrounding_white_space_witness :
  blank [32; 9]%N ∧ blank [10]%N ∧
  parseAmountToMicro ([32; 9]%N ++ lit "1.5" ++ [10]%N) = parseAmountToMicro (lit "1.5").
Proof.
  split; [reflexivity|]. split; [reflexivity|].
  exact (parse_ignores_surrounding_white_space [32; 9]%N (lit "1.5") [10]%N
           eq_refl eq_refl).
Defined.

(** 1234500 millionths print as 1.2345 *)
Lemma format_prints_whole_part_and_significant_decimals_witness :
  0 ≤ 1234500 ∧
  if 1234500 mod 1000000 =? 0
  then formatMicroValue 1234500 = toString (1234500 / 1000000)
  else ∃ frac (k : nat),
         formatMicroValue 1234500 = toString (1234500 / 1000000) ++ lit "." ++ frac ∧
         digitString frac ∧ (1 ≤ List.length frac)%nat ∧ (List.length frac + k = 6)%nat ∧
         last frac ≠ Some 48%N ∧
         Z.of_N (decimal (frac ++ replicate k 48%N)) = 1234500 mod 1000000.
Proof.
  assert (Hv : 0 ≤ 1234500) by lia.
  split; [exact Hv|].
  exact (format_prints_whole_part_and_significant_decimals 1234500 Hv).
Defined.

(** What the page shows and reads, on a few texts. *)
Example amounts_shown_and_read :
  formatMicroValue 1234500 = lit "1.2345" ∧
  formatMicroValue 400000 = lit "0.4" ∧
  formatMicroValue 1000000 = lit "1" ∧
  formatMicroValue 0 = lit "0" ∧
  parseAmountToMicro (lit "0.75") = Some 750000 ∧
  parseAmountToMicro (lit ".") = Some 0 ∧
  parseAmountToMicro (lit "0.0000009") = Some 0 ∧
  parseAmountToMicro (lit "") = None ∧
  parseAmountToMicro (lit "-1") = None ∧
  parseAmountToMicro (lit "1e5") = None ∧
  parseAmountToMicro (lit "18446744073710") = Some 18446744073710000000.
Proof. by vm_compute. Qed.

End StakingAppFacts.
